(* ===== verification/_CoqProject ===== *)
-Q . S2P
Prelude.v
Names.v
Registry.v
Tree.v
RouterService.v
Startup.v
Route.v
Lifecycle.v
Protocol.v
TestHelpers.v
