(* ===== verification/Prelude.v ===== *)
(** * A verification library for the router of glimmerx-router (@emberx/router)

    The program (src/packages/@emberx/router/src) is the routing layer of a
    front-end framework.  Its parts, and how they interact:

    - [index.ts], class [EmberXRouter]: process-wide static state
      ([ROUTE_REGISTRY], [SERVICES], [routerjs], [LOG_ROUTES]) and the
      startup pipeline [start]: reset the registry, run the DSL callback
      through [map] (optional), fold the flat route definitions into the
      same registry object ([definitionsToRegistry], with its helper
      [checkInRouteRegistryOrCreateRoute]), turn the registry into the
      nested array router_js expects ([convertToRouterJSRouteArray], with
      [findNestedRoute]) and install a new [RouterJSRouter] configured with
      it.  Route names are inferred by [createRouteNameFromRouteClass] and
      [createRouteNameFromPath].
    - [router-service.ts], class [RouterJSRouter]: the adapter over the
      external router_js engine; the engine calls its hooks
      ([willTransition], [didTransition], [getRoute], [updateURL],
      [transitionDidError]) and the application calls [visit].
    - [route.ts], class [Route]: the default handler ([DefaultRoute] of
      [getRoute]); its static hooks read the router service that
      [getRoute] copied onto the class ([modelFor]), render into the DOM
      ([setup]) and cast the query parameters the engine hands to
      [events.finalizeQueryParamChange] ([castCorrectValueFromString],
      [nilifyStrings]).

    ** Files of the development (in dependency order)

    - [Prelude] (this file): the JavaScript effects every component uses:
      a state monad with exceptions ([M S A]; [let* x := m in k] in
      [js_scope]; a throw keeps the state reached, as mutated globals do in
      JavaScript), Hoare triples on it ([hoare], [preserves],
      [never_throws]) with their rules and tactics ([m_step],
      [preserves_auto], [never_throws_auto]); [forEach] and [reduce] (with
      index) as combinators; the string operations of the code
      ([str_split], [str_join] on one character, [startsWith], global
      [replace]) with their round-trip lemmas; the default
      [Array.prototype.sort] order of strings ([key_le], [sort_keys]); the
      hint database [s2p].
    - [Names] (Module [Names]): [createRouteNameFromRouteClass] (a
      [reduce] over the characters of [constructor.name]) and
      [createRouteNameFromPath]; a handler is a JS value, a route class or
      an instance, with an object identity.
    - [Registry] (Module [Registry]): [RouteDefinition], the entries, the
      static state [Static] (the registry as [gmap string Entry] and the
      console), [checkInRouteRegistryOrCreateRoute], the [reduce] step over
      name segments ([segmentStep]), [registerDefinition] (the [forEach]
      callback) and [definitionsToRegistry].
    - [Tree] (Module [Tree]): the router_js route tree, [findNestedRoute]
      and [convertToRouterJSRouteArray].  The node [findNestedRoute]
      returns is a reference into the array being built, which [push]
      mutates: it is modelled by its position (a path of indices) and an
      update along that path ([push_at]).
    - [RouterService] (Module [RouterService]): [RouterJSRouter]'s fields
      and methods on a state [World] that also holds the static registry,
      [SERVICES], [LOG_ROUTES] and the properties [Object.assign] copies
      onto handler objects; the engine's [recognize] and [transitionTo]
      are parameters of [visit]; [Object.keys] with its order of array
      indices first.
    - [Startup] (Modules [Startup], [DSL]): [start] and [map] over a heap of
      registry objects, so that the object [map] returns, [ROUTE_REGISTRY]
      and [RouteMapContext.ROUTE_REGISTRY] alias as in the code.
      [RouteMapContext] is not under src/: [start] is verified against the
      class [MapContext] (the context keeps entries under their names and
      keeps the registry prefix-closed), and [DSL] models it from the spec
      (nested [route] calls) and discharges the class.
    - [Route] (Modules [JsNumber], [Route], [RouteSpec]): [Number] and
      [parseInt(_, 10)] on strings, to binary64 values of the Standard
      Library's [SpecFloat]; the route class's [modelFor] (over the
      [World] of [RouterService], the engine's [activeTransition] a
      parameter), [setup] on a page state (elements by id, their content,
      the console), [finalizeQueryParamChange] on the three objects it
      mutates, the casting functions; [RouteSpec] describes the effect of
      the query-parameter loop in terms of its input.
    - [Lifecycle] (Module [Lifecycle]): how the parts meet at run time.
      [adapter_world] is the adapter's [World] as [start] leaves the
      process state [Global]: the registry [ROUTE_REGISTRY] refers to,
      the console, [SERVICES] and the installed router.
    - [Protocol] (Module [Protocol]): one transition as the router_js
      engine drives the hooks, a phase machine [engine_step] over the
      adapter's [World] and the [Page]: [willTransition] (with
      [resolveIndex] 0), [getRoute] for each route info (root first, the
      result stored as its [_route]), [setup] of each route class in the
      same order, [updateURL], [didTransition]; a hook that throws fails
      the transition.  This order is what router_js does; it is an
      assumption about the engine, not code of the repository.
    - [TestHelpers] (Module [TestHelpers]): [triggerKeyEvent] with its
      frozen [DEFAULT_MODIFIERS] and [setupTest], over the entry points of
      qunit-action, qunit-dom and the upstream helpers (section
      variables).

    ** What the theorems show (the [...Facts] module of each file)

    - Names: the name inferred from a path has one segment per path
      segment, without [/] or [:]; the name inferred from a handler object
      whose class is words then [Route] is the words, lowered at their
      first character and joined with dots.  A route class value (what
      the code registers) has [constructor.name = "Function"], so for it
      the name is [function].
    - Registry: the build throws exactly when some definition lacks a
      (non-empty) path; every entry is stored under its own name (an
      invariant kept by every operation), so the overwrite warning can
      never fire; the exact key set the build produces (accumulated names,
      index placeholders, explicit index keys), which is the spec's set of
      prefixes for names not starting with a dot; prefix closure (every
      registered name's parent is registered) when explicit index names do
      not start with a dot, and its failure otherwise.
    - Tree: on a registry with matching keys and prefix closure the
      conversion never throws and yields exactly the registry as a tree
      ([tree_ok]: every node an entry, every entry at one position, roots
      without parent, every other node under its parent); the round trip
      of [findNestedRoute]; the children of a node are exactly its
      registered children; a parent sorts before its children for any
      characters; an orphan is promoted to a root only when its missing
      parent has one segment, and otherwise makes the conversion throw.
    - RouterService: [visit] passes the last handler and its param values
      (in [Object.keys] order) to the engine, and only logs on no match;
      [willTransition] makes the route info at [resolveIndex] current and
      [didTransition] the last one, changing nothing else; [updateURL]
      stores the path and feeds the location bar when not testing;
      [getRoute] assigns the services
      onto the shared handler object and throws for an unregistered name;
      [currentURL] depends on the order of [updateURL] and the hooks; an
      error is surfaced once per transition.
    - Startup: [start] is correct end to end (no exception, a new router
      installed as [routerjs] and [SERVICES.router], its tree exactly the
      final registry), rebuilds the registry in a fresh object, and on a
      missing path throws leaving the previous router installed; [map]
      makes the registry shared by [ROUTE_REGISTRY] and the context.
    - Route: [finalizeQueryParamChange] keeps exactly the parameters whose
      cast is not [null], pushes their entries in order and mirrors them in
      [this.router.queryParams]; it throws a TypeError exactly when a
      parameter named [length] is cast to [null] (strict-mode [delete] of
      the array's [length]) or the router has no [queryParams] and there is
      a parameter; a parameter named by an array index [i] and cast to
      [null] empties slot [i] of [finalQueryParams]; [setup] renders the
      leaf route only and clears the container for every other route, and
      throws without a container;
      [modelFor] returns the model of a route handed out by [getRoute],
      throws before [getRoute] and for a falsy model; the cast yields
      non-zero numbers, booleans, [null] or non-empty strings, leaves
      [0] and fractions below one as strings, and rounds integers beyond
      [2^53].
    - Lifecycle: after a successful [start], every route of the engine's
      tree resolves through [getRoute] to its registered handler, whose
      [modelFor] reads the active transition of the router [start]
      installed.
    - Protocol: along any run the registry, [SERVICES], [LOG_ROUTES] and
      the document's elements stay put and the location bar only grows (by
      induction on the run); a transition to registered routes with the
      container present ends with the router at the target, the target
      rendered and every handler carrying the services; a transition that
      reaches an unregistered name fails there with [getRoute]'s TypeError
      before any [setup].  That the phase machine is well founded and
      reaches a final phase within [measure] steps ([engine_terminates],
      [engine_reaches_final]) are lemmas about the engine model, which
      justify the fuel of [engine_run]; they say nothing of the hooks.
    Each theorem with hypotheses has a witness applying it to a concrete
    input (the spec's scenario where there is one).

    ** Modelling choices

    - Strings are Rocq [string]s of [ascii]: route names and paths are
      assumed 7-bit ASCII (UTF-16 code-unit order and ASCII order agree
      there; case conversion of [Names] is the identity on other bytes).
    - A JS object used as a map is a [gmap string _] read only through its
      own keys: names that are properties of [Object.prototype]
      ([constructor], [toString], ...) are outside the model.  The code
      reads the registry's keys through [Object.keys(..).sort()], which for
      distinct keys does not depend on the enumeration order
      ([sort_keys_unique]).
    - Every loop of the code is a [forEach], [reduce], [map] or
      [for .. in] over a finite list, modelled by structural recursion, so
      every definition of the code is total and executable.  The only
      fuel is that of [Protocol.engine_run], which runs the engine's phase
      machine; [measure] steps are enough to reach a final phase
      ([engine_reaches_final]).  JavaScript numbers are binary64 ([prec = 53],
      [emax = 1024]); a decimal literal [m × 10^k] is rounded once, from
      its exact value.
    - The [for (let key in queryParams)] loop visits the keys the object
      has when it starts, in [Object.keys] order, and skips a key deleted
      before its turn; [finalQueryParams] is an array of optional entries
      (a [delete] of an index leaves a hole, of another name does nothing,
      of [length] throws, as route.ts is an ES module and so strict).
    - [setup]'s logged objects, the [params]/[queryParams]/[owner] of the
      render call and the [await]s are left out: they do not change the
      page the theorems describe.
    - Object identities (handlers, registries, routers, services) are
      natural numbers; [DefaultRoute] has identity 0.

    ** Not modelled

    - The [params], [queryParams] and [owner] arguments of the render
      call in [setup] (they dispatch to the class's own [getParams] and
      [getQueryParams], whose base versions are modelled) and the [model]
      getter of a rendered component; route.ts's static [template] and
      [includes] data.
    - Overridden [activate]/[deactivate] and the [enter]/[exit] calls of
      the engine: [Protocol] runs only [getRoute] and [setup] on route
      classes.
    - The external router_js engine and route-recognizer (only through
      their entry points and the hook order of [Protocol]), component
      rendering, the location bar, and the libraries the test helpers
      call. *)

From Stdlib Require Import Ascii String.
From stdpp Require Import base list gmap strings sorting.

Declare Scope js_scope.
Delimit Scope js_scope with js.
Open Scope stdpp_scope.

(** ** Exceptions and the state monad of JavaScript code *)

(** The two kinds of exception the modelled code raises: an explicit
    [throw new Error(msg)] and the TypeError of reading a property of
    [undefined]. *)
Inductive exn :=
| JsError (msg : string)
| JsTypeError (msg : string).

(** The TypeError of reading the property [prop] of [undefined]. *)
Definition undefined_read (prop : string) : exn :=
  JsTypeError ("Cannot read properties of undefined (reading '" +:+ prop +:+ "')").

Inductive outcome (A : Type) :=
| Ok (a : A)
| Throw (e : exn).
Arguments Ok {A} a.
Arguments Throw {A} e.

(** A computation over the mutable state [S]: the state reached before an
    exception is kept. *)
Definition M (S A : Type) : Type := S -> outcome A * S.

Section Monad.
Context {S : Type}.

Definition ret {A} (a : A) : M S A := fun s => (Ok a, s).
Definition throw {A} (e : exn) : M S A := fun s => (Throw e, s).
Definition bind {A B} (m : M S A) (k : A -> M S B) : M S B :=
  fun s => match m s with
           | (Ok a, s') => k a s'
           | (Throw e, s') => (Throw e, s')
           end.
Definition get : M S S := fun s => (Ok s, s).
Definition put (s : S) : M S unit := fun _ => (Ok tt, s).
Definition modify (f : S -> S) : M S unit := fun s => (Ok tt, f s).
End Monad.

Notation "'let*' x ':=' m 'in' k" := (bind m (fun x => k))
  (at level 10, x name, m at level 100, k at level 200) : js_scope.

(** Pure code that may throw (no state): [outcome] with its own bind. *)
Definition obind {A B} (m : outcome A) (k : A -> outcome B) : outcome B :=
  match m with Ok a => k a | Throw e => Throw e end.
Notation "'let?' x ':=' m 'in' k" := (obind m (fun x => k))
  (at level 10, x name, m at level 100, k at level 200) : js_scope.

Open Scope js_scope.

(** [Array.prototype.forEach] with a callback that may mutate and throw. *)
Fixpoint forEachM {S A} (f : A -> M S unit) (l : list A) : M S unit :=
  match l with
  | [] => ret tt
  | x :: l' => let* _ := f x in forEachM f l'
  end.

(** [Array.prototype.reduce(callback(acc, x, index), init)]: a left fold
    that passes the index. *)
Fixpoint reducei_go {A B} (f : B -> A -> nat -> B) (l : list A) (i : nat) (acc : B) : B :=
  match l with
  | [] => acc
  | x :: l' => reducei_go f l' (S i) (f acc x i)
  end.
Definition reducei {A B} (f : B -> A -> nat -> B) (init : B) (l : list A) : B :=
  reducei_go f l 0 init.

Fixpoint reduceiM_go {St A B} (f : B -> A -> nat -> M St B) (l : list A) (i : nat) (acc : B)
  : M St B :=
  match l with
  | [] => ret acc
  | x :: l' => let* acc' := f acc x i in reduceiM_go f l' (S i) acc'
  end.
Definition reduceiM {S A B} (f : B -> A -> nat -> M S B) (init : B) (l : list A) : M S B :=
  reduceiM_go f l 0 init.


(** ** Hoare triples for [M]

    [hoare P m Q]: from a state satisfying [P], [m] ends with an outcome and
    a state satisfying [Q] (a thrown exception included).  The combinator
    lemmas below carry the invariant proofs of every component. *)

Section Hoare.
Context {St : Type}.

Definition hoare {A} (P : St → Prop) (m : M St A) (Q : outcome A → St → Prop) : Prop :=
  ∀ s, P s → Q (m s).1 (m s).2.

(** The continuation of [bind]: what the first computation must
    establish, for an outcome. *)
Definition post_bind {A B} (R : A → St → Prop) (Q : outcome B → St → Prop)
    (o : outcome A) (s : St) : Prop :=
  match o with Ok a => R a s | Throw e => Q (Throw e) s end.

Lemma hoare_ret {A} P (a : A) Q : (∀ s, P s → Q (Ok a) s) → hoare P (ret a) Q.
Proof. intros H s. apply H. Qed.
Lemma hoare_throw {A} P e Q : (∀ s, P s → Q (Throw e) s) → hoare P (throw (A:=A) e) Q.
Proof. intros H s. apply H. Qed.
Lemma hoare_get P Q : (∀ s, P s → Q (Ok s) s) → hoare P get Q.
Proof. intros H s. apply H. Qed.
Lemma hoare_modify P f Q : (∀ s, P s → Q (Ok tt) (f s)) → hoare P (modify f) Q.
Proof. intros H s. apply H. Qed.

Lemma hoare_bind {A B} P (m : M St A) (k : A → M St B) R Q :
  hoare P m (post_bind R Q) → (∀ a, hoare (R a) (k a) Q) → hoare P (bind m k) Q.
Proof.
  intros Hm Hk s Hs. specialize (Hm s Hs). unfold bind.
  destruct (m s) as [[a|e] s']; simpl in *; [by apply Hk|done].
Qed.

Lemma hoare_pre {A} P P' (m : M St A) Q : (∀ s, P s → P' s) → hoare P' m Q → hoare P m Q.
Proof. intros HP H s Hs. by apply H, HP. Qed.
Lemma hoare_post {A} P (m : M St A) Q Q' :
  (∀ o s, Q o s → Q' o s) → hoare P m Q → hoare P m Q'.
Proof. intros HQ H s Hs. by apply HQ, H. Qed.

(** [forEach]: a state invariant [I] kept by each callback. *)
Lemma hoare_forEachM {A} (I : St → Prop) Q (f : A → M St unit) l :
  (∀ x, x ∈ l → hoare I (f x) (post_bind (λ _, I) Q)) →
  (∀ s, I s → Q (Ok tt) s) →
  hoare I (forEachM f l) Q.
Proof.
  intros Hf Hend. induction l as [|x l IH]; simpl.
  - by apply hoare_ret.
  - eapply hoare_bind; [apply Hf; set_solver|]. intros u. apply IH.
    intros y Hy. apply Hf. set_solver.
Qed.

Lemma hoare_reduceiM_go {A B} (I : nat → B → St → Prop) Q (f : B → A → nat → M St B) l k :
  (∀ j x b, l !! j = Some x →
     hoare (I (k + j) b) (f b x (k + j)) (post_bind (I (S (k + j))) Q)) →
  (∀ b s, I (k + length l) b s → Q (Ok b) s) →
  ∀ b, hoare (I k b) (reduceiM_go f l k b) Q.
Proof.
  revert k. induction l as [|x l IH]; intros k Hf Hend b; simpl.
  - apply hoare_ret. intros s. rewrite Nat.add_0_r in Hend. apply Hend.
  - eapply hoare_bind.
    + specialize (Hf 0 x b eq_refl). by rewrite Nat.add_0_r in Hf.
    + intros b'. apply IH.
      * intros j y c Hy. replace (S k + j) with (k + S j) by lia. by apply Hf.
      * intros c s. replace (S k + length l) with (k + length (x :: l)) by (simpl; lia).
        apply Hend.
Qed.

(** [reduce]: an invariant on the step index, the accumulator and the
    state. *)
Lemma hoare_reduceiM {A B} (I : nat → B → St → Prop) Q (f : B → A → nat → M St B) l init :
  (∀ j x b, l !! j = Some x → hoare (I j b) (f b x j) (post_bind (I (S j)) Q)) →
  (∀ b s, I (length l) b s → Q (Ok b) s) →
  hoare (I 0 init) (reduceiM f init l) Q.
Proof. intros Hf Hend. by apply (hoare_reduceiM_go I Q f l 0). Qed.

(** A state invariant kept whatever the outcome (exceptions included). *)
Definition preserves {A} (I : St → Prop) (m : M St A) : Prop := hoare I m (λ _, I).

Lemma preserves_ret {A} I (a : A) : preserves I (ret a).
Proof. by apply hoare_ret. Qed.
Lemma preserves_throw {A} I e : preserves I (throw (A:=A) e).
Proof. by apply hoare_throw. Qed.
Lemma preserves_get I : preserves I get.
Proof. by apply hoare_get. Qed.
Lemma preserves_modify I f : (∀ s, I s → I (f s)) → preserves I (modify f).
Proof. intros H. by apply hoare_modify. Qed.
Lemma preserves_bind {A B} I (m : M St A) (k : A → M St B) :
  preserves I m → (∀ a, preserves I (k a)) → preserves I (bind m k).
Proof.
  intros Hm Hk. eapply hoare_bind; [|apply Hk].
  eapply hoare_post; [|apply Hm]. by intros [] s.
Qed.
Lemma preserves_and {A} I J (m : M St A) : preserves I m → preserves J m → preserves (λ s, I s ∧ J s) m.
Proof. intros HI HJ s [Hi Hj]. split; [by apply HI|by apply HJ]. Qed.

Lemma preserves_forEachM {A} I (f : A → M St unit) l :
  (∀ x, x ∈ l → preserves I (f x)) → preserves I (forEachM f l).
Proof.
  intros Hf. apply hoare_forEachM; [|done]. intros x Hx.
  eapply hoare_post; [|by apply Hf]. by intros [] s.
Qed.
Lemma preserves_reduceiM {A B} I (f : B → A → nat → M St B) init l :
  (∀ b x j, preserves I (f b x j)) → preserves I (reduceiM f init l).
Proof.
  intros Hf. apply (hoare_reduceiM (λ _ _, I)); [|done]. intros j x b _.
  eapply hoare_post; [|apply Hf]. by intros [] s.
Qed.

(** A computation that never throws, from any state. *)
Definition never_throws {A} (m : M St A) : Prop := ∀ s, ∃ a, (m s).1 = Ok a.

Lemma never_throws_ret {A} (a : A) : never_throws (ret a).
Proof. by eexists. Qed.
Lemma never_throws_get : never_throws get.
Proof. by eexists. Qed.
Lemma never_throws_modify f : never_throws (modify f).
Proof. by eexists. Qed.
Lemma never_throws_bind {A B} (m : M St A) (k : A → M St B) :
  never_throws m → (∀ a, never_throws (k a)) → never_throws (bind m k).
Proof.
  intros Hm Hk s. unfold bind. destruct (Hm s) as [a Ha].
  destruct (m s) as [o s']; simpl in Ha; subst. apply Hk.
Qed.
Lemma never_throws_reduceiM {A B} (f : B → A → nat → M St B) init l :
  (∀ b x j, never_throws (f b x j)) → never_throws (reduceiM f init l).
Proof.
  intros Hf. unfold reduceiM. generalize 0. revert init.
  induction l as [|x l IH]; intros b j; simpl; auto using never_throws_ret, never_throws_bind.
Qed.

(** [forEach] throws exactly when a callback does, here for elements
    failing a test [good], always with the same exception. *)
Lemma never_throws_forEachM {A} (f : A → M St unit) l :
  (∀ x, x ∈ l → never_throws (f x)) → never_throws (forEachM f l).
Proof.
  intros Hf. induction l as [|x l IH]; simpl; [apply never_throws_ret|].
  apply never_throws_bind; [apply Hf; set_solver|]. intros _. apply IH. intros y Hy. apply Hf. set_solver.
Qed.

Lemma forEachM_outcome {A} (good : A → bool) e (f : A → M St unit) l s :
  (∀ x, good x = true → never_throws (f x)) →
  (∀ x s, good x = false → (f x s).1 = Throw e) →
  (forEachM f l s).1 = if forallb good l then Ok tt else Throw e.
Proof.
  intros Hg Hb. revert s. induction l as [|x l IH]; intros s; [done|]. simpl.
  unfold bind. destruct (good x) eqn:Hx; simpl.
  - destruct (Hg x Hx s) as [[] Ha]. destruct (f x s) as [o s']; simpl in *. subst. apply IH.
  - specialize (Hb x s Hx). destruct (f x s) as [o s']; simpl in *. by subst.
Qed.
End Hoare.

(** Decompose a [preserves] goal along the program's binds and branches. *)
Ltac m_step Hbind :=
  match goal with
  | |- _ (bind _ _) => apply Hbind; [|intros ?]
  | |- _ _ (bind _ _) => apply Hbind; [|intros ?]
  | |- _ (let _ := _ in _) => cbv zeta
  | |- _ _ (let _ := _ in _) => cbv zeta
  | |- _ (match _ with _ => _ end) => case_match
  | |- _ _ (match _ with _ => _ end) => case_match
  end.
Ltac preserves_auto := repeat m_step preserves_bind; eauto 10 with s2p.
Ltac never_throws_auto := repeat m_step never_throws_bind; eauto 10 with s2p.

(** Run the monad's plumbing of a concrete computation. *)
Ltac unfold_M := unfold bind, ret, get, put, modify, throw; simpl.

(** ** Strings *)

(** JavaScript truthiness of a string: only [""] is falsy. *)
Definition truthy (s : string) : bool := bool_decide (s ≠ "").

(** [s.split(c)] for a one-character separator: never empty, [""] gives
    [[""]], and each occurrence of [c] cuts. *)
Fixpoint str_split (c : ascii) (s : string) : list string :=
  match s with
  | EmptyString => [""]
  | String a s' =>
      if decide (a = c) then "" :: str_split c s'
      else match str_split c s' with
           | r :: rs => String a r :: rs
           | [] => [String a ""]
           end
  end.

(** [l.join(c)]. *)
Definition str_join (c : ascii) (l : list string) : string := String.concat (String c "") l.

(** Whether character [c] occurs in [s]. *)
Fixpoint has_char (c : ascii) (s : string) : bool :=
  match s with
  | EmptyString => false
  | String a s' => bool_decide (a = c) || has_char c s'
  end.

(** [s.startsWith(c)] and [s.slice(1)] as the code uses them for a leading
    slash. *)
Definition starts_with (c : ascii) (s : string) : bool :=
  match s with String a _ => bool_decide (a = c) | EmptyString => false end.
Definition slice1 (s : string) : string :=
  match s with String _ s' => s' | EmptyString => "" end.

(** [s.replace(/c/g, d)] and [s.replace(/c/g, '')]. *)
Fixpoint replace_all (c d : ascii) (s : string) : string :=
  match s with
  | EmptyString => ""
  | String a s' => String (if decide (a = c) then d else a) (replace_all c d s')
  end.
Fixpoint remove_all (c : ascii) (s : string) : string :=
  match s with
  | EmptyString => ""
  | String a s' => if decide (a = c) then remove_all c s' else String a (remove_all c s')
  end.

(** [s.endsWith(t)] and removing that suffix once ([/t$/]). *)
Definition ends_with (t s : string) : bool :=
  bool_decide (String.length t <= String.length s) &&
  bool_decide (String.substring (String.length s - String.length t) (String.length t) s = t).
Definition strip_suffix (t s : string) : string :=
  if ends_with t s then String.substring 0 (String.length s - String.length t) s else s.

(** [s.split('.')] with its last segment popped, joined back: the parent
    name of a dotted route name. *)
Definition parent_segments (s : string) : list string := removelast (str_split "." s).


(** ** Lemmas on the string operations *)

Lemma str_split_not_nil c s : str_split c s ≠ [].
Proof. induction s as [|a s IH]; simpl; [done|]. case_decide; [done|]. by destruct (str_split c s). Qed.

Lemma str_join_cons c x l : l ≠ [] → str_join c (x :: l) = x +:+ String c "" +:+ str_join c l.
Proof. by destruct l. Qed.


(** [s.split(c).join(c) = s]. *)
Lemma str_join_split c s : str_join c (str_split c s) = s.
Proof.
  induction s as [|a s IH]; [done|]. simpl. case_decide; subst.
  - rewrite str_join_cons by apply str_split_not_nil. by rewrite IH.
  - destruct (str_split c s) as [|r rs] eqn:E; [by destruct (str_split_not_nil c s)|].
    destruct rs as [|r' rs]; [by rewrite <-IH|].
    rewrite str_join_cons in * by done. by rewrite <-IH.
Qed.

Lemma has_char_false_split c t : has_char c t = false → str_split c t = [t].
Proof.
  induction t as [|a t IH]; simpl; [done|]. intros [Ha Ht]%orb_false_iff.
  rewrite IH by done. case_decide; [|done]. subst. by rewrite bool_decide_true in Ha.
Qed.

(** Splitting [s ++ c ++ t], where [t] has no [c], adds [t] as the last
    segment. *)
Lemma str_split_app_sep c s t :
  has_char c t = false → str_split c (s +:+ String c t) = str_split c s ++ [t].
Proof.
  intros Ht. induction s as [|a s IH]; simpl.
  - rewrite decide_True by done. by rewrite has_char_false_split.
  - change (String.app s (String c t)) with (s +:+ String c t). rewrite IH. case_decide; [done|].
    destruct (str_split c s) eqn:E; [by destruct (str_split_not_nil c s)|]. done.
Qed.

(** [replace(/c/g, d)] turns the [c]-segments into [d]-segments, and
    removing a character acts segment by segment. *)
Lemma str_split_replace_all c d t :
  has_char d t = false → str_split d (replace_all c d t) = str_split c t.
Proof.
  induction t as [|a t IH]; simpl; [done|]. intros [Ha Ht]%orb_false_iff.
  destruct (decide (a = c)) as [->|Hac].
  - rewrite decide_True, IH by done. done.
  - rewrite decide_False, IH; [done..|]. intros ->. by rewrite bool_decide_true in Ha.
Qed.

Lemma str_split_remove_all c d t :
  c ≠ d → str_split d (remove_all c t) = remove_all c <$> str_split d t.
Proof.
  intros Hcd. induction t as [|a t IH]; simpl; [done|].
  case_decide as Hac; subst.
  - rewrite decide_False by done. rewrite IH.
    destruct (str_split d t) eqn:E; [by destruct (str_split_not_nil d t)|]. simpl.
    by rewrite decide_True.
  - simpl. case_decide; simpl; rewrite IH; [done|].
    destruct (str_split d t) eqn:E; [by destruct (str_split_not_nil d t)|]. simpl.
    by rewrite decide_False.
Qed.

Lemma has_char_remove_all_same c t : has_char c (remove_all c t) = false.
Proof. induction t as [|a t IH]; simpl; [done|]. case_decide; simpl; [done|]. rewrite bool_decide_false; auto. Qed.

Lemma has_char_remove_all_other x c t : has_char x t = false → has_char x (remove_all c t) = false.
Proof.
  induction t as [|a t IH]; cbn [has_char remove_all]; [done|]. intros [Ha Ht]%orb_false_iff.
  destruct (decide (a = c)); cbn [has_char]; [auto|]. by rewrite Ha, IH.
Qed.

Lemma has_char_replace_all_same c d t : c ≠ d → has_char c (replace_all c d t) = false.
Proof.
  intros Hcd. induction t as [|a t IH]; simpl; [done|]. rewrite IH, orb_false_r.
  case_decide; apply bool_decide_false; congruence.
Qed.

(** ** Concatenation and truthiness *)

Lemma string_app_assoc (s1 s2 s3 : string) : s1 +:+ (s2 +:+ s3) = (s1 +:+ s2) +:+ s3.
Proof. induction s1 as [|a s1 IH]; [done|]. exact (f_equal (String a) IH). Qed.

Lemma truthy_true s : truthy s = true ↔ s ≠ "".
Proof. unfold truthy. by rewrite bool_decide_eq_true. Qed.

Lemma truthy_app_l s t : truthy s = true → truthy (s +:+ t) = true.
Proof. rewrite !truthy_true. by destruct s. Qed.

Lemma str_join_cons_cons c x y l : str_join c (x :: y :: l) = x +:+ String c "" +:+ str_join c (y :: l).
Proof. done. Qed.

(** [join] and [split] are inverse on dot-free segments. *)
Lemma str_join_app c l1 l2 :
  l1 ≠ [] → l2 ≠ [] → str_join c (l1 ++ l2) = str_join c l1 +:+ String c "" +:+ str_join c l2.
Proof.
  intros H1 H2. induction l1 as [|x l1 IH]; [done|]. destruct l1 as [|y l1].
  - simpl. by rewrite str_join_cons.
  - rewrite <-app_comm_cons, str_join_cons by (by destruct l1).
    rewrite IH by done. rewrite (str_join_cons c x (y :: l1)) by done. by rewrite !string_app_assoc.
Qed.

(** [l.join(c).split(c) = l] when no element contains [c]. *)
Lemma str_split_join c l :
  (∀ x, x ∈ l → has_char c x = false) → l ≠ [] → str_split c (str_join c l) = l.
Proof.
  intros Hl Hne. induction l as [|x l IH] using rev_ind; [done|]. destruct l as [|y l].
  - simpl. apply has_char_false_split, Hl. set_solver.
  - rewrite str_join_app by done. simpl.
    rewrite (str_split_app_sep c _ x) by (apply Hl; set_solver).
    rewrite IH; [done| |done]. intros z Hz. apply Hl. set_solver.
Qed.

(** Induction along a pure [reduce]. *)
Lemma reducei_ind {A B} (J : nat → B → Prop) (f : B → A → nat → B) init l :
  J 0 init → (∀ i x b, l !! i = Some x → J i b → J (S i) (f b x i)) → J (length l) (reducei f init l).
Proof.
  intros H0 Hs. unfold reducei.
  cut (∀ k b, J k b → (∀ i x b, l !! i = Some x → J (k + i) b → J (S (k + i)) (f b x (k + i))) →
         J (k + length l) (reducei_go f l k b)).
  { intros H. apply (H 0); [done|]. intros i x b. apply Hs. }
  clear H0 Hs. induction l as [|x l IH]; intros k b Hb Hs; simpl.
  - by rewrite Nat.add_0_r.
  - replace (k + S (length l)) with (S k + length l) by lia. apply IH.
    + specialize (Hs 0 x b eq_refl). rewrite Nat.add_0_r in Hs. by apply Hs.
    + intros i y c Hy. replace (S k + i) with (k + S i) by lia. by apply Hs.
Qed.


(** ** Parents of dotted names *)

(** No segment of [s.split(c)] contains [c]. *)
Lemma str_split_no_char c s seg : seg ∈ str_split c s → has_char c seg = false.
Proof.
  revert seg. induction s as [|a s IH]; intros seg; simpl.
  - by intros ->%list_elem_of_singleton.
  - case_decide as Ha.
    + intros [->|?]%elem_of_cons; auto.
    + destruct (str_split c s) as [|r rs] eqn:E; [by destruct (str_split_not_nil c s)|].
      intros [->|?]%elem_of_cons; [|apply IH; set_solver].
      simpl. rewrite bool_decide_false by done. apply IH. set_solver.
Qed.

Lemma str_split_dot_child c cur seg :
  has_char c seg = false → str_split c (cur +:+ String c "" +:+ seg) = str_split c cur ++ [seg].
Proof. intros H. apply str_split_app_sep, H. Qed.

(** The parent of [cur.seg] is [cur]. *)
Lemma parent_segments_child cur seg :
  has_char "." seg = false → str_join "." (parent_segments (cur +:+ "." +:+ seg)) = cur.
Proof.
  intros H. unfold parent_segments. rewrite (str_split_dot_child "." cur seg H).
  rewrite removelast_last. apply str_join_split.
Qed.

Lemma parent_segments_single seg : has_char "." seg = false → parent_segments seg = [].
Proof. intros H. unfold parent_segments. by rewrite has_char_false_split. Qed.

Lemma parent_segments_child_ne cur seg :
  has_char "." seg = false → parent_segments (cur +:+ "." +:+ seg) ≠ [].
Proof.
  intros H. unfold parent_segments. rewrite (str_split_dot_child "." cur seg H), removelast_last.
  apply str_split_not_nil.
Qed.

(** ** The default sort order: a proper prefix sorts first *)

Lemma compare_prefix_lt s t : t ≠ "" → String.compare s (s +:+ t) = Lt.
Proof.
  intros Ht. induction s as [|a s IH]; simpl.
  - by destruct t.
  - unfold Ascii.compare. rewrite N.compare_refl. exact IH.
Qed.

(** [Object.keys(o).sort()] paired with the values: sorted by key with the
    default string order. *)
Definition key_le {A} (x y : string * A) : Prop := String.le x.1 y.1.
#[export] Instance key_le_dec {A} : RelDecision (@key_le A).
Proof. intros x y. unfold key_le. apply _. Defined.
#[export] Instance key_le_total {A} : Total (@key_le A).
Proof. intros x y. apply (total String.le). Qed.
#[export] Instance key_le_trans {A} : Transitive (@key_le A).
Proof. intros x y z. unfold key_le. apply transitivity. Qed.

Definition sort_keys {A} (l : list (string * A)) : list (string * A) := merge_sort key_le l.

Lemma forallb_elem_of {A} (f : A → bool) l : forallb f l = true ↔ ∀ x, x ∈ l → f x = true.
Proof. rewrite forallb_forall. setoid_rewrite list_elem_of_In. done. Qed.

Lemma forallb_false_exists {A} (f : A → bool) l : forallb f l = false ↔ ∃ x, x ∈ l ∧ f x = false.
Proof.
  induction l as [|y l IH]; simpl; [split; [done|]; intros (x & Hx & _); by apply not_elem_of_nil in Hx|].
  destruct (f y) eqn:Hy; simpl.
  - rewrite IH. split; intros (x & Hx & Hfx); exists x; [split; [by right|done]|].
    apply elem_of_cons in Hx as [->|Hx]; [congruence|done].
  - split; [intros _; exists y; split; [left|done]|done].
Qed.

Lemma NoDup_fst_eq {A} (l : list (string * A)) x y :
  NoDup l.*1 → x ∈ l → y ∈ l → x.1 = y.1 → x = y.
Proof.
  induction l as [|z l IH]; [set_solver|]. simpl. intros [Hz Hl]%NoDup_cons Hx Hy Hxy.
  apply elem_of_cons in Hx as [->|Hx]; apply elem_of_cons in Hy as [->|Hy]; [done|..|by auto].
  - destruct Hz. rewrite Hxy. by apply list_elem_of_fmap_2.
  - destruct Hz. rewrite <-Hxy. by apply list_elem_of_fmap_2.
Qed.

(** With distinct keys the sorted list does not depend on the order in
    which the keys were enumerated. *)
Lemma sort_keys_unique {A} (l1 l2 : list (string * A)) :
  NoDup l1.*1 → l1 ≡ₚ l2 → sort_keys l1 = sort_keys l2.
Proof.
  intros Hnd Hp. unfold sort_keys.
  apply (Sorted_unique_strong key_le); [|apply Sorted_merge_sort, _..|].
  - intros x y Hx Hy Hxy Hyx. rewrite merge_sort_Permutation in Hx.
    rewrite merge_sort_Permutation, <-Hp in Hy.
    apply (NoDup_fst_eq l1); [done..|]. by apply (anti_symm String.le).
  - by rewrite !merge_sort_Permutation.
Qed.

(** ** Positions in the sorted key list *)

Lemma StronglySorted_lookup {A} (R : relation A) l i j x y :
  StronglySorted R l → l !! i = Some x → l !! j = Some y → i < j → R x y.
Proof.
  intros Hs. revert i j. induction Hs as [|z l Hs IH Hz]; intros i j Hi Hj Hij; [done|].
  destruct i as [|i]; destruct j as [|j]; simpl in *; [lia| |lia|].
  - simplify_eq. rewrite Forall_forall in Hz. apply Hz. by eapply list_elem_of_lookup_2.
  - apply (IH i j); [done..|lia].
Qed.

Lemma sort_keys_StronglySorted {A} (l : list (string * A)) : StronglySorted key_le (sort_keys l).
Proof. apply StronglySorted_merge_sort; apply _. Qed.

Lemma sort_keys_Permutation {A} (l : list (string * A)) : sort_keys l ≡ₚ l.
Proof. apply merge_sort_Permutation. Qed.

Lemma string_compare_refl s : String.compare s s = Eq.
Proof. induction s as [|a s IH]; [done|]. simpl. unfold Ascii.compare. by rewrite N.compare_refl. Qed.

(** In the sorted key list, a key that compares smaller comes first. *)
Lemma sort_keys_before {A} (l : list (string * A)) i j x y :
  sort_keys l !! i = Some x → sort_keys l !! j = Some y →
  String.compare x.1 y.1 = Lt → i < j.
Proof.
  intros Hi Hj Hlt. destruct (Nat.lt_trichotomy i j) as [?|[->|Hji]]; [done| |].
  - rewrite Hj in Hi. simplify_eq. by rewrite string_compare_refl in Hlt.
  - pose proof (StronglySorted_lookup _ _ _ _ _ _ (sort_keys_StronglySorted l) Hj Hi Hji) as Hle.
    unfold key_le, String.le, String.leb in Hle. rewrite String.compare_antisym, Hlt in Hle.
    done.
Qed.

Create HintDb s2p.
#[export] Hint Resolve str_split_not_nil str_split_no_char : s2p.
#[export] Hint Resolve preserves_ret preserves_throw preserves_get preserves_bind
  preserves_forEachM preserves_reduceiM : s2p.
#[export] Hint Resolve never_throws_ret never_throws_get never_throws_modify
  never_throws_bind never_throws_reduceiM : s2p.
