(* ===== verification/Names.v ===== *)
(** * Route-name inference (index.ts: [createRouteNameFromRouteClass],
    [createRouteNameFromPath])

    A route handler is a JavaScript value: either a route class (what the
    code passes around: [getRoute] returns [ROUTE_REGISTRY[name].route] or
    the class [DefaultRoute], and [Route.setup] compares the handler with
    the class [this]) or an object whose constructor is a route class.
    [createRouteNameFromRouteClass] reads [routeClass.constructor.name],
    which for a class value is ["Function"]. *)

From Stdlib Require Import Ascii String.
From stdpp Require Import base list strings.
From S2P Require Import Prelude.
Open Scope stdpp_scope.
Open Scope js_scope.

Module Names.

(** A handler value, with the identity of the JavaScript object ([ref]). *)
Inductive Handler :=
| RouteClass (ref : nat) (name : string)
| RouteInstance (ref : nat) (cls : string).

#[export] Instance Handler_eq_dec : EqDecision Handler.
Proof. solve_decision. Defined.

(** [value.constructor.name]: a class is constructed by [Function]. *)
Definition constructor_name (h : Handler) : string :=
  match h with
  | RouteClass _ _ => "Function"
  | RouteInstance _ cls => cls
  end.

(** [String.prototype.toLowerCase] / [toUpperCase] on one ASCII character. *)
Definition to_lower (c : ascii) : ascii :=
  let n := nat_of_ascii c in
  if (65 <=? n)%nat && (n <=? 90)%nat then ascii_of_nat (n + 32) else c.
Definition to_upper (c : ascii) : ascii :=
  let n := nat_of_ascii c in
  if (97 <=? n)%nat && (n <=? 122)%nat then ascii_of_nat (n - 32) else c.

(** The [reduce] callback of [createRouteNameFromRouteClass]: the first
    character is lowered; later characters equal to their upper case
    (capitals, but also digits and punctuation) open a new dotted
    segment. *)
Definition camel_step (result : string) (character : ascii) (index : nat) : string :=
  if decide (index = 0) then String (to_lower character) ""
  else if decide (to_upper character = character)
       then result +:+ "." +:+ String (to_lower character) ""
       else result +:+ String character "".

Definition createRouteNameFromRouteClass (routeClass : option Handler) : option string :=
  match routeClass with
  | Some h =>
      Some (reducei camel_step "" (list_ascii_of_string (strip_suffix "Route" (constructor_name h))))
  | None => None
  end.

Definition createRouteNameFromPath (routePath : string) : string :=
  let targetPath := if starts_with "/" routePath then slice1 routePath else routePath in
  remove_all ":" (replace_all "/" "." targetPath).

End Names.

(** ** Theorems *)

Module NamesFacts.
Import Names.

(** C17: [createRouteNameFromPath] maps each [/]-segment of the path (leading
    slash dropped) to one [.]-segment of the name, with the [:] markers of
    dynamic segments removed, when the path has no [.] of its own. *)
Theorem createRouteNameFromPath_segments p :
  has_char "." p = false →
  str_split "." (createRouteNameFromPath p) =
  remove_all ":" <$> str_split "/" (if starts_with "/" p then slice1 p else p).
Proof.
  intros Hp. unfold createRouteNameFromPath.
  rewrite str_split_remove_all by done. f_equal. apply str_split_replace_all.
  destruct p as [|a p]; [done|]. cbn [starts_with slice1].
  pose proof Hp as [_ Hp']%orb_false_iff. by case_bool_decide.
Qed.

(** The inferred name never contains a [/] or a [:]. *)
Theorem createRouteNameFromPath_no_separators p :
  has_char "/" (createRouteNameFromPath p) = false ∧
  has_char ":" (createRouteNameFromPath p) = false.
Proof.
  unfold createRouteNameFromPath. split.
  - apply has_char_remove_all_other, has_char_replace_all_same. done.
  - apply has_char_remove_all_same.
Qed.

(** The spec's example: [/users/:id/edit] gives [users.id.edit]. *)
Example createRouteNameFromPath_users_edit :
  createRouteNameFromPath "/users/:id/edit" = "users.id.edit".
Proof. reflexivity. Qed.

(** What [camel_step] appends for a character after the first: a
    character equal to its upper case opens a segment. *)
Definition camel_chars (c : ascii) : list ascii :=
  if decide (to_upper c = c) then ["."%char; to_lower c] else [c].

Lemma string_of_list_ascii_app l1 l2 :
  string_of_list_ascii (l1 ++ l2) = string_of_list_ascii l1 +:+ string_of_list_ascii l2.
Proof. induction l1 as [|a l1 IH]; simpl; [done|]. by rewrite IH. Qed.

Lemma reducei_go_camel l i acc :
  i ≠ 0 →
  reducei_go camel_step l i (string_of_list_ascii acc) =
  string_of_list_ascii (acc ++ mjoin (camel_chars <$> l)).
Proof.
  revert i acc. induction l as [|c l IH]; intros i acc Hi; simpl; [by rewrite app_nil_r|].
  unfold camel_step, camel_chars. rewrite decide_False by done.
  case_decide; [replace (string_of_list_ascii acc +:+ "." +:+ String (to_lower c) "")
                  with (string_of_list_ascii (acc ++ ["."%char; to_lower c]))
                |replace (string_of_list_ascii acc +:+ String c "") with (string_of_list_ascii (acc ++ [c]))];
    try (by rewrite string_of_list_ascii_app); rewrite IH by done; by rewrite <-app_assoc.
Qed.

Lemma camel_chars_lower cs : Forall (λ x, to_upper x ≠ x) cs → mjoin (camel_chars <$> cs) = cs.
Proof.
  induction cs as [|c cs IH]; intros Hf; [done|]. apply Forall_cons in Hf as [Hc Hf].
  change (mjoin (camel_chars <$> c :: cs)) with (camel_chars c ++ mjoin (camel_chars <$> cs)).
  unfold camel_chars at 1. rewrite decide_False by done. by rewrite IH.
Qed.

Lemma camel_chars_words ws :
  Forall (λ w, to_upper w.1 = w.1 ∧ Forall (λ x, to_upper x ≠ x) w.2) ws →
  mjoin (camel_chars <$> mjoin ((λ w, w.1 :: w.2) <$> ws)) =
  mjoin ((λ w, "."%char :: to_lower w.1 :: w.2) <$> ws).
Proof.
  assert (Hj : ∀ A (x : list A) l, mjoin (x :: l) = x ++ mjoin l) by done.
  induction ws as [|[c cs] ws IH]; intros Hf; [done|]. apply Forall_cons in Hf as [[Hc Hcs] Hf].
  cbn [fst snd] in Hc, Hcs. rewrite !fmap_cons, !Hj, fmap_app, join_app. cbn [fst snd].
  rewrite fmap_cons, Hj, (camel_chars_lower cs Hcs), (IH Hf).
  unfold camel_chars. by rewrite decide_True.
Qed.


Lemma strip_suffix_Route s : strip_suffix "Route" (s +:+ "Route") = s.
Proof.
  assert (Hl : ∀ t u, String.length (t +:+ u) = String.length t + String.length u)
    by (induction t; simpl; auto).
  assert (Hpre : ∀ t u, String.substring 0 (String.length t) (t +:+ u) = t).
  { induction t as [|a t IH]; intros u; simpl; [by destruct u|by rewrite IH]. }
  assert (Hsub : ∀ t u, String.substring (String.length t) (String.length u) (t +:+ u) = u).
  { induction t as [|a t IH]; intros u; simpl; [|apply IH].
    assert (Hnil : ∀ v, v +:+ "" = v) by (induction v as [|b v IHv]; [done|exact (f_equal (String b) IHv)]).
    pose proof (Hpre u "") as Hu. by rewrite Hnil in Hu. }
  unfold strip_suffix, ends_with. rewrite Hl.
  replace (String.length s + String.length "Route" - String.length "Route") with (String.length s) by lia.
  rewrite Hsub, (bool_decide_true (_ ≤ _)), (bool_decide_true ("Route" = "Route")) by (done || lia).
  apply Hpre.
Qed.

(** C16: For a handler object whose class name is [Route] preceded by
    words, each a character followed by characters that are not their own
    upper case (lower-case letters), every word after the first starting
    with a character equal to its upper case (a capital or a digit), the
    inferred name is the words lowered at their first character and
    joined with dots: [UserEditRoute] gives [user.edit]. *)
Theorem createRouteNameFromRouteClass_camel r c0 cs0 ws :
  Forall (λ x, to_upper x ≠ x) cs0 →
  Forall (λ w, to_upper w.1 = w.1 ∧ Forall (λ x, to_upper x ≠ x) w.2) ws →
  createRouteNameFromRouteClass
    (Some (RouteInstance r (string_of_list_ascii (c0 :: cs0 ++ mjoin ((λ w, w.1 :: w.2) <$> ws)) +:+ "Route"))) =
  Some (string_of_list_ascii (to_lower c0 :: cs0 ++ mjoin ((λ w, "."%char :: to_lower w.1 :: w.2) <$> ws))).
Proof.
  intros Hcs Hws. unfold createRouteNameFromRouteClass, constructor_name.
  rewrite strip_suffix_Route, list_ascii_of_string_of_list_ascii. f_equal.
  unfold reducei. cbn [reducei_go]. unfold camel_step at 2. rewrite decide_True by done.
  change (String (to_lower c0) "") with (string_of_list_ascii [to_lower c0]).
  rewrite reducei_go_camel by done. f_equal. simpl. f_equal.
  by rewrite fmap_app, join_app, camel_chars_lower, camel_chars_words.
Qed.

(** Without a handler nothing is inferred. *)
Theorem createRouteNameFromRouteClass_none : createRouteNameFromRouteClass None = None.
Proof. reflexivity. Qed.

Lemma createRouteNameFromPath_segments_witness :
  has_char "." "/users/:id/edit" = false ∧
  str_split "." (createRouteNameFromPath "/users/:id/edit") =
  remove_all ":" <$> str_split "/" (if starts_with "/" "/users/:id/edit" then slice1 "/users/:id/edit" else "/users/:id/edit").
Proof. split; [reflexivity|]. apply createRouteNameFromPath_segments. reflexivity. Defined.

Lemma createRouteNameFromRouteClass_camel_witness :
  (Forall (λ x, to_upper x ≠ x) ["s"; "e"; "r"]%char ∧
   Forall (λ w : ascii * list ascii, to_upper w.1 = w.1 ∧ Forall (λ x, to_upper x ≠ x) w.2)
     [("E", ["d"; "i"; "t"])]%char) ∧
  createRouteNameFromRouteClass (Some (RouteInstance 0 "UserEditRoute")) = Some "user.edit".
Proof.
  assert (H1 : Forall (λ x, to_upper x ≠ x) ["s"; "e"; "r"]%char) by (repeat constructor; discriminate).
  assert (H2 : Forall (λ w : ascii * list ascii, to_upper w.1 = w.1 ∧ Forall (λ x, to_upper x ≠ x) w.2)
                 [("E", ["d"; "i"; "t"])]%char) by (repeat constructor; discriminate).
  split; [by split|].
  exact (createRouteNameFromRouteClass_camel 0 "U"%char ["s"; "e"; "r"]%char [("E", ["d"; "i"; "t"])]%char H1 H2).
Defined.

End NamesFacts.
