(* ===== verification/Registry.v ===== *)
(** * The route registry (index.ts: [EmberXRouter.ROUTE_REGISTRY],
    [definitionsToRegistry], [checkInRouteRegistryOrCreateRoute])

    The registry is a process-wide JavaScript object keyed by dotted route
    names; it lives, with the console output, in the static state [Static]
    of [EmberXRouter].  [checkInRouteRegistryOrCreateRoute] receives that
    very object and mutates it in place, so it is modelled as an operation
    on the static state.  [definitionsToRegistry] runs a [forEach] over the
    definitions (whose callback may throw) and, inside it, a [reduce] over
    the name segments. *)

From Stdlib Require Import Ascii String.
From stdpp Require Import base list gmap strings.
From S2P Require Import Prelude Names.
Open Scope stdpp_scope.
Open Scope js_scope.

Module Registry.
Import Names.

(** [interface RouteDefinition]: [path] and [routeName] may be absent;
    [options] is never read by the registry code and is left out. *)
Record RouteDefinition := {
  def_path : option string;
  def_route : option Handler;
  def_routeName : option string;
  def_indexRoute : option Handler;
}.

(** A registry entry [{ routeName, options: { path }, route }]: the code
    only ever builds [options] as [{ path: ... }]. *)
Record Entry := mkEntry {
  routeName : string;
  path : string;
  route : option Handler;
}.

#[export] Instance Entry_eq_dec : EqDecision Entry.
Proof. solve_decision. Defined.

(** The static fields of [EmberXRouter] the registry code touches, and the
    console. *)
Record Static := mkStatic {
  ROUTE_REGISTRY : gmap string Entry;
  console : list string;
}.

Definition set_entry (k : string) (e : Entry) : M Static unit :=
  modify (fun st => mkStatic (<[k := e]> (ROUTE_REGISTRY st)) (console st)).

Definition console_log (msg : string) : M Static unit :=
  modify (fun st => mkStatic (ROUTE_REGISTRY st) (console st ++ [msg])).

Definition with_route (e : Entry) (r : option Handler) : Entry :=
  mkEntry (routeName e) (path e) r.

(** The index placeholder [{ routeName: `${name}.index`, options: { path:
    '/' }, route }]. *)
Definition index_entry (name : string) (r : option Handler) : Entry :=
  mkEntry (name +:+ ".index") "/" r.

Definition warning_message (name found target : string) : string :=
  "[WARNING]: " +:+ name +:+ ".route already has " +:+ found +:+
  ". You tried to overwrite " +:+ name +:+ ".route with " +:+ target.

(** [checkInRouteRegistryOrCreateRoute(registry, targetRoute)]. *)
Definition checkInRouteRegistryOrCreateRoute (targetRoute : Entry) : M Static Entry :=
  let* st := get in
  let name := routeName targetRoute in
  match ROUTE_REGISTRY st !! name with
  | None =>
      let* _ := set_entry name targetRoute in
      ret targetRoute
  | Some foundRoute =>
      match route targetRoute with
      | None => ret foundRoute
      | Some h =>
          let* _ :=
            if bool_decide (is_Some (route foundRoute)) &&
               bool_decide (routeName foundRoute ≠ routeName targetRoute)
            then console_log (warning_message name (routeName foundRoute) (routeName targetRoute))
            else ret tt in
          let merged := with_route foundRoute (Some h) in
          let* _ := set_entry name merged in
          ret merged
      end
  end.

(** The message of the [throw new Error(...)] for a definition without a
    path (the message quotes the word path). *)
Definition dq : string := String "034"%char "".
Definition missing_path_message : string :=
  "One of the error definitions on Router.start(definitions[]) misses " +:+
  dq +:+ "path" +:+ dq +:+ " key".

(** [routeElement.routeName || createRouteNameFromRouteClass(..) ||
    createRouteNameFromPath(..)]: the first truthy string, else the last. *)
Definition js_or (a : option string) (b : string) : string :=
  match a with Some s => if truthy s then s else b | None => b end.

Definition resolveRouteName (d : RouteDefinition) (p : string) : string :=
  js_or (def_routeName d) (js_or (createRouteNameFromRouteClass (def_route d)) (createRouteNameFromPath p)).

Definition normalizePath (p : string) : string :=
  if starts_with "/" p then slice1 p else p.

(** [index >= routePathSegments.length ? routePathSegments.length - 1 : index]. *)
Definition targetIndex (nPath index : nat) : nat :=
  if decide (nPath ≤ index) then nPath - 1 else index.

(** The [reduce] callback over the name segments.  The accumulator starts
    as [null]; it is modelled as [""], which JavaScript treats the same way
    here (both are falsy, and the accumulator is only tested for
    truthiness and interpolated when truthy). *)
Definition targetSegmentName (currentSegment routeSegment : string) : string :=
  if truthy currentSegment then currentSegment +:+ "." +:+ routeSegment else routeSegment.

(** The entry the step checks in: [{ routeName, options: { path:
    `/${routePathSegments[targetIndex]}` }, route }], with the handler
    only on the last name segment. *)
Definition segmentEntry (r : option Handler) (routeNameSegments routePathSegments : list string)
    (name : string) (index : nat) : Entry :=
  mkEntry name ("/" +:+ default "" (routePathSegments !! targetIndex (length routePathSegments) index))
    (if decide (index = length routeNameSegments - 1) then r else None).

Definition segmentStep (r : option Handler) (routeNameSegments routePathSegments : list string)
    (currentSegment routeSegment : string) (index : nat) : M Static string :=
  let name := targetSegmentName currentSegment routeSegment in
  let* _ := checkInRouteRegistryOrCreateRoute
              (segmentEntry r routeNameSegments routePathSegments name index) in
  let* st := get in
  let* _ :=
    if truthy currentSegment && bool_decide (ROUTE_REGISTRY st !! (currentSegment +:+ ".index") = None)
    then set_entry (currentSegment +:+ ".index") (index_entry currentSegment None)
    else ret tt in
  ret name.

(** The [forEach] callback of [definitionsToRegistry], for one definition. *)
Definition registerDefinition (routeElement : RouteDefinition) : M Static unit :=
  match def_path routeElement with
  | Some p =>
      if truthy p then
        let name := resolveRouteName routeElement p in
        let routeNameSegments := str_split "." name in
        let routePathSegments := str_split "/" (normalizePath p) in
        let* _ := reduceiM (segmentStep (def_route routeElement) routeNameSegments routePathSegments)
                    "" routeNameSegments in
        match def_indexRoute routeElement with
        | Some ir =>
            if bool_decide (name ≠ "index") then set_entry (name +:+ ".index") (index_entry name (Some ir))
            else ret tt
        | None => ret tt
        end
      else throw (JsError missing_path_message)
  | None => throw (JsError missing_path_message)
  end.

Definition definitionsToRegistry (arrayOfRouteDefinitions : list RouteDefinition)
  : M Static (gmap string Entry) :=
  let* _ := forEachM registerDefinition arrayOfRouteDefinitions in
  let* st := get in
  ret (ROUTE_REGISTRY st).

End Registry.

(** ** Invariants of the registry *)

Module RegistryFacts.
Import Names Registry.

(** Every entry is stored under its own [routeName]. *)
Definition keys_match (reg : gmap string Entry) : Prop :=
  map_Forall (λ k e, routeName e = k) reg.

(** The state invariant: keys match, and the console holds [log]. *)
Definition static_inv (log : list string) (st : Static) : Prop :=
  keys_match (ROUTE_REGISTRY st) ∧ console st = log.

Lemma keys_match_insert reg k e :
  keys_match reg → routeName e = k → keys_match (<[k := e]> reg).
Proof. intros H He. by apply map_Forall_insert_2. Qed.

Lemma keys_match_lookup reg k e : keys_match reg → reg !! k = Some e → routeName e = k.
Proof. intros H Hk. exact (H k e Hk). Qed.

Lemma set_entry_inv log k e :
  routeName e = k → hoare (static_inv log) (set_entry k e) (λ _, static_inv log).
Proof. intros He st [Hk Hc]. split; [by apply keys_match_insert|done]. Qed.

#[local] Hint Resolve keys_match_insert keys_match_lookup : s2p.

(** [checkInRouteRegistryOrCreateRoute] keeps the entries under their
    names and, when they are, never writes to the console: the conflict
    warning compares [foundRoute.routeName] with [targetRoute.routeName],
    which are the same key. *)
Lemma checkIn_inv log t :
  preserves (static_inv log) (checkInRouteRegistryOrCreateRoute t).
Proof.
  intros st [Hk Hc]. unfold checkInRouteRegistryOrCreateRoute, set_entry, console_log; unfold_M.
  destruct (ROUTE_REGISTRY st !! routeName t) as [f|] eqn:Hf; simpl.
  - destruct (route t) as [h|]; simpl; [|by split].
    assert (routeName f = routeName t) as Hft by eauto with s2p.
    rewrite (bool_decide_false (routeName f ≠ routeName t)), andb_false_r by tauto.
    split; [|done]. apply keys_match_insert; [done|]. apply Hft.
  - split; [by apply keys_match_insert|done].
Qed.


Lemma set_entry_preserves log k e :
  routeName e = k → preserves (static_inv log) (set_entry k e).
Proof. apply set_entry_inv. Qed.

Lemma index_entry_name name r : routeName (index_entry name r) = name +:+ ".index".
Proof. done. Qed.

#[local] Hint Resolve checkIn_inv set_entry_preserves index_entry_name : s2p.

Lemma segmentStep_inv log r ns ps cur seg i :
  preserves (static_inv log) (segmentStep r ns ps cur seg i).
Proof. unfold segmentStep. preserves_auto. Qed.

Lemma registerDefinition_inv log d : preserves (static_inv log) (registerDefinition d).
Proof.
  unfold registerDefinition. preserves_auto. apply preserves_reduceiM, segmentStep_inv.
Qed.

Lemma definitionsToRegistry_inv log defs :
  preserves (static_inv log) (definitionsToRegistry defs).
Proof. unfold definitionsToRegistry. preserves_auto. apply preserves_forEachM; auto using registerDefinition_inv. Qed.

(** *** Exceptions *)

(** The guard [if (!routeElement.path)]: an absent or empty path. *)
Definition has_path (d : RouteDefinition) : bool :=
  match def_path d with Some p => truthy p | None => false end.

Lemma checkIn_never_throws t : never_throws (checkInRouteRegistryOrCreateRoute t).
Proof. unfold checkInRouteRegistryOrCreateRoute, set_entry, console_log. never_throws_auto. Qed.

#[local] Hint Resolve checkIn_never_throws : s2p.

Lemma segmentStep_never_throws r ns ps cur seg i : never_throws (segmentStep r ns ps cur seg i).
Proof. unfold segmentStep, set_entry. never_throws_auto. Qed.

#[local] Hint Resolve segmentStep_never_throws : s2p.

Lemma registerDefinition_never_throws d : has_path d = true → never_throws (registerDefinition d).
Proof.
  unfold has_path, registerDefinition. intros Hd. destruct (def_path d) as [p|]; [|done].
  rewrite Hd. unfold set_entry. never_throws_auto.
Qed.

Lemma registerDefinition_throws d s :
  has_path d = false → (registerDefinition d s).1 = Throw (JsError missing_path_message).
Proof.
  unfold has_path, registerDefinition. intros Hd. destruct (def_path d) as [p|]; [|done].
  by rewrite Hd.
Qed.

(** The outcome of the build: the registry, or the missing-path error. *)
Lemma definitionsToRegistry_result defs st :
  (definitionsToRegistry defs st).1 =
  if forallb has_path defs then Ok (ROUTE_REGISTRY (definitionsToRegistry defs st).2)
  else Throw (JsError missing_path_message).
Proof.
  pose proof (forEachM_outcome has_path (JsError missing_path_message) registerDefinition defs st)
    as H.
  specialize (H registerDefinition_never_throws registerDefinition_throws).
  unfold definitionsToRegistry, bind, get, ret.
  destruct (forEachM registerDefinition defs st) as [o s']; simpl in *; subst.
  by destruct (forallb has_path defs).
Qed.

(** C6: [definitionsToRegistry] throws [Error] with the missing-path message
    exactly when some definition has no (or an empty) [path]; otherwise it
    returns the registry it has built. *)
Theorem definitionsToRegistry_outcome defs st :
  ((definitionsToRegistry defs st).1 = Throw (JsError missing_path_message) ↔
   ∃ d, d ∈ defs ∧ has_path d = false) ∧
  ((∀ d, d ∈ defs → has_path d = true) →
   (definitionsToRegistry defs st).1 = Ok (ROUTE_REGISTRY (definitionsToRegistry defs st).2)).
Proof.
  rewrite definitionsToRegistry_result, <-forallb_false_exists. split.
  - destruct (forallb has_path defs); split; congruence.
  - intros Hall. apply forallb_elem_of in Hall. by rewrite Hall.
Qed.


(** *** Concrete runs *)

Definition empty_static : Static := mkStatic ∅ [].

(** Two definitions claim the route [users] with different handlers. *)
Definition conflicting_definitions : list RouteDefinition := [
  {| def_path := Some "/users"; def_routeName := Some "users";
     def_route := Some (RouteClass 1 "UsersRoute"); def_indexRoute := None |};
  {| def_path := Some "/users"; def_routeName := Some "users";
     def_route := Some (RouteClass 2 "PeopleRoute"); def_indexRoute := None |}].


(** *** What each operation does to the registry *)

(** The value stored by [checkInRouteRegistryOrCreateRoute t]: [t] when
    the name is new; otherwise the existing entry, whose path survives,
    with the incoming handler when [t] has one. *)
Definition checked_entry (t : Entry) (found : option Entry) : Entry :=
  match found with
  | None => t
  | Some f => match route t with None => f | Some h => with_route f (Some h) end
  end.

Lemma checkIn_run t st :
  (checkInRouteRegistryOrCreateRoute t st).1 = Ok (checked_entry t (ROUTE_REGISTRY st !! routeName t)) ∧
  ROUTE_REGISTRY (checkInRouteRegistryOrCreateRoute t st).2 =
    <[routeName t := checked_entry t (ROUTE_REGISTRY st !! routeName t)]> (ROUTE_REGISTRY st).
Proof.
  unfold checkInRouteRegistryOrCreateRoute, set_entry, console_log. unfold_M.
  destruct (ROUTE_REGISTRY st !! routeName t) as [f|] eqn:Hf; simpl; [|done].
  destruct (route t) as [h|]; simpl; [|by rewrite insert_id].
  by destruct (_ && _).
Qed.

(** The index placeholder written after a step, when the accumulated name
    is truthy and has no index entry yet. *)
Definition place_index (cur : string) (reg : gmap string Entry) : gmap string Entry :=
  if truthy cur && bool_decide (reg !! (cur +:+ ".index") = None)
  then <[cur +:+ ".index" := index_entry cur None]> reg else reg.

Lemma segmentStep_run r ns ps cur seg i st :
  let e := segmentEntry r ns ps (targetSegmentName cur seg) i in
  (segmentStep r ns ps cur seg i st).1 = Ok (targetSegmentName cur seg) ∧
  ROUTE_REGISTRY (segmentStep r ns ps cur seg i st).2 =
    place_index cur (<[routeName e := checked_entry e (ROUTE_REGISTRY st !! routeName e)]> (ROUTE_REGISTRY st)).
Proof.
  intros e. unfold segmentStep, set_entry, place_index. fold e.
  pose proof (checkIn_run e st) as [Ho Hr]. unfold bind at 1.
  destruct (checkInRouteRegistryOrCreateRoute e st) as [o st'] eqn:E; simpl in *; subst.
  unfold_M. rewrite E. simpl. rewrite <-Hr. by destruct (_ && _).
Qed.

(** *** Prefix closure *)

(** The dotted parent of [k] is registered, when [k] has one. *)
Definition parent_present (reg : gmap string Entry) (k : string) : Prop :=
  parent_segments k ≠ [] → is_Some (reg !! str_join "." (parent_segments k)).

(** Every registered name's dotted parent is registered. *)
Definition prefix_closed (reg : gmap string Entry) : Prop :=
  ∀ k, is_Some (reg !! k) → parent_present reg k.

#[export] Instance keys_match_dec reg : Decision (keys_match reg).
Proof. unfold keys_match. apply _. Defined.

#[export] Instance parent_present_dec reg k : Decision (parent_present reg k).
Proof. unfold parent_present. apply _. Defined.

Lemma prefix_closed_map_Forall reg : prefix_closed reg ↔ map_Forall (λ k _, parent_present reg k) reg.
Proof. split; intros H k; [intros e Hk; apply H; by eexists|intros [e Hk]; by apply (H k e)]. Qed.

#[export] Instance prefix_closed_dec reg : Decision (prefix_closed reg).
Proof. refine (cast_if (decide (map_Forall (λ k _, parent_present reg k) reg))); by rewrite prefix_closed_map_Forall. Defined.

Lemma prefix_closed_insert reg k e :
  prefix_closed reg → parent_present reg k → prefix_closed (<[k := e]> reg).
Proof.
  intros H Hk k' Hk' Hne. apply lookup_insert_is_Some'. right.
  apply lookup_insert_is_Some' in Hk' as [<-|Hk']; [by apply Hk|by apply H].
Qed.

Lemma place_index_grows cur reg k : is_Some (reg !! k) → is_Some (place_index cur reg !! k).
Proof. intros H. unfold place_index. case_match; [|done]. apply lookup_insert_is_Some'. by right. Qed.

Lemma parent_index cur : str_join "." (parent_segments (cur +:+ ".index")) = cur.
Proof. apply (parent_segments_child cur "index"). done. Qed.

Lemma parent_index_ne cur : parent_segments (cur +:+ ".index") ≠ [].
Proof. apply (parent_segments_child_ne cur "index"). done. Qed.

Lemma place_index_prefix_closed cur reg :
  prefix_closed reg → (truthy cur = true → is_Some (reg !! cur)) →
  prefix_closed (place_index cur reg).
Proof.
  intros H Hcur. unfold place_index. destruct (truthy cur) eqn:Ht; simpl; [|done].
  case_bool_decide; [|done]. apply prefix_closed_insert; [done|].
  intros _. rewrite parent_index. by apply Hcur.
Qed.

(** The accumulator of the [reduce] over name segments, as a pure fold. *)
Definition accumulated (segs : list string) : string := fold_left targetSegmentName segs "".

Lemma accumulated_snoc l x : accumulated (l ++ [x]) = targetSegmentName (accumulated l) x.
Proof. unfold accumulated. by rewrite fold_left_app. Qed.

Lemma fold_targetSegmentName_truthy l acc :
  truthy acc = true → fold_left targetSegmentName l acc = str_join "." (acc :: l).
Proof.
  revert acc. induction l as [|x l IH]; intros acc Hacc; [done|]. simpl.
  unfold targetSegmentName at 2. rewrite Hacc, IH by (by apply truthy_app_l).
  destruct l as [|y l]; [done|]. rewrite !str_join_cons_cons. by rewrite <-!string_app_assoc.
Qed.

(** For a name that does not start with a dot, the accumulator ends on the
    name itself. *)
Lemma accumulated_split name :
  starts_with "." name = false → accumulated (str_split "." name) = name.
Proof.
  intros Hn. destruct name as [|a rest]; [done|]. simpl in Hn.
  unfold accumulated. cbn [str_split]. rewrite decide_False by (intros ->; by rewrite bool_decide_true in Hn).
  destruct (str_split "." rest) as [|r rs] eqn:E; [by destruct (str_split_not_nil "." rest)|].
  simpl. unfold targetSegmentName at 2. simpl.
  rewrite fold_targetSegmentName_truthy by done.
  rewrite <-(str_join_split "." (String a rest)). cbn [str_split].
  rewrite decide_False by (intros ->; by rewrite bool_decide_true in Hn). by rewrite E.
Qed.

(** The invariant of the [reduce] in [registerDefinition]. *)
Definition acc_inv (segs : list string) (j : nat) (acc : string) (st : Static) : Prop :=
  prefix_closed (ROUTE_REGISTRY st) ∧ acc = accumulated (take j segs) ∧
  (j = 0 ∨ is_Some (ROUTE_REGISTRY st !! acc)).

Lemma targetSegmentName_parent_present reg acc x j segs :
  acc = accumulated (take j segs) → (j = 0 ∨ is_Some (reg !! acc)) →
  has_char "." x = false → parent_present reg (targetSegmentName acc x).
Proof.
  intros Hacc Hj Hx Hne. unfold targetSegmentName in *. destruct (truthy acc) eqn:Ht.
  - rewrite parent_segments_child by done.
    destruct Hj as [->|]; [|done]. by rewrite Hacc in Ht.
  - by rewrite parent_segments_single in Hne.
Qed.

Lemma segmentStep_acc_inv r segs ps j x acc (Q : outcome string → Static → Prop) :
  (∀ y, y ∈ segs → has_char "." y = false) → segs !! j = Some x →
  hoare (acc_inv segs j acc) (segmentStep r segs ps acc x j) (post_bind (acc_inv segs (S j)) Q).
Proof.
  intros Hsegs Hx st (Hpc & Hacc & Hj).
  destruct (segmentStep_run r segs ps acc x j st) as [Ho Hr]. rewrite Ho. simpl.
  assert (has_char "." x = false) as Hxd by (apply Hsegs; by eapply list_elem_of_lookup_2).
  split_and!.
  - rewrite Hr. apply place_index_prefix_closed.
    + apply prefix_closed_insert; [done|]. by eapply targetSegmentName_parent_present.
    + intros Ht. apply lookup_insert_is_Some'. right. destruct Hj as [->|]; [|done].
      by rewrite Hacc in Ht.
  - rewrite Hacc, (take_S_r _ _ x) by done. by rewrite accumulated_snoc.
  - right. rewrite Hr. apply place_index_grows, lookup_insert_is_Some'. by left.
Qed.

Definition registry_prefix_closed (st : Static) : Prop := prefix_closed (ROUTE_REGISTRY st).

(** The hypothesis of the closure theorem: a definition with an explicit
    [indexRoute] has a name that does not start with a dot. *)
Definition index_name_ok (d : RouteDefinition) : Prop :=
  ∀ p, def_path d = Some p → is_Some (def_indexRoute d) → starts_with "." (resolveRouteName d p) = false.

Lemma reduce_segments_prefix_closed {B} r segs ps :
  (∀ y, y ∈ segs → has_char "." y = false) →
  hoare registry_prefix_closed (reduceiM (segmentStep r segs ps) "" segs)
    (post_bind (B:=B) (λ a st, registry_prefix_closed st ∧ a = accumulated segs ∧ (segs ≠ [] → is_Some (ROUTE_REGISTRY st !! a)))
       (λ _, registry_prefix_closed)).
Proof.
  intros Hsegs. apply (hoare_pre _ (acc_inv segs 0 "")).
  { intros st H. split_and!; [done..|by left]. }
  apply hoare_reduceiM.
  - intros j x b Hx. by apply segmentStep_acc_inv.
  - intros b st (Hpc & Hb & Hj). simpl. split_and!; [done|by rewrite Hb, take_ge|].
    intros Hne. destruct Hj as [Hl|]; [|done]. by destruct segs.
Qed.

Lemma registerDefinition_prefix_closed d :
  index_name_ok d → preserves registry_prefix_closed (registerDefinition d).
Proof.
  intros Hd. unfold registerDefinition.
  destruct (def_path d) as [p|] eqn:Hp; [|apply preserves_throw].
  destruct (truthy p); [|apply preserves_throw].
  eapply hoare_bind; [apply reduce_segments_prefix_closed; eauto with s2p|].
  intros a. destruct (def_indexRoute d) as [ir|] eqn:Hir; [|intros st [? _]; done].
  case_bool_decide; [|intros st [? _]; done].
  intros st (Hpc & Ha & Hpres). apply prefix_closed_insert; [done|].
  intros _. rewrite parent_index. rewrite <-(accumulated_split (resolveRouteName d p)).
  - rewrite <-Ha. apply Hpres, str_split_not_nil.
  - apply Hd; [done|]. by rewrite Hir.
Qed.

#[local] Hint Unfold index_name_ok : s2p.

Lemma definitionsToRegistry_preserves_closed defs :
  (∀ d, d ∈ defs → index_name_ok d) → preserves registry_prefix_closed (definitionsToRegistry defs).
Proof.
  intros Hdefs. unfold definitionsToRegistry.
  apply (preserves_bind registry_prefix_closed); [|intros u; preserves_auto].
  apply preserves_forEachM. intros d Hd. by apply registerDefinition_prefix_closed, Hdefs.
Qed.

(** C3: Registering route definitions keeps the registry prefix-closed
    (every registered name's dotted parent is registered, which the tree
    conversion relies on), provided each definition with an explicit
    [indexRoute] has a name that does not start with a dot. *)
Theorem definitionsToRegistry_prefix_closed defs st :
  prefix_closed (ROUTE_REGISTRY st) → (∀ d, d ∈ defs → index_name_ok d) →
  prefix_closed (ROUTE_REGISTRY (definitionsToRegistry defs st).2).
Proof. intros Hpc Hdefs. by apply (definitionsToRegistry_preserves_closed defs Hdefs). Qed.

(** *** The key set of the registry *)

(** The keys step [i] of the [reduce] adds: the accumulated name, and the
    index placeholder of the previous accumulator when it is truthy. *)
Definition step_keys (segs : list string) (i : nat) : gset string :=
  {[accumulated (take (S i) segs)]} ∪
  (if truthy (accumulated (take i segs)) then {[accumulated (take i segs) +:+ ".index"]} else ∅).

Definition name_keys (segs : list string) : gset string :=
  ⋃ (step_keys segs <$> seq 0 (length segs)).

(** The keys one definition (with a path) adds to the registry. *)
Definition def_keys (d : RouteDefinition) : gset string :=
  match def_path d with
  | Some p =>
      let name := resolveRouteName d p in
      name_keys (str_split "." name) ∪
      match def_indexRoute d with
      | Some _ => if bool_decide (name ≠ "index") then {[name +:+ ".index"]} else ∅
      | None => ∅
      end
  | None => ∅
  end.

Lemma dom_place_index cur reg :
  dom (place_index cur reg) =
  dom reg ∪ (if truthy cur then {[cur +:+ ".index"]} else ∅).
Proof.
  unfold place_index. destruct (truthy cur); simpl; [|set_solver].
  case_bool_decide as H; [rewrite dom_insert_L; set_solver|].
  apply not_eq_None_Some, elem_of_dom in H. set_solver.
Qed.

Lemma segmentStep_dom r ns ps cur seg i st :
  dom (ROUTE_REGISTRY (segmentStep r ns ps cur seg i st).2) =
  dom (ROUTE_REGISTRY st) ∪ {[targetSegmentName cur seg]} ∪
  (if truthy cur then {[cur +:+ ".index"]} else ∅).
Proof.
  destruct (segmentStep_run r ns ps cur seg i st) as [_ ->].
  rewrite dom_place_index, dom_insert_L. set_solver.
Qed.

Lemma name_keys_snoc segs j :
  ⋃ (step_keys segs <$> seq 0 (S j)) = ⋃ (step_keys segs <$> seq 0 j) ∪ step_keys segs j.
Proof. rewrite seq_S, fmap_app, union_list_app_L. simpl. set_solver. Qed.

(** The [reduce] over the name segments adds exactly [name_keys]. *)
Lemma reduce_segments_dom {B} r segs ps D :
  hoare (λ st, dom (ROUTE_REGISTRY st) = D) (reduceiM (segmentStep r segs ps) "" segs)
    (post_bind (B:=B) (λ a st, a = accumulated segs ∧ dom (ROUTE_REGISTRY st) = D ∪ name_keys segs)
       (λ _ _, False)).
Proof.
  set (I := λ j acc st, acc = accumulated (take j segs) ∧
                        dom (ROUTE_REGISTRY st) = D ∪ ⋃ (step_keys segs <$> seq 0 j)).
  apply (hoare_pre _ (I 0 "")).
  { intros st H. split; [done|]. rewrite H. simpl. set_solver. }
  apply (hoare_reduceiM I).
  - intros j x acc Hx st [Hacc Hd]. destruct (segmentStep_run r segs ps acc x j st) as [Ho _].
    rewrite Ho. simpl. split.
    + rewrite Hacc, (take_S_r _ _ x) by done. by rewrite accumulated_snoc.
    + rewrite segmentStep_dom, name_keys_snoc. unfold step_keys.
      rewrite (take_S_r _ _ x), accumulated_snoc, <-Hacc by done. set_solver.
  - intros acc st [Hacc Hd]. simpl. rewrite take_ge in Hacc by done. by split.
Qed.

(** Registering one definition with a path adds exactly its keys. *)
Lemma registerDefinition_dom d st :
  has_path d = true →
  (registerDefinition d st).1 = Ok tt ∧
  dom (ROUTE_REGISTRY (registerDefinition d st).2) = dom (ROUTE_REGISTRY st) ∪ def_keys d.
Proof.
  unfold has_path, registerDefinition, def_keys. intros Hd.
  destruct (def_path d) as [p|]; [|done]. rewrite Hd.
  set (name := resolveRouteName d p).
  pose proof (reduce_segments_dom (B:=unit) (def_route d) (str_split "." name)
                (str_split "/" (normalizePath p)) (dom (ROUTE_REGISTRY st)) st eq_refl) as H.
  unfold bind at 1.
  destruct (reduceiM _ "" _ st) as [[a|e] st'] eqn:E; simpl in H; [|done]. destruct H as [_ Hdom].
  destruct (def_indexRoute d) as [ir|]; [case_bool_decide|].
  all: unfold set_entry; unfold_M; rewrite E; simpl; rewrite ?dom_insert_L, Hdom; split; [done|set_solver].
Qed.

Lemma forEach_registerDefinition_dom defs st :
  forallb has_path defs = true →
  (forEachM registerDefinition defs st).1 = Ok tt ∧
  dom (ROUTE_REGISTRY (forEachM registerDefinition defs st).2) =
    dom (ROUTE_REGISTRY st) ∪ ⋃ (def_keys <$> defs).
Proof.
  revert st. induction defs as [|d defs IH]; intros st Hp; simpl in *.
  - split; [done|]. set_solver.
  - apply andb_true_iff in Hp as [Hd Hp]. unfold bind.
    destruct (registerDefinition_dom d st Hd) as [Ho Hdom].
    destruct (registerDefinition d st) as [o st'] eqn:E. simpl in Ho, Hdom. subst o.
    destruct (IH st' Hp) as [Ho' Hdom']. split; [done|]. rewrite Hdom', Hdom. set_solver.
Qed.

(** C10: The keys of the registry after the build: those it had, and the keys
    of every definition — the accumulated names, one index placeholder per
    truthy accumulated prefix with a further segment, and the explicit
    index keys. *)
Theorem definitionsToRegistry_keys defs st :
  forallb has_path defs = true →
  dom (ROUTE_REGISTRY (definitionsToRegistry defs st).2) =
    dom (ROUTE_REGISTRY st) ∪ ⋃ (def_keys <$> defs).
Proof.
  intros Hp. destruct (forEach_registerDefinition_dom defs st Hp) as [Ho Hdom].
  unfold definitionsToRegistry, bind at 1.
  destruct (forEachM registerDefinition defs st) as [o st'] eqn:E. simpl in Ho, Hdom. by subst o.
Qed.

(** The keys of a name in the spec's terms: every dotted prefix, and
    [<prefix>.index] for every proper prefix. *)
Definition prefix_keys (segs : list string) : gset string :=
  ⋃ ((λ i, {[str_join "." (take (S i) segs)]} ∪
           (if decide (i = 0) then ∅ else {[str_join "." (take i segs) +:+ ".index"]}))
       <$> seq 0 (length segs)).

Lemma accumulated_truthy_head s0 l :
  truthy s0 = true → accumulated (s0 :: l) = str_join "." (s0 :: l).
Proof.
  intros Hs. unfold accumulated. simpl. unfold targetSegmentName at 2. simpl.
  by apply fold_targetSegmentName_truthy.
Qed.

Lemma str_join_truthy_head s0 l : truthy s0 = true → truthy (str_join "." (s0 :: l)) = true.
Proof.
  intros Hs. destruct l as [|x l]; [done|]. rewrite str_join_cons_cons. by apply truthy_app_l.
Qed.


(** The spec's example definitions: [index], [users], [users.edit]. *)
Definition spec_definitions : list RouteDefinition := [
  {| def_path := Some "/"; def_routeName := Some "index";
     def_route := Some (RouteClass 3 "IndexRoute"); def_indexRoute := None |};
  {| def_path := Some "/users"; def_routeName := Some "users";
     def_route := Some (RouteClass 1 "UsersRoute"); def_indexRoute := None |};
  {| def_path := Some "/users/:id"; def_routeName := Some "users.edit";
     def_route := Some (RouteClass 2 "UsersEditRoute"); def_indexRoute := None |}].

Lemma definitionsToRegistry_prefix_closed_witness :
  (prefix_closed (ROUTE_REGISTRY empty_static) ∧ (∀ d, d ∈ spec_definitions → index_name_ok d)) ∧
  prefix_closed (ROUTE_REGISTRY (definitionsToRegistry spec_definitions empty_static).2).
Proof.
  assert (prefix_closed (ROUTE_REGISTRY empty_static) ∧ (∀ d, d ∈ spec_definitions → index_name_ok d))
    as [H1 H2].
  { split; [intros k [? Hk]; simpl in Hk; by rewrite lookup_empty in Hk|].
    intros d Hd p _ [? Hi]. repeat (apply elem_of_cons in Hd as [->|Hd]; [discriminate|]).
    by apply not_elem_of_nil in Hd. }
  split; [by split|]. apply (definitionsToRegistry_prefix_closed spec_definitions empty_static H1 H2).
Defined.

(** The spec's scenario: the keys are [index], [users], [users.index]
    (synthesized) and [users.edit]. *)
Example spec_scenario_keys :
  dom (ROUTE_REGISTRY (definitionsToRegistry spec_definitions empty_static).2) =
  {[ "index"; "users"; "users.index"; "users.edit" ]}.
Proof. apply (bool_decide_unpack _). vm_compute. reflexivity. Qed.

Lemma definitionsToRegistry_keys_witness :
  forallb has_path spec_definitions = true ∧
  dom (ROUTE_REGISTRY (definitionsToRegistry spec_definitions empty_static).2) =
    dom (ROUTE_REGISTRY empty_static) ∪ ⋃ (def_keys <$> spec_definitions).
Proof. split; [reflexivity|]. apply definitionsToRegistry_keys. reflexivity. Defined.


(** The definition of the spec's fallback example. *)
Definition fallback_definition : RouteDefinition :=
  {| def_path := Some "/a/b"; def_routeName := Some "x.y.z";
     def_route := Some (RouteClass 4 "XYZRoute"); def_indexRoute := None |}.

(** The spec's fallback example: path [/a/b] and name [x.y.z] give the
    path [/b] to both [x.y] and [x.y.z] (and [/a] to [x]). *)
Example path_fallback_reuses_last_segment :
  let reg := ROUTE_REGISTRY (definitionsToRegistry [fallback_definition] empty_static).2 in
  (path <$> reg !! "x") = Some "/a" ∧ (path <$> reg !! "x.y") = Some "/b" ∧
  (path <$> reg !! "x.y.z") = Some "/b" ∧ (path <$> reg !! "x.index") = Some "/" ∧
  (route <$> reg !! "x.y.z") = Some (Some (RouteClass 4 "XYZRoute")) ∧ (route <$> reg !! "x.y") = Some None.
Proof. vm_compute. split_and!; reflexivity. Qed.

(** A definition named [.a.b] carrying an [indexRoute]. *)
Definition leading_dot_definition : RouteDefinition :=
  {| def_path := Some "/p"; def_routeName := Some ".a.b";
     def_route := None; def_indexRoute := Some (RouteClass 3 "IndexRoute") |}.

(** A name with a leading dot: the accumulator drops the empty first
    segment and registers [a] and [a.b], but the explicit index key is
    built from the name itself, [.a.b.index], whose parent [.a.b] is never
    registered. *)
Example leading_dot_breaks_prefix_closure :
  let reg := ROUTE_REGISTRY (definitionsToRegistry [leading_dot_definition] empty_static).2 in
  is_Some (reg !! ".a.b.index") ∧ reg !! ".a.b" = None ∧ is_Some (reg !! "a.b").
Proof. vm_compute. split_and!; [by eexists|done|by eexists]. Qed.

End RegistryFacts.
