(* ===== verification/Tree.v ===== *)
(** * The router_js route tree (index.ts: [convertToRouterJSRouteArray],
    [findNestedRoute])

    [convertToRouterJSRouteArray] sorts the registry keys and folds them
    into an array of nodes [{ ...entry, nestedRoutes: [] }].  A key without
    a dot becomes a root; otherwise [findNestedRoute] walks the array built
    so far level by level, matching the cumulative names [a], [a.b], ...,
    and the new node is pushed into the [nestedRoutes] of the node it
    finds.  That node is a reference into the array being built, so the
    push mutates the array: it is modelled by the position of the node (a
    path of indices) and an update of the array along that path.  Each
    node object occurs once in the array, so no other alias exists. *)

From Stdlib Require Import Ascii String.
From stdpp Require Import base list gmap strings sorting.
From S2P Require Import Prelude Names Registry.
Open Scope stdpp_scope.
Open Scope js_scope.

Module Tree.
Import Names Registry.

(** [routerJSRouteDefinition]: the registry entry's fields and its
    [nestedRoutes]. *)
Inductive RouteNode :=
| RNode (entry : Entry) (nestedRoutes : list RouteNode).

Definition node_entry (n : RouteNode) : Entry := match n with RNode e _ => e end.
Definition nestedRoutes (n : RouteNode) : list RouteNode := match n with RNode _ ch => ch end.
Definition node_name (n : RouteNode) : string := routeName (node_entry n).

(** [{ ...routerRegistry[routeName], nestedRoutes: [] }]. *)
Definition leaf (e : Entry) : RouteNode := RNode e [].

(** The accumulator of the [reduce] in [findNestedRoute]: the initial
    [{}], a node found at a position of the array, or [undefined]. *)
Inductive FindAcc :=
| FStart
| FFound (pos : list nat) (n : RouteNode)
| FUndefined.

(** [Array.prototype.find] by [routeName], with the index of the match. *)
Definition find_by_name (target : list RouteNode) (name : string) : option (nat * RouteNode) :=
  list_find (λ n, node_name n = name) target.

(** The [reduce] callback of [findNestedRoute]: [result.nestedRoutes ||
    routerJSRouteArray] (a TypeError on [undefined]), the cumulative name,
    and the [find]. *)
Definition findStep (routerJSRouteArray : list RouteNode) (routeNameSegments : list string)
    (result : FindAcc) (routeNameSegment : string) (index : nat) : outcome FindAcc :=
  let? bt :=
    match result with
    | FStart => Ok ([], routerJSRouteArray)
    | FFound pos n => Ok (pos, nestedRoutes n)
    | FUndefined => Throw (undefined_read "nestedRoutes")
    end in
  let '(base, target) := bt in
  let targetRouteName :=
    if decide (index = 0) then routeNameSegment
    else str_join "." (take (S index) routeNameSegments) in
  match find_by_name target targetRouteName with
  | Some (i, n) => Ok (FFound (base ++ [i]) n)
  | None => Ok FUndefined
  end.

Definition findNestedRoute (routerJSRouteArray : list RouteNode) (routeNameSegments : list string)
  : outcome FindAcc :=
  reducei (λ acc seg index, let? r := acc in findStep routerJSRouteArray routeNameSegments r seg index)
    (Ok FStart) routeNameSegments.

(** [foundParentRoute.nestedRoutes.push(node)], through the position of
    the found node in the array. *)
Fixpoint push_at (ts : list RouteNode) (pos : list nat) (n : RouteNode) : list RouteNode :=
  match pos with
  | [] => ts
  | [i] => alter (λ m, RNode (node_entry m) (nestedRoutes m ++ [n])) i ts
  | i :: pos' => alter (λ m, RNode (node_entry m) (push_at (nestedRoutes m) pos' n)) i ts
  end.

(** The [reduce] callback of [convertToRouterJSRouteArray], for one key
    and its entry. *)
Definition convertStep (result : outcome (list RouteNode)) (kv : string * Entry)
  : outcome (list RouteNode) :=
  let? res := result in
  let routeSegments := parent_segments kv.1 in
  if decide (routeSegments = []) then Ok (res ++ [leaf kv.2])
  else
    let? found := findNestedRoute res routeSegments in
    match found with
    | FFound pos _ => Ok (push_at res pos (leaf kv.2))
    | FUndefined => Ok (res ++ [leaf kv.2])
    | FStart => Throw (undefined_read "push")
    end.

Definition convertToRouterJSRouteArray (routerRegistry : gmap string Entry) : outcome (list RouteNode) :=
  fold_left convertStep (sort_keys (map_to_list routerRegistry)) (Ok []).

End Tree.

(** ** Positions and the shape invariant *)

Module TreeFacts.
Import Names Registry RegistryFacts Tree.

(** The node at a position of the array (a path of indices). *)
Fixpoint lookup_pos (F : list RouteNode) (pos : list nat) : option RouteNode :=
  match pos with
  | [] => None
  | i :: pos' =>
      n ← F !! i;
      match pos' with [] => Some n | _ => lookup_pos (nestedRoutes n) pos' end
  end.

Definition entry_at (F : list RouteNode) (pos : list nat) : option Entry :=
  node_entry <$> lookup_pos F pos.

Lemma lookup_pos_cons F i q :
  lookup_pos F (i :: q) = n ← F !! i; match q with [] => Some n | _ => lookup_pos (nestedRoutes n) q end.
Proof. done. Qed.

Lemma lookup_pos_snoc F p j :
  p ≠ [] → lookup_pos F (p ++ [j]) = m ← lookup_pos F p; nestedRoutes m !! j.
Proof.
  revert F. induction p as [|i p IH]; intros F Hp; [done|]. destruct p as [|i' p].
  - simpl. destruct (F !! i); simpl; [|done]. by destruct (_ !! j).
  - cbn [app]. rewrite !lookup_pos_cons. destruct (F !! i) as [m|]; [|done].
    cbn -[lookup_pos]. exact (IH (nestedRoutes m) ltac:(done)).
Qed.

Lemma entry_at_cons F i q :
  entry_at F (i :: q) =
    match q with [] => node_entry <$> F !! i | _ => n ← F !! i; entry_at (nestedRoutes n) q end.
Proof. unfold entry_at. simpl. destruct (F !! i); simpl; [|by destruct q]. by destruct q. Qed.

(** Appending a leaf to an array adds exactly one position. *)
Lemma entry_at_snoc F x q :
  nestedRoutes x = [] →
  entry_at (F ++ [x]) q = if decide (q = [length F]) then Some (node_entry x) else entry_at F q.
Proof.
  intros Hx. destruct q as [|i q]; [done|]. rewrite !entry_at_cons.
  destruct (decide (i < length F)).
  - rewrite lookup_app_l by done. rewrite decide_False by (intros [= ->]; lia). done.
  - rewrite (lookup_app_r F) by lia. destruct (decide (i = length F)) as [->|].
    + rewrite Nat.sub_diag. simpl. rewrite lookup_ge_None_2 by lia.
      destruct q; simpl; [by rewrite decide_True|]. rewrite Hx. rewrite decide_False by done. by destruct q.
    + rewrite lookup_ge_None_2 by (simpl; lia). rewrite (lookup_ge_None_2 F i) by lia.
      rewrite decide_False by congruence. by destruct q.
Qed.

Lemma decide_cons_eq {A} (i : nat) (a b : list nat) (X Y : A) :
  (if decide (i :: a = i :: b) then X else Y) = (if decide (a = b) then X else Y).
Proof. destruct (decide (a = b)) as [->|]; [by rewrite decide_True|]. rewrite decide_False; congruence. Qed.

(** Pushing a leaf into the children of the node at [p] adds exactly the
    position after its last child. *)
Lemma entry_at_push F p n x q :
  lookup_pos F p = Some n → nestedRoutes x = [] →
  entry_at (push_at F p x) q =
    if decide (q = p ++ [length (nestedRoutes n)]) then Some (node_entry x) else entry_at F q.
Proof.
  revert F q. induction p as [|i p IH]; intros F q Hp Hx; [done|].
  rewrite lookup_pos_cons in Hp. destruct (F !! i) as [m|] eqn:Hi; [|done]. simpl in Hp.
  destruct q as [|i' q]; [by rewrite decide_False by (by destruct p)|].
  rewrite !entry_at_cons.
  assert (push_at F (i :: p) x =
          alter (λ m, RNode (node_entry m) (match p with [] => nestedRoutes m ++ [x]
                                             | _ => push_at (nestedRoutes m) p x end)) i F) as ->
    by (destruct p; reflexivity).
  destruct (decide (i' = i)) as [->|Hne].
  2: { rewrite list_lookup_alter_ne by done. rewrite decide_False; [done|]. simpl. congruence. }
  rewrite list_lookup_alter, Hi. simpl. rewrite decide_True by done. rewrite decide_cons_eq.
  destruct p as [|i2 p].
  - simplify_eq/=. destruct q as [|j q]; [by rewrite decide_False|].
    by rewrite entry_at_snoc.
  - destruct q as [|j q]; [by rewrite decide_False|]. simpl.
    exact (IH (nestedRoutes m) (j :: q) Hp Hx).
Qed.

(** The shape of the array after some sorted entries [P] are converted:
    exactly the entries of [P], each at one position, each root without a
    dotted parent and each child under the node of its dotted parent. *)
Record tree_inv (P : list (string * Entry)) (F : list RouteNode) : Prop := {
  ti_sound : ∀ q e, entry_at F q = Some e → (routeName e, e) ∈ P;
  ti_complete : ∀ k e, (k, e) ∈ P → ∃ q, entry_at F q = Some e;
  ti_unique : ∀ q1 q2 e1 e2, entry_at F q1 = Some e1 → entry_at F q2 = Some e2 →
    routeName e1 = routeName e2 → q1 = q2;
  ti_place : ∀ q j e, entry_at F (q ++ [j]) = Some e →
    (q = [] ∧ parent_segments (routeName e) = []) ∨
    (∃ e', entry_at F q = Some e' ∧ parent_segments (routeName e) ≠ [] ∧
           str_join "." (parent_segments (routeName e)) = routeName e')
}.

Lemma entry_at_nil F : entry_at F [] = None.
Proof. done. Qed.

Lemma entry_at_lookup_pos F q n : lookup_pos F q = Some n → entry_at F q = Some (node_entry n).
Proof. unfold entry_at. by intros ->. Qed.

Lemma lookup_pos_entry_at F q e : entry_at F q = Some e → ∃ n, lookup_pos F q = Some n ∧ node_entry n = e.
Proof. unfold entry_at. destruct (lookup_pos F q); naive_solver. Qed.

(** The children of the node at [base]; the roots for [[]]. *)
Definition children_at (F : list RouteNode) (base : list nat) : option (list RouteNode) :=
  match base with [] => Some F | _ => nestedRoutes <$> lookup_pos F base end.

Lemma lookup_pos_children F base j :
  lookup_pos F (base ++ [j]) = ch ← children_at F base; ch !! j.
Proof.
  destruct base as [|i base]; [simpl; by destruct (F !! j)|]. rewrite lookup_pos_snoc by done.
  cbn [children_at]. by destruct (lookup_pos F (i :: base)).
Qed.

(** [find] over the children of [base] succeeds on a name held by one of
    them. *)
Lemma find_by_name_child F base target j e :
  children_at F base = Some target → entry_at F (base ++ [j]) = Some e →
  ∃ j' n', find_by_name target (routeName e) = Some (j', n') ∧
           lookup_pos F (base ++ [j']) = Some n' ∧ node_name n' = routeName e.
Proof.
  intros Hch He. apply lookup_pos_entry_at in He as (nc & Hnc & <-).
  rewrite lookup_pos_children, Hch in Hnc. simpl in Hnc.
  destruct (find_by_name target (routeName (node_entry nc))) as [[j' n']|] eqn:Hf.
  - apply list_find_Some in Hf as (Hj' & Hname & _). exists j', n'.
    split_and!; [done| |done]. by rewrite lookup_pos_children, Hch.
  - apply list_find_None in Hf. rewrite Forall_forall in Hf.
    destruct (Hf nc); [by eapply list_elem_of_lookup_2|done].
Qed.

Lemma children_at_lookup F q n : lookup_pos F q = Some n → children_at F q = Some (nestedRoutes n).
Proof. destruct q; [done|]. intros H. unfold children_at. by rewrite H. Qed.

(** The cumulative name at step [i]: [segs.slice(0, i + 1).join('.')]. *)
Lemma target_name_cumulative segs i x :
  segs !! i = Some x →
  (if decide (i = 0) then x else str_join "." (take (S i) segs)) = str_join "." (take (S i) segs).
Proof. intros Hx. case_decide; [|done]. subst. destruct segs; simplify_eq/=. done. Qed.

Lemma parent_cumulative segs i :
  (∀ s, s ∈ segs → has_char "." s = false) → i < length segs →
  parent_segments (str_join "." (take (S i) segs)) = take i segs.
Proof.
  intros Hs Hi. unfold parent_segments. rewrite str_split_join.
  - destruct (lookup_lt_is_Some_2 segs i Hi) as [x Hx].
    rewrite (take_S_r _ _ x) by done. apply removelast_last.
  - intros s Hin. apply Hs. by eapply elem_of_prefix, prefix_take.
  - destruct segs; simpl in *; [lia|done].
Qed.

(** The invariant of the [reduce] in [findNestedRoute]: after [i] steps
    the node of the cumulative name of the first [i] segments is found. *)
Definition walk_inv (F : list RouteNode) (segs : list string) (i : nat) (acc : outcome FindAcc) : Prop :=
  (i = 0 ∧ acc = Ok FStart) ∨
  (0 < i ∧ ∃ q n, acc = Ok (FFound q n) ∧ lookup_pos F q = Some n ∧
                  node_name n = str_join "." (take i segs)).

Section Walk.
Context (P : list (string * Entry)) (F : list RouteNode) (segs : list string).
Hypothesis Hinv : tree_inv P F.
Hypothesis HP : ∀ k e, (k, e) ∈ P → routeName e = k.
Hypothesis Hdots : ∀ s, s ∈ segs → has_char "." s = false.
Hypothesis Hpre : ∀ i, i < length segs → ∃ e, (str_join "." (take (S i) segs), e) ∈ P.

Lemma walk_step i x b :
  segs !! i = Some x → walk_inv F segs i b →
  walk_inv F segs (S i) (let? r := b in findStep F segs r x i).
Proof.
  intros Hx Hb. pose proof (lookup_lt_Some _ _ _ Hx) as Hlt.
  destruct (Hpre i Hlt) as [e He]. pose proof (HP _ _ He) as Hname.
  destruct (ti_complete _ _ Hinv _ _ He) as [qc Hqc].
  destruct qc as [|j q0] using rev_ind; [by rewrite entry_at_nil in Hqc|].
  pose proof (ti_place _ _ Hinv _ _ _ Hqc) as Hplace.
  rewrite Hname, parent_cumulative in Hplace by done.
  destruct Hb as [[-> ->]|(Hi & q & n & -> & Hq & Hn)]; simpl; unfold findStep; cbn [obind];
    rewrite target_name_cumulative by done.
  - destruct Hplace as [[-> _]|(e' & _ & Hne & _)]; [|by rewrite take_0 in Hne].
    destruct (find_by_name_child F [] F j e) as (j' & n' & Hf & Hl & Hn'); [done..|].
    rewrite Hname in Hf. rewrite Hf. right. split; [lia|].
    exists [j'], n'. by rewrite Hn', Hname.
  - destruct Hplace as [[_ Hnil]|(e' & He' & _ & Hjoin)].
    { apply (f_equal length) in Hnil. rewrite length_take in Hnil. simpl in Hnil. lia. }
    assert (q0 = q) as ->.
    { apply (ti_unique _ _ Hinv q0 q e' (node_entry n)); [done|by apply entry_at_lookup_pos|].
      by rewrite <-Hjoin. }
    destruct (find_by_name_child F q (nestedRoutes n) j e) as (j' & n' & Hf & Hl & Hn');
      [by apply children_at_lookup|done|].
    rewrite Hname in Hf. rewrite Hf. right. split; [lia|].
    exists (q ++ [j']), n'. by rewrite Hn', Hname.
Qed.

(** [findNestedRoute] reaches the node of the full name when every
    cumulative prefix is in the array. *)
Lemma findNestedRoute_walk :
  segs ≠ [] →
  ∃ q n, findNestedRoute F segs = Ok (FFound q n) ∧ lookup_pos F q = Some n ∧
         node_name n = str_join "." segs.
Proof.
  intros Hne.
  assert (walk_inv F segs (length segs) (findNestedRoute F segs)) as [[Hl _]|(_ & q & n & Hr & Hq & Hn)].
  { unfold findNestedRoute. apply (reducei_ind (walk_inv F segs)); [by left|]. intros i x b Hx Hb. by apply walk_step. }
  - by destruct segs.
  - exists q, n. by rewrite take_ge in Hn.
Qed.
End Walk.

Lemma snoc_neq (q : list nat) j : q ≠ q ++ [j].
Proof. intros H. apply (f_equal length) in H. rewrite length_app in H. simpl in H. lia. Qed.

(** Where a new entry of name [k] may be placed: a root when [k] has no
    dotted parent, else under the node of its parent. *)
Definition placed_ok (F : list RouteNode) (k : string) (pos : list nat) : Prop :=
  ∃ q j, pos = q ++ [j] ∧
    ((q = [] ∧ parent_segments k = []) ∨
     (∃ e', entry_at F q = Some e' ∧ parent_segments k ≠ [] ∧
            str_join "." (parent_segments k) = routeName e')).

Lemma tree_inv_add P F F' k e pnew :
  tree_inv P F → (∀ k' e', (k', e') ∈ P → routeName e' = k') → routeName e = k →
  (∀ e', (k, e') ∉ P) →
  (∀ q, entry_at F' q = if decide (q = pnew) then Some e else entry_at F q) →
  entry_at F pnew = None → placed_ok F k pnew →
  tree_inv (P ++ [(k, e)]) F'.
Proof.
  intros Hinv HP Hk Hfresh HF' Hnone (q0 & j0 & -> & Hpl).
  assert (∀ q e1, entry_at F q = Some e1 → routeName e1 ≠ k) as Hold.
  { intros q e1 H1 Hn. apply (Hfresh e1). rewrite <-Hn. by eapply ti_sound. }
  split.
  - intros q e1. rewrite HF'. case_decide; intros H1; simplify_eq.
    + subst. apply elem_of_app. right. by apply list_elem_of_singleton.
    + apply elem_of_app. left. by eapply ti_sound.
  - intros k' e1 [Hin|Hin]%elem_of_app.
    + destruct (ti_complete _ _ Hinv _ _ Hin) as [q Hq]. exists q.
      rewrite HF'. case_decide; [subst; congruence|done].
    + apply list_elem_of_singleton in Hin. simplify_eq. exists (q0 ++ [j0]). by rewrite HF', decide_True.
  - intros q1 q2 e1 e2. rewrite !HF'.
    do 2 case_decide; intros H1 H2 Hn; simplify_eq; [done| | |by eapply ti_unique].
    + by destruct (Hold _ _ H2).
    + by destruct (Hold _ _ H1).
  - intros q j e1. rewrite HF'. case_decide as Heq; intros H1.
    + simplify_eq. apply app_inj_tail in Heq as [-> ->].
      destruct Hpl as [Hpl|(e' & He' & Hne & Hj)]; [by left|right].
      exists e'. rewrite HF', decide_False; [done|]. apply snoc_neq.
    + destruct (ti_place _ _ Hinv _ _ _ H1) as [Hr|(e' & He' & Hne & Hj)]; [by left|right].
      exists e'. rewrite HF', decide_False; [done|]. intros ->. congruence.
Qed.

Lemma elem_of_removelast {A} (x : A) l : x ∈ removelast l → x ∈ l.
Proof.
  intros H. destruct l as [|y l] using rev_ind; [done|].
  rewrite removelast_last in H. set_solver.
Qed.

Lemma parent_segments_no_dot k s : s ∈ parent_segments k → has_char "." s = false.
Proof. intros H. apply elem_of_removelast in H. by eapply str_split_no_char. Qed.

Lemma entry_at_root_new F : entry_at F [length F] = None.
Proof. rewrite entry_at_cons. by rewrite lookup_ge_None_2 by lia. Qed.

Lemma entry_at_child_new F q n : lookup_pos F q = Some n → entry_at F (q ++ [length (nestedRoutes n)]) = None.
Proof.
  intros Hq. unfold entry_at. rewrite lookup_pos_children, (children_at_lookup F q n Hq). simpl.
  by rewrite lookup_ge_None_2 by lia.
Qed.

(** One step of the conversion keeps the shape invariant, when the key is
    new and every cumulative prefix of its parent is already converted. *)
Lemma convertStep_inv P F k e :
  tree_inv P F → (∀ k' e', (k', e') ∈ P → routeName e' = k') → routeName e = k →
  (∀ e', (k, e') ∉ P) →
  (∀ i, i < length (parent_segments k) → ∃ e', (str_join "." (take (S i) (parent_segments k)), e') ∈ P) →
  ∃ F', convertStep (Ok F) (k, e) = Ok F' ∧ tree_inv (P ++ [(k, e)]) F'.
Proof.
  intros Hinv HP Hk Hfresh Hpre. unfold convertStep. cbn [obind fst snd].
  case_decide as Hroot.
  - eexists; split; [done|]. apply (tree_inv_add P F _ k e [length F]); auto.
    + intros q. by apply entry_at_snoc.
    + apply entry_at_root_new.
    + exists [], (length F). split; [done|]. by left.
  - destruct (findNestedRoute_walk P F (parent_segments k) Hinv HP (parent_segments_no_dot k) Hpre Hroot)
      as (q & n & Hf & Hq & Hn).
    rewrite Hf. eexists; split; [done|].
    apply (tree_inv_add P F _ k e (q ++ [length (nestedRoutes n)])); auto.
    + intros q'. by apply (entry_at_push F q n).
    + by apply entry_at_child_new.
    + exists q, (length (nestedRoutes n)). split; [done|]. right.
      exists (node_entry n). split_and!; [by apply entry_at_lookup_pos|done|done].
Qed.

Lemma length_removelast {A} (l : list A) : length (removelast l) = length l - 1.
Proof. rewrite removelast_firstn_len, length_firstn. lia. Qed.

(** Iterated prefix closure: every cumulative prefix of a registered name
    is registered. *)
Lemma prefix_closed_segments reg k :
  prefix_closed reg → is_Some (reg !! k) →
  ∀ i, i < length (str_split "." k) → is_Some (reg !! str_join "." (take (S i) (str_split "." k))).
Proof.
  intros Hpc Hk.
  set (segs := str_split "." k).
  assert (∀ s, s ∈ segs → has_char "." s = false) as Hd by (intros s; apply str_split_no_char).
  assert (∀ d, d < length segs → is_Some (reg !! str_join "." (take (length segs - d) segs))) as Hall.
  { induction d as [|d IH]; intros Hdl.
    - rewrite Nat.sub_0_r, take_ge by done. subst segs. by rewrite str_join_split.
    - assert (is_Some (reg !! str_join "." (take (S (length segs - S d)) segs))) as Hc
        by (replace (S (length segs - S d)) with (length segs - d) by lia; apply IH; lia).
      specialize (Hpc _ Hc). unfold parent_present in Hpc.
      rewrite parent_cumulative in Hpc by (done || lia). apply Hpc.
      intros Hnil. apply (f_equal length) in Hnil. rewrite length_take in Hnil. simpl in Hnil. lia. }
  intros i Hi. replace (S i) with (length segs - (length segs - S i)) by lia. apply Hall. lia.
Qed.

Lemma prefix_closed_cumulative reg k :
  prefix_closed reg → is_Some (reg !! k) →
  ∀ i, i < length (parent_segments k) →
       is_Some (reg !! str_join "." (take (S i) (parent_segments k))).
Proof.
  intros Hpc Hk i Hi. unfold parent_segments in *. rewrite length_removelast in Hi.
  rewrite firstn_removelast by lia. apply prefix_closed_segments; [done..|lia].
Qed.

(** A cumulative prefix of the parent sorts strictly before the name. *)
Lemma cumulative_lt k i :
  i < length (parent_segments k) →
  String.compare (str_join "." (take (S i) (parent_segments k))) k = Lt.
Proof.
  intros Hi. unfold parent_segments in *. rewrite length_removelast in Hi.
  rewrite firstn_removelast by lia.
  set (segs := str_split "." k) in *.
  assert (k = str_join "." (take (S i) segs ++ drop (S i) segs)) as Hk
    by (rewrite take_drop; subst segs; by rewrite str_join_split).
  rewrite str_join_app in Hk.
  - rewrite Hk at 1. by apply compare_prefix_lt.
  - destruct segs; simpl in *; [lia|done].
  - intros Hd. apply (f_equal length) in Hd. rewrite length_drop in Hd. simpl in Hd. lia.
Qed.

Section Convert.
Context (reg : gmap string Entry).
Hypothesis Hkm : keys_match reg.
Hypothesis Hpc : prefix_closed reg.

Let sorted := sort_keys (map_to_list reg).

Lemma sorted_elem k e : (k, e) ∈ sorted ↔ reg !! k = Some e.
Proof. unfold sorted. rewrite sort_keys_Permutation. apply elem_of_map_to_list. Qed.

Lemma sorted_keys_NoDup : NoDup sorted.*1.
Proof. unfold sorted. rewrite sort_keys_Permutation. apply NoDup_fst_map_to_list. Qed.

Lemma sorted_names k e : (k, e) ∈ sorted → routeName e = k.
Proof. intros H%sorted_elem. by eapply keys_match_lookup. Qed.

Lemma sorted_fresh i k e e' : sorted !! i = Some (k, e) → (k, e') ∉ take i sorted.
Proof.
  intros Hi Hin. apply list_elem_of_lookup in Hin as [j Hj].
  rewrite lookup_take_Some in Hj. destruct Hj as [Hj Hji].
  assert (j = i) by (apply (NoDup_lookup sorted.*1 j i k sorted_keys_NoDup);
                      rewrite list_lookup_fmap; [by rewrite Hj|by rewrite Hi]).
  lia.
Qed.

Lemma tree_inv_nil : tree_inv [] [].
Proof.
  split.
  - intros q e H. by destruct q as [|[] []].
  - intros k e H. by apply not_elem_of_nil in H.
  - intros q1 q2 e1 e2 H. by destruct q1 as [|[] []].
  - intros q j e H. by destruct q as [|[] []].
Qed.

Lemma sorted_prefixes i k e :
  sorted !! i = Some (k, e) →
  ∀ i', i' < length (parent_segments k) →
        ∃ e', (str_join "." (take (S i') (parent_segments k)), e') ∈ take i sorted.
Proof.
  intros Hi i' Hi'.
  assert (reg !! k = Some e) as Hk by (apply sorted_elem; by eapply list_elem_of_lookup_2).
  destruct (prefix_closed_cumulative reg k Hpc (mk_is_Some _ _ Hk) i' Hi') as [e' He'].
  exists e'. apply sorted_elem, list_elem_of_lookup in He' as [j Hj].
  apply list_elem_of_lookup. exists j. rewrite lookup_take_Some. split; [done|].
  apply (sort_keys_before (map_to_list reg) j i _ _ Hj Hi). by apply cumulative_lt.
Qed.

(** The fold over the first [i] sorted entries never throws and keeps the
    shape invariant. *)
Lemma convert_prefix i :
  i ≤ length sorted →
  ∃ F, fold_left convertStep (take i sorted) (Ok []) = Ok F ∧ tree_inv (take i sorted) F.
Proof.
  induction i as [|i IH]; intros Hi.
  - exists []. split; [done|]. apply tree_inv_nil.
  - destruct (lookup_lt_is_Some_2 sorted i) as [[k e] Hx]; [lia|].
    destruct IH as (F & Hf & Hinv); [lia|].
    rewrite (take_S_r _ _ _ Hx), fold_left_app, Hf. simpl.
    apply convertStep_inv; [done| | |intros e'; exact (sorted_fresh i k e e' Hx)|by eapply sorted_prefixes].
    + intros k' e' Hin. apply sorted_names. by eapply elem_of_prefix, prefix_take.
    + apply sorted_names. by eapply list_elem_of_lookup_2.
Qed.

Lemma convert_inv : ∃ F, convertToRouterJSRouteArray reg = Ok F ∧ tree_inv sorted F.
Proof.
  destruct (convert_prefix (length sorted)) as (F & Hf & Hinv); [done|].
  rewrite take_ge in Hf, Hinv by done. by exists F.
Qed.

(** Walking the converted tree along a registered name reaches its node. *)
Lemma convert_walk F k e :
  tree_inv sorted F → reg !! k = Some e →
  ∃ q n, findNestedRoute F (str_split "." k) = Ok (FFound q n) ∧ lookup_pos F q = Some n ∧
         node_name n = k.
Proof.
  intros Hinv Hk.
  destruct (findNestedRoute_walk sorted F (str_split "." k) Hinv sorted_names
              (λ s, str_split_no_char "." k s)) as (q & n & Hf & Hq & Hn).
  - intros i Hi. destruct (prefix_closed_segments reg k Hpc (mk_is_Some _ _ Hk) i Hi) as [e' He'].
    exists e'. by apply sorted_elem.
  - apply str_split_not_nil.
  - exists q, n. by rewrite Hn, str_join_split.
Qed.
End Convert.

(** ** The shape of the converted tree *)

(** What the array handed to router_js looks like for a registry: every
    node holds a registry entry, every entry is at exactly one position,
    roots have no dotted parent, and every other node sits under the node
    of its dotted parent. *)
Definition tree_ok (reg : gmap string Entry) (F : list RouteNode) : Prop :=
  (∀ q e, entry_at F q = Some e → reg !! routeName e = Some e) ∧
  (∀ k e, reg !! k = Some e → ∃ q, entry_at F q = Some e) ∧
  (∀ q1 q2 e1 e2, entry_at F q1 = Some e1 → entry_at F q2 = Some e2 →
     routeName e1 = routeName e2 → q1 = q2) ∧
  (∀ j e, entry_at F [j] = Some e → parent_segments (routeName e) = []) ∧
  (∀ q j e, q ≠ [] → entry_at F (q ++ [j]) = Some e →
     ∃ e', entry_at F q = Some e' ∧ str_join "." (parent_segments (routeName e)) = routeName e').

Lemma tree_inv_tree_ok reg F :
  keys_match reg → tree_inv (sort_keys (map_to_list reg)) F → tree_ok reg F.
Proof.
  intros Hkm Hinv. split_and!.
  - intros q e He. by apply (sorted_elem reg), (ti_sound _ _ Hinv q).
  - intros k e Hk. apply (ti_complete _ _ Hinv k). by apply (sorted_elem reg).
  - apply (ti_unique _ _ Hinv).
  - intros j e He. destruct (ti_place _ _ Hinv [] j e He) as [[_ H]|(e' & He' & _)]; [done|].
    by rewrite entry_at_nil in He'.
  - intros q j e Hq He. destruct (ti_place _ _ Hinv q j e He) as [[-> _]|(e' & He' & _ & Hj)]; [done|].
    by exists e'.
Qed.

(** C1: [convertToRouterJSRouteArray] never throws on a registry whose
    entries are stored under their own names and whose names have their
    dotted parents registered (what [definitionsToRegistry] builds), and
    it returns exactly the registry as a tree: each entry once, roots
    without a dotted parent, each other entry under its parent. *)
Theorem convertToRouterJSRouteArray_correct reg :
  keys_match reg → prefix_closed reg →
  ∃ F, convertToRouterJSRouteArray reg = Ok F ∧ tree_ok reg F.
Proof.
  intros Hkm Hpc. destruct (convert_inv reg Hkm Hpc) as (F & HF & Hinv).
  exists F. split; [done|]. by apply tree_inv_tree_ok.
Qed.

(** C4: The spec's round trip: in the converted tree, walking the segments of
    any registered name from the roots, level by level through the
    cumulative names as [findNestedRoute] does, reaches the node holding
    that name's registry entry. *)
Theorem convertToRouterJSRouteArray_roundtrip reg F k e :
  keys_match reg → prefix_closed reg → convertToRouterJSRouteArray reg = Ok F →
  reg !! k = Some e →
  ∃ q n, findNestedRoute F (str_split "." k) = Ok (FFound q n) ∧ node_entry n = e.
Proof.
  intros Hkm Hpc HF Hk. destruct (convert_inv reg Hkm Hpc) as (F' & HF' & Hinv).
  rewrite HF' in HF. simplify_eq.
  destruct (convert_walk reg Hkm Hpc F k e Hinv Hk) as (q & n & Hf & Hq & Hn).
  exists q, n. split; [done|].
  apply entry_at_lookup_pos, (ti_sound _ _ Hinv), (sorted_elem reg) in Hq.
  unfold node_name in Hn. rewrite Hn, Hk in Hq. by simplify_eq.
Qed.

(** C5: A node's [nestedRoutes] hold exactly the registered names whose
    dotted parent is the node's name. *)
Theorem convertToRouterJSRouteArray_children reg F q e k :
  keys_match reg → prefix_closed reg → convertToRouterJSRouteArray reg = Ok F →
  entry_at F q = Some e →
  (∃ j e', entry_at F (q ++ [j]) = Some e' ∧ routeName e' = k) ↔
  (is_Some (reg !! k) ∧ parent_segments k ≠ [] ∧ str_join "." (parent_segments k) = routeName e).
Proof.
  intros Hkm Hpc HF He. destruct (convert_inv reg Hkm Hpc) as (F' & HF' & Hinv).
  rewrite HF' in HF. simplify_eq. split.
  - intros (j & e' & He' & <-). split; [eexists; apply (sorted_elem reg); by eapply (ti_sound _ _ Hinv)|].
    destruct (ti_place _ _ Hinv q j e' He') as [[-> _]|(e'' & He'' & Hne & Hj)];
      [by rewrite entry_at_nil in He|].
    rewrite He in He''. by simplify_eq.
  - intros ([e' Hk] & Hne & Hj). assert (routeName e' = k) as Hn by (by eapply keys_match_lookup).
    destruct (ti_complete _ _ Hinv k e') as [q' Hq']; [by apply (sorted_elem reg)|].
    destruct q' as [|j q0] using rev_ind; [by rewrite entry_at_nil in Hq'|].
    destruct (ti_place _ _ Hinv q0 j e' Hq') as [[_ Hnil]|(e'' & He'' & _ & Hj')];
      [rewrite Hn in Hnil; congruence|].
    assert (q0 = q) as ->.
    { apply (ti_unique _ _ Hinv q0 q e'' e); [done..|]. rewrite <-Hj', <-Hj. by rewrite Hn. }
    by exists j, e'.
Qed.

(** ** Orphans and the sort order *)

Lemma reducei_go_throw (f : FindAcc → string → nat → outcome FindAcc) l i ex :
  reducei_go (λ acc seg index, let? r := acc in f r seg index) l i (Throw ex) = Throw ex.
Proof. revert i. induction l as [|x l IH]; intros i; [done|]. apply IH. Qed.

(** C9: An orphan whose missing parent has one segment is promoted to a
    root, as the spec documents. *)
Theorem convertStep_orphan_root F k e p :
  parent_segments k = [p] → find_by_name F p = None →
  convertStep (Ok F) (k, e) = Ok (F ++ [leaf e]).
Proof.
  intros Hk Hf. unfold convertStep. cbn [obind fst snd]. rewrite Hk, decide_False by done.
  unfold findNestedRoute, reducei. simpl. unfold findStep. simpl. by rewrite Hf.
Qed.

(** C8: An orphan whose parent has two segments or more and whose first
    segment is not a root makes [findNestedRoute] read [nestedRoutes] of
    [undefined]: the conversion throws a TypeError instead of promoting
    the orphan to a root. *)
Theorem convertStep_orphan_throws F k e p1 p2 rest :
  parent_segments k = p1 :: p2 :: rest → find_by_name F p1 = None →
  convertStep (Ok F) (k, e) = Throw (undefined_read "nestedRoutes").
Proof.
  intros Hk Hf. unfold convertStep. cbn [obind fst snd]. rewrite Hk, decide_False by done.
  unfold findNestedRoute, reducei. simpl. unfold findStep at 2. simpl. rewrite Hf. simpl.
  change (findStep F (p1 :: p2 :: rest) FUndefined p2 1) with (@Throw FindAcc (undefined_read "nestedRoutes")).
  by rewrite reducei_go_throw.
Qed.

(** C15: [Object.keys(..).sort()] puts every registered dotted parent before
    its children, whatever characters the names contain: a proper prefix
    always sorts first. *)
Theorem sort_keys_parent_first {A} (l : list (string * A)) i j x y :
  sort_keys l !! i = Some x → sort_keys l !! j = Some y →
  parent_segments y.1 ≠ [] → str_join "." (parent_segments y.1) = x.1 → i < j.
Proof.
  intros Hi Hj Hne Hp. apply (sort_keys_before l i j x y Hi Hj).
  rewrite <-Hp, <-(take_ge (parent_segments y.1) (length (parent_segments y.1))) at 1 by done.
  destruct (length (parent_segments y.1)) as [|m] eqn:Hm; [by destruct (parent_segments y.1)|].
  apply cumulative_lt. lia.
Qed.

(** ** Concrete runs *)

Definition spec_registry : gmap string Entry :=
  ROUTE_REGISTRY (definitionsToRegistry spec_definitions empty_static).2.

Definition spec_tree : list RouteNode :=
  match convertToRouterJSRouteArray spec_registry with Ok F => F | Throw _ => [] end.

Definition node_summary (n : RouteNode) : string * list string :=
  (node_name n, node_name <$> nestedRoutes n).

(** The spec's scenario: roots [index] and [users]; the children of
    [users] come in sorted key order, [users.edit] before the synthesized
    [users.index] (the spec lists them the other way round). *)
Example spec_scenario_tree :
  convertToRouterJSRouteArray spec_registry = Ok spec_tree ∧
  node_summary <$> spec_tree = [("index", []); ("users", ["users.edit"; "users.index"])].
Proof. split; vm_compute; reflexivity. Qed.

Lemma convertToRouterJSRouteArray_correct_witness :
  (keys_match spec_registry ∧ prefix_closed spec_registry) ∧
  ∃ F, convertToRouterJSRouteArray spec_registry = Ok F ∧ tree_ok spec_registry F.
Proof.
  assert (keys_match spec_registry) as H1 by (apply (bool_decide_unpack _); vm_compute; reflexivity).
  assert (prefix_closed spec_registry) as H2 by (apply (bool_decide_unpack _); vm_compute; reflexivity).
  split; [by split|]. exact (convertToRouterJSRouteArray_correct spec_registry H1 H2).
Defined.

Definition users_edit_entry : Entry :=
  mkEntry "users.edit" "/:id" (Some (RouteClass 2 "UsersEditRoute")).
Definition users_entry : Entry :=
  mkEntry "users" "/users" (Some (RouteClass 1 "UsersRoute")).

Lemma convertToRouterJSRouteArray_roundtrip_witness :
  (keys_match spec_registry ∧ prefix_closed spec_registry ∧
   convertToRouterJSRouteArray spec_registry = Ok spec_tree ∧
   spec_registry !! "users.edit" = Some users_edit_entry) ∧
  ∃ q n, findNestedRoute spec_tree (str_split "." "users.edit") = Ok (FFound q n) ∧
         node_entry n = users_edit_entry.
Proof.
  assert (keys_match spec_registry) as H1 by (apply (bool_decide_unpack _); vm_compute; reflexivity).
  assert (prefix_closed spec_registry) as H2 by (apply (bool_decide_unpack _); vm_compute; reflexivity).
  assert (convertToRouterJSRouteArray spec_registry = Ok spec_tree) as H3 by (vm_compute; reflexivity).
  assert (spec_registry !! "users.edit" = Some users_edit_entry) as H4 by (vm_compute; reflexivity).
  split; [by split_and!|].
  exact (convertToRouterJSRouteArray_roundtrip spec_registry spec_tree "users.edit" users_edit_entry H1 H2 H3 H4).
Defined.

Lemma convertToRouterJSRouteArray_children_witness :
  (keys_match spec_registry ∧ prefix_closed spec_registry ∧
   convertToRouterJSRouteArray spec_registry = Ok spec_tree ∧
   entry_at spec_tree [1] = Some users_entry) ∧
  ((∃ j e', entry_at spec_tree ([1] ++ [j]) = Some e' ∧ routeName e' = "users.index") ↔
   (is_Some (spec_registry !! "users.index") ∧ parent_segments "users.index" ≠ [] ∧
    str_join "." (parent_segments "users.index") = routeName users_entry)).
Proof.
  assert (keys_match spec_registry) as H1 by (apply (bool_decide_unpack _); vm_compute; reflexivity).
  assert (prefix_closed spec_registry) as H2 by (apply (bool_decide_unpack _); vm_compute; reflexivity).
  assert (convertToRouterJSRouteArray spec_registry = Ok spec_tree) as H3 by (vm_compute; reflexivity).
  assert (entry_at spec_tree [1] = Some users_entry) as H4 by (vm_compute; reflexivity).
  split; [by split_and!|].
  exact (convertToRouterJSRouteArray_children spec_registry spec_tree [1] users_entry "users.index" H1 H2 H3 H4).
Defined.

Lemma convertStep_orphan_root_witness :
  (parent_segments "a.b" = ["a"] ∧ find_by_name [] "a" = None) ∧
  convertStep (Ok []) ("a.b", mkEntry "a.b" "/b" None) = Ok ([] ++ [leaf (mkEntry "a.b" "/b" None)]).
Proof.
  split; [split; reflexivity|].
  apply (convertStep_orphan_root [] "a.b" (mkEntry "a.b" "/b" None) "a"); reflexivity.
Defined.

Lemma convertStep_orphan_throws_witness :
  (parent_segments "a.b.c" = ["a"; "b"] ∧ find_by_name [] "a" = None) ∧
  convertStep (Ok []) ("a.b.c", mkEntry "a.b.c" "/c" None) = Throw (undefined_read "nestedRoutes").
Proof.
  split; [split; reflexivity|].
  apply (convertStep_orphan_throws [] "a.b.c" (mkEntry "a.b.c" "/c" None) "a" "b" []); reflexivity.
Defined.

(** A registry holding only [a.b.c] makes the conversion throw. *)
Example orphan_registry_throws :
  convertToRouterJSRouteArray {[ "a.b.c" := mkEntry "a.b.c" "/c" None ]} =
  Throw (undefined_read "nestedRoutes").
Proof. vm_compute. reflexivity. Qed.

(** The registry built from the leading-dot definition ([.a.b] with an
    [indexRoute]) makes the conversion throw: its key [.a.b.index] is an
    orphan whose missing parent has three segments. *)
Example leading_dot_conversion_throws :
  convertToRouterJSRouteArray
    (ROUTE_REGISTRY (definitionsToRegistry [leading_dot_definition] empty_static).2) =
  Throw (undefined_read "nestedRoutes").
Proof. vm_compute. reflexivity. Qed.

Definition spec_sorted : list (string * Entry) := sort_keys (map_to_list spec_registry).

Lemma sort_keys_parent_first_witness :
  (spec_sorted !! 1 = Some ("users", users_entry) ∧
   spec_sorted !! 2 = Some ("users.edit", users_edit_entry) ∧
   parent_segments ("users.edit", users_edit_entry).1 ≠ [] ∧
   str_join "." (parent_segments ("users.edit", users_edit_entry).1) = ("users", users_entry).1) ∧
  1 < 2.
Proof.
  assert (spec_sorted !! 1 = Some ("users", users_entry)) as H1 by (vm_compute; reflexivity).
  assert (spec_sorted !! 2 = Some ("users.edit", users_edit_entry)) as H2 by (vm_compute; reflexivity).
  assert (parent_segments ("users.edit", users_edit_entry).1 ≠ []) as H3 by (vm_compute; discriminate).
  assert (str_join "." (parent_segments ("users.edit", users_edit_entry).1) = ("users", users_entry).1)
    as H4 by (vm_compute; reflexivity).
  split; [by split_and!|].
  exact (sort_keys_parent_first (map_to_list spec_registry) 1 2 _ _ H1 H2 H3 H4).
Defined.

End TreeFacts.
