(* ===== verification/RouterService.v ===== *)
(** * The transition adapter (router-service.ts: [RouterJSRouter])

    [RouterJSRouter] extends the router engine of [router_js] and overrides
    its hooks.  The engine itself (path recognition, transition resolution)
    is not part of the repository: the operations that call into it take
    the engine's entry points ([recognize], [transitionTo]) as section
    variables, so the theorems hold for every engine.  The adapter's own
    fields and the process-wide state it reads ([EmberXRouter.ROUTE_REGISTRY],
    [SERVICES], [LOG_ROUTES]) and the objects [getRoute] mutates form the
    state [World] of a state-and-exception monad. *)

From Stdlib Require Import Ascii String NArith.
From stdpp Require Import base list gmap strings sorting.
From S2P Require Import Prelude Names Registry.
Open Scope stdpp_scope.
Open Scope js_scope.

(** ** [Object.keys] on an ordinary object

    An ordinary object lists its array-index keys (canonical decimal
    strings below [2^32 - 1]) first, in ascending numeric order, then its
    other string keys in creation order.  The object is an association
    list in creation order. *)

Definition digit (c : ascii) : option N :=
  let n := N_of_ascii c in
  if (48 <=? n)%N && (n <=? 57)%N then Some (n - 48)%N else None.

Fixpoint digits_value (s : string) (acc : N) : option N :=
  match s with
  | EmptyString => Some acc
  | String c s' => d ← digit c; digits_value s' (acc * 10 + d)%N
  end.

Definition array_index (k : string) : option N :=
  match k with
  | EmptyString => None
  | String "0"%char EmptyString => Some 0%N
  | String "0"%char _ => None
  | _ => n ← digits_value k 0; if (n <? 4294967295)%N then Some n else None
  end.

Definition index_le (a b : N * string) : Prop := (a.1 ≤ b.1)%N.
#[export] Instance index_le_dec : RelDecision index_le.
Proof. intros a b. unfold index_le. apply _. Defined.

Definition object_keys {A} (o : list (string * A)) : list string :=
  (snd <$> merge_sort index_le (omap (λ kv, (λ n, (n, kv.1)) <$> array_index kv.1) o)) ++
  (fst <$> filter (λ kv, array_index kv.1 = None) o).

(** [o[key]] for an own key of the object (its binding). *)
Fixpoint prop_get {A} (o : list (string * A)) (key : string) : option A :=
  match o with
  | [] => None
  | kv :: o' => if decide (kv.1 = key) then Some kv.2 else prop_get o' key
  end.

Module RouterService.
Import Names Registry.

(** A [RouteInfo] of the engine: its [name], its [_route] (undefined until
    the engine resolves it) and its [router] back-reference, which is this
    router or some other engine object with its own [path]. *)
Inductive RouterRef :=
| ThisRouter
| OtherRouter (other_path : option string).

Record RouteInfo := mkRouteInfo {
  ri_name : string;
  ri_route : option Handler;
  ri_router : RouterRef;
}.

(** The fields of a [router_js] transition that [willTransition] reads. *)
Record Transition := mkTransition {
  routeInfos : list RouteInfo;
  resolveIndex : nat;
}.

(** The fields of [RouterJSRouter]: [testing], the location bar (modelled
    by the URLs handed to [locationBar.update], in order), [path] and the
    three [@tracked] fields, all [undefined] after construction. *)
Record Router := mkRouter {
  testing : bool;
  locationBar : list string;
  rpath : option string;
  currentRoute : option Handler;
  currentRouteName : option string;
  currentURL : option string;
}.

(** The state the adapter's methods read and write.  [props] holds, for
    each handler object (by identity), the properties [Object.assign] has
    copied onto it; service objects are identities too. *)
Record World := mkWorld {
  wstatic : Static;
  SERVICES : gmap string nat;
  LOG_ROUTES : bool;
  props : gmap nat (gmap string nat);
  router : Router;
}.

Definition handler_ref (h : Handler) : nat :=
  match h with RouteClass r _ => r | RouteInstance r _ => r end.

(** [DefaultRoute]: the class exported by route.ts (identity 0). *)
Definition DefaultRoute : Handler := RouteClass 0 "Route".

(** [constructor()]: [testing = !!globalThis.QUnit]; [new LocationBar()]
    started with [pushState], which has not updated the URL yet. *)
Definition new_RouterJSRouter (QUnit : bool) : Router :=
  mkRouter QUnit [] None None None None.

Definition set_router (f : Router → Router) : M World unit :=
  modify (λ w, mkWorld (wstatic w) (SERVICES w) (LOG_ROUTES w) (props w) (f (router w))).

Definition log (msg : string) : M World unit :=
  modify (λ w, mkWorld (mkStatic (ROUTE_REGISTRY (wstatic w)) (console (wstatic w) ++ [msg]))
                       (SERVICES w) (LOG_ROUTES w) (props w) (router w)).

(** The hooks the adapter overrides with empty bodies. *)
Definition triggerEvent : M World unit := ret tt.
Definition replaceURL : M World unit := ret tt.
Definition routeWillChange : M World unit := ret tt.
Definition routeDidChange : M World unit := ret tt.
Definition getSerializer : M World unit := ret tt.

(** [targetRouteInfo.router.path]. *)
Definition router_path (r : Router) (ref : RouterRef) : option string :=
  match ref with ThisRouter => rpath r | OtherRouter p => p end.

(** The three assignments shared by [willTransition] and [didTransition]. *)
Definition set_current (ri : RouteInfo) (r : Router) : Router :=
  mkRouter (testing r) (locationBar r) (rpath r)
    (ri_route ri) (Some (ri_name ri)) (router_path r (ri_router ri)).

(** [willTransition(old, new, transition)]: the route info at
    [transition.resolveIndex]; reading a field of [undefined] throws. *)
Definition willTransition (transition : Transition) : M World unit :=
  match routeInfos transition !! resolveIndex transition with
  | None => throw (undefined_read "_route")
  | Some targetRouteInfo => set_router (set_current targetRouteInfo)
  end.

(** [didTransition(routeInfos)]: the last route info. *)
Definition didTransition (ris : list RouteInfo) : M World unit :=
  match last ris with
  | None => throw (undefined_read "_route")
  | Some targetRouteInfo => set_router (set_current targetRouteInfo)
  end.

(** [Object.assign(targetRoute, EmberXRouter.SERVICES)]: the services
    overwrite properties of the same name. *)
Definition assign_services (h : Handler) (w : World) : World :=
  mkWorld (wstatic w) (SERVICES w) (LOG_ROUTES w)
    (<[handler_ref h := SERVICES w ∪ default ∅ (props w !! handler_ref h)]> (props w))
    (router w).

(** [getRoute(name)]: [ROUTE_REGISTRY[name].route || DefaultRoute], with
    the services assigned onto that (shared) object; an unregistered name
    reads [.route] of [undefined]. *)
Definition getRoute (name : string) : M World Handler :=
  let* w := get in
  let* _ := if LOG_ROUTES w then log ("iz debug " +:+ name) else ret tt in
  match ROUTE_REGISTRY (wstatic w) !! name with
  | None => throw (undefined_read "route")
  | Some e =>
      let targetRoute := default DefaultRoute (route e) in
      let* _ := modify (assign_services targetRoute) in
      ret targetRoute
  end.

(** [updateURL(url)]. *)
Definition updateURL (url : string) : M World unit :=
  let* _ := set_router (λ r, mkRouter (testing r) (locationBar r) (Some url)
                               (currentRoute r) (currentRouteName r) (currentURL r)) in
  let* w := get in
  if testing (router w) then ret tt
  else set_router (λ r, mkRouter (testing r) (locationBar r ++ [url]) (rpath r)
                          (currentRoute r) (currentRouteName r) (currentURL r)).

(** A result of the engine's recognizer: the handler name and the params
    object. *)
Record HandlerMatch := mkMatch {
  handler : string;
  params : list (string * string);
}.

Definition no_route_message : string :=
  "NO ROUTE FOUND. This is probably a bug, please report it to: https://github.com/izelnakri/emberx/issues/new".

Section Visit.
(** [this.recognizer.recognize] and [this.transitionTo] of the engine. *)
Variable recognize : string → option (list HandlerMatch).
Variable transitionTo : string → list (option string) → M World unit.

(** [async visit(path)]: a throw rejects the returned promise. *)
Definition visit (p : string) : M World unit :=
  match recognize p with
  | Some targetHandlers =>
      match last targetHandlers with
      | None => throw (undefined_read "params")
      | Some targetHandler =>
          let ks := object_keys (params targetHandler) in
          if decide (0 < length ks) then
            transitionTo (handler targetHandler) (prop_get (params targetHandler) <$> ks)
          else transitionTo (handler targetHandler) []
      end
  | None => log no_route_message
  end.

End Visit.

(** The state of a [router_js] transition that [transitionDidError]
    touches: its [isAborted] flag and the events triggered on it. *)
Record TransitionState := mkTState {
  isAborted : bool;
  triggered : list (bool * string * nat * option Handler);
}.

(** The error object: [wasAborted], the wrapped [error] (an opaque value)
    and the [route] it came from. *)
Record TransitionError := mkTError {
  wasAborted : bool;
  error : nat;
  err_route : option Handler;
}.

(** [transitionDidError(error, transition)]: [undefined] for an abort;
    otherwise the error is triggered on the transition, which is aborted,
    and [error.error] is returned. *)
Definition transitionDidError (err : TransitionError) : M TransitionState (option nat) :=
  let* t := get in
  if wasAborted err || isAborted t then ret None
  else
    let* _ := modify (λ t, mkTState (isAborted t) (triggered t ++ [(false, "error", error err, err_route err)])) in
    let* _ := modify (λ t, mkTState true (triggered t)) in
    ret (Some (error err)).

End RouterService.

(** ** Theorems *)

Module RouterServiceFacts.
Import Names Registry RouterService.

(** *** [Object.keys] *)

Lemma omap_array_index_nil {A} (o : list (string * A)) :
  Forall (λ kv, array_index kv.1 = None) o →
  omap (λ kv, (λ n, (n, kv.1)) <$> array_index kv.1) o = [].
Proof. induction 1 as [|kv o Hkv _ IH]; [done|]. simpl. by rewrite Hkv. Qed.

(** Without array-index keys, [Object.keys] is the creation order. *)
Lemma object_keys_plain {A} (o : list (string * A)) :
  Forall (λ kv, array_index kv.1 = None) o → object_keys o = fst <$> o.
Proof.
  intros Hf. unfold object_keys. rewrite omap_array_index_nil by done. simpl.
  f_equal. induction Hf as [|kv o Hkv _ IH]; [done|].
  rewrite filter_cons_True by done. simpl. by f_equal.
Qed.

(** [Object.keys] lists every key once: a permutation of the keys. *)
Lemma object_keys_Permutation {A} (o : list (string * A)) : object_keys o ≡ₚ fst <$> o.
Proof.
  unfold object_keys. rewrite merge_sort_Permutation.
  induction o as [|[k v] o IH]; [done|]. rewrite filter_cons. simpl.
  destruct (array_index k) eqn:Hk; simpl.
  - by rewrite IH.
  - rewrite <-Permutation_middle. by rewrite IH.
Qed.

Lemma prop_get_values {A} (o : list (string * A)) :
  NoDup (fst <$> o) → prop_get o <$> (fst <$> o) = Some <$> (snd <$> o).
Proof.
  induction o as [|[k v] o IH]; intros Hnd; [done|].
  apply NoDup_cons in Hnd as [Hk Hnd]. cbn. rewrite decide_True by done. f_equal.
  rewrite <-(IH Hnd). apply list_fmap_ext. intros i k' Hi. simpl.
  rewrite decide_False; [done|]. intros ->. apply Hk. by eapply list_elem_of_lookup_2.
Qed.

(** *** [visit] *)

(** C19: Without a match, [visit] logs the not-found diagnostic and calls no
    transition, whatever the engine. *)
Theorem visit_no_match recognize transitionTo p w :
  recognize p = None →
  visit recognize transitionTo p w =
  (Ok tt, mkWorld (mkStatic (ROUTE_REGISTRY (wstatic w)) (console (wstatic w) ++ [no_route_message]))
                  (SERVICES w) (LOG_ROUTES w) (props w) (router w)).
Proof. intros Hr. unfold visit. by rewrite Hr. Qed.

(** C18: On a match, [visit] hands the last handler's name and the values of
    its params, in the params' creation order, to [transitionTo], when no
    param name is an array index. *)
Theorem visit_match recognize transitionTo p hs th :
  recognize p = Some hs → last hs = Some th →
  NoDup (fst <$> params th) → Forall (λ kv, array_index kv.1 = None) (params th) →
  visit recognize transitionTo p = transitionTo (handler th) (Some <$> (snd <$> params th)).
Proof.
  intros Hr Hl Hnd Hf. unfold visit. rewrite Hr, Hl, object_keys_plain by done.
  rewrite length_fmap. destruct (decide (0 < length (params th))) as [_|Hn].
  - by rewrite prop_get_values.
  - by destruct (params th); [|simpl in Hn; lia].
Qed.


(** A match with an empty handler list reads [params] of [undefined]:
    [visit] rejects with a TypeError and changes nothing. *)
Theorem visit_empty_match recognize transitionTo p w :
  recognize p = Some [] →
  visit recognize transitionTo p w = (Throw (undefined_read "params"), w).
Proof. intros Hr. unfold visit. by rewrite Hr. Qed.

(** *** The transition hooks *)

(** C20: Both hooks succeed and make the router's [currentRoute],
    [currentRouteName] and [currentURL] those of a route info, leaving the
    router's other fields and the rest of the state alone; [willTransition]
    takes the info at [transition.resolveIndex], [didTransition] the last
    of the infos it is given. *)
Theorem transition_hooks_current t w ri ri' :
  routeInfos t !! resolveIndex t = Some ri → last (routeInfos t) = Some ri' →
  (willTransition t w).1 = Ok tt ∧ (didTransition (routeInfos t) w).1 = Ok tt ∧
  (willTransition t w).2 = mkWorld (wstatic w) (SERVICES w) (LOG_ROUTES w) (props w)
    (mkRouter (testing (router w)) (locationBar (router w)) (rpath (router w))
              (ri_route ri) (Some (ri_name ri)) (router_path (router w) (ri_router ri))) ∧
  (didTransition (routeInfos t) w).2 = mkWorld (wstatic w) (SERVICES w) (LOG_ROUTES w) (props w)
    (mkRouter (testing (router w)) (locationBar (router w)) (rpath (router w))
              (ri_route ri') (Some (ri_name ri')) (router_path (router w) (ri_router ri'))).
Proof. intros Hw Hd. unfold willTransition, didTransition. rewrite Hw, Hd. by unfold_M. Qed.

(** C35: [currentURL] is read from the router's [path] when the hook runs: after
    [updateURL(url)] then [didTransition] it is [url]; with the hooks the
    other way round it keeps the path the router had before, and
    [updateURL] does not refresh it. *)
Theorem currentURL_order url ris ri w :
  last ris = Some ri → ri_router ri = ThisRouter →
  currentURL (router (didTransition ris (updateURL url w).2).2) = Some url ∧
  currentURL (router (updateURL url (didTransition ris w).2).2) = rpath (router w).
Proof.
  intros Hl Hr. unfold didTransition, updateURL. rewrite Hl. unfold_M.
  unfold set_current, router_path. rewrite Hr. simpl.
  split; by destruct (testing (router w)).
Qed.

(** *** [getRoute] and [updateURL] *)

(** For a registered name, [getRoute] returns the entry's handler (or
    [DefaultRoute]) and that object then carries every service. *)
Lemma getRoute_assigns name e w :
  ROUTE_REGISTRY (wstatic w) !! name = Some e →
  (getRoute name w).1 = Ok (default DefaultRoute (route e)) ∧
  ∀ k v, SERVICES w !! k = Some v →
    props (getRoute name w).2 !! handler_ref (default DefaultRoute (route e)) ≫= (.!! k) = Some v.
Proof.
  intros He. unfold getRoute. unfold_M.
  destruct (LOG_ROUTES w); unfold_M; rewrite He; simpl; (split; [done|]);
    intros k v Hk; rewrite lookup_insert_eq; simpl; by apply lookup_union_Some_l.
Qed.

(** C21: For a registered name, [getRoute] returns the entry's handler, or
    [DefaultRoute] when it has none, after copying every service onto that
    object; no other object, the registry and the router are unchanged,
    and the name is logged when [LOG_ROUTES] is set. *)
Theorem getRoute_registered name e w :
  ROUTE_REGISTRY (wstatic w) !! name = Some e →
  let h := default DefaultRoute (route e) in
  let w' := (getRoute name w).2 in
  (getRoute name w).1 = Ok h ∧
  ROUTE_REGISTRY (wstatic w') = ROUTE_REGISTRY (wstatic w) ∧
  console (wstatic w') = console (wstatic w) ++ (if LOG_ROUTES w then ["iz debug " +:+ name] else []) ∧
  (∀ k v, SERVICES w !! k = Some v → (props w' !! handler_ref h) ≫= (.!! k) = Some v) ∧
  (∀ r, r ≠ handler_ref h → props w' !! r = props w !! r) ∧
  router w' = router w.
Proof.
  intros He h. unfold h. unfold getRoute. unfold_M.
  destruct (LOG_ROUTES w); unfold_M; rewrite He; simpl;
    (split_and!; [done|done|by rewrite ?app_nil_r| |by intros; rewrite lookup_insert_ne|done]);
    intros k v Hk; rewrite ?lookup_insert, ?decide_True by done; simpl; by apply lookup_union_Some_l.
Qed.



(** *** [transitionDidError] *)

(** [transitionDidError] never throws: an aborted error or transition is
    swallowed and nothing changes; any other error is triggered once as an
    [error] event, the transition is aborted and [error.error] is
    returned. *)
Theorem transitionDidError_spec err t :
  transitionDidError err t =
  if wasAborted err || isAborted t then (Ok None, t)
  else (Ok (Some (error err)), mkTState true (triggered t ++ [(false, "error", error err, err_route err)])).
Proof. unfold transitionDidError. unfold_M. by destruct (wasAborted err || isAborted t). Qed.

(** C34: An error is surfaced at most once per transition: after a call that
    returned an error, any later [transitionDidError] on the same
    transition returns [undefined] and triggers nothing. *)
Theorem transitionDidError_once err err' t x :
  (transitionDidError err t).1 = Ok (Some x) →
  let t' := (transitionDidError err t).2 in
  transitionDidError err' t' = (Ok None, t').
Proof.
  rewrite transitionDidError_spec. destruct (wasAborted err || isAborted t); [done|].
  intros _ t'. rewrite transitionDidError_spec. simpl. by rewrite orb_true_r.
Qed.

(** *** Concrete runs *)

(** A router for the spec's scenario: [users] and [users.edit] registered,
    the route service [router] (object 7), not testing, at [/users]. *)
Definition scenario_world : World :=
  mkWorld (mkStatic (<["users.edit" := mkEntry "users.edit" "/:id" (Some (RouteClass 2 "UsersEditRoute"))]>
                     (<["users" := mkEntry "users" "/users" None]> ∅)) [])
          {[ "router" := 7 ]} false ∅
          (mkRouter false [] (Some "/users") None None None).

(** An engine that recognizes [/users/:id] and records each transition in
    the console. *)
Definition scenario_recognize (p : string) : option (list HandlerMatch) :=
  if decide (p = "/users/42") then Some [mkMatch "users" []; mkMatch "users.edit" [("id", "42")]]
  else None.
Definition record_transition (name : string) (args : list (option string)) : M World unit :=
  log ("transitionTo " +:+ name +:+ " " +:+ String.concat "," (default "undefined" <$> args)).

Lemma visit_no_match_witness :
  scenario_recognize "/unknown" = None ∧
  visit scenario_recognize record_transition "/unknown" scenario_world =
  (Ok tt, mkWorld (mkStatic (ROUTE_REGISTRY (wstatic scenario_world))
                            (console (wstatic scenario_world) ++ [no_route_message]))
                  (SERVICES scenario_world) (LOG_ROUTES scenario_world) (props scenario_world)
                  (router scenario_world)).
Proof. split; [reflexivity|]. apply visit_no_match. reflexivity. Defined.

Lemma visit_match_witness :
  scenario_recognize "/users/42" = Some [mkMatch "users" []; mkMatch "users.edit" [("id", "42")]] ∧
  last [mkMatch "users" []; mkMatch "users.edit" [("id", "42")]] = Some (mkMatch "users.edit" [("id", "42")]) ∧
  NoDup (fst <$> params (mkMatch "users.edit" [("id", "42")])) ∧
  Forall (λ kv, array_index kv.1 = None) (params (mkMatch "users.edit" [("id", "42")])) ∧
  visit scenario_recognize record_transition "/users/42" =
  record_transition "users.edit" (Some <$> (snd <$> params (mkMatch "users.edit" [("id", "42")]))).
Proof.
  split_and!; [reflexivity|reflexivity|apply (bool_decide_unpack _); vm_compute; reflexivity
              |apply (bool_decide_unpack _); vm_compute; reflexivity|].
  apply (visit_match scenario_recognize record_transition "/users/42"
           [mkMatch "users" []; mkMatch "users.edit" [("id", "42")]] (mkMatch "users.edit" [("id", "42")]));
    try reflexivity;
    apply (bool_decide_unpack _); vm_compute; reflexivity.
Defined.

(** A handler whose params include array-index names. *)
Definition numeric_params : HandlerMatch := mkMatch "doc" [("slug", "a"); ("2", "b"); ("1", "c")].

(** [Object.keys] moves the array-index names first, so [visit] passes the
    values out of segment order. *)
Example visit_numeric_param_order :
  visit (λ _, Some [numeric_params]) record_transition "/a/b/c" =
  record_transition "doc" [Some "c"; Some "b"; Some "a"].
Proof. reflexivity. Qed.


Lemma visit_empty_match_witness :
  (λ _ : string, Some (@nil HandlerMatch)) "/x" = Some [] ∧
  visit (λ _, Some []) record_transition "/x" scenario_world =
  (Throw (undefined_read "params"), scenario_world).
Proof. split; [reflexivity|]. by apply visit_empty_match. Defined.

(** The route infos of a transition to [users.edit]. *)
Definition two_infos : list RouteInfo :=
  [mkRouteInfo "users" None ThisRouter; mkRouteInfo "users.edit" None ThisRouter].

(** With the engine's [resolveIndex] at the parent, the two hooks
    disagree on the current route. *)
Lemma transition_hooks_current_witness :
  (two_infos !! 0 = Some (mkRouteInfo "users" None ThisRouter) ∧
   last two_infos = Some (mkRouteInfo "users.edit" None ThisRouter)) ∧
  currentRouteName (router (willTransition (mkTransition two_infos 0) scenario_world).2) = Some "users" ∧
  currentRouteName (router (didTransition two_infos scenario_world).2) = Some "users.edit".
Proof.
  split; [split; reflexivity|].
  destruct (transition_hooks_current (mkTransition two_infos 0) scenario_world
              (mkRouteInfo "users" None ThisRouter) (mkRouteInfo "users.edit" None ThisRouter)
              eq_refl eq_refl) as (_ & _ & Hw & Hd).
  cbn [routeInfos] in Hd. rewrite Hw, Hd. split; reflexivity.
Defined.

Lemma currentURL_order_witness :
  last two_infos = Some (mkRouteInfo "users.edit" None ThisRouter) ∧
  ri_router (mkRouteInfo "users.edit" None ThisRouter) = ThisRouter ∧
  currentURL (router (didTransition two_infos (updateURL "/users/42" scenario_world).2).2) = Some "/users/42" ∧
  currentURL (router (updateURL "/users/42" (didTransition two_infos scenario_world).2).2) =
    rpath (router scenario_world).
Proof.
  split; [reflexivity|split; [reflexivity|]].
  exact (currentURL_order "/users/42" two_infos (mkRouteInfo "users.edit" None ThisRouter) scenario_world
           eq_refl eq_refl).
Defined.

Lemma getRoute_registered_witness :
  ROUTE_REGISTRY (wstatic scenario_world) !! "users" = Some (mkEntry "users" "/users" None) ∧
  let h := default DefaultRoute (route (mkEntry "users" "/users" None)) in
  let w' := (getRoute "users" scenario_world).2 in
  (getRoute "users" scenario_world).1 = Ok h ∧
  ROUTE_REGISTRY (wstatic w') = ROUTE_REGISTRY (wstatic scenario_world) ∧
  console (wstatic w') = console (wstatic scenario_world) ++
    (if LOG_ROUTES scenario_world then ["iz debug " +:+ "users"] else []) ∧
  (∀ k v, SERVICES scenario_world !! k = Some v → (props w' !! handler_ref h) ≫= (.!! k) = Some v) ∧
  (∀ r, r ≠ handler_ref h → props w' !! r = props scenario_world !! r) ∧
  router w' = router scenario_world.
Proof.
  split; [reflexivity|].
  exact (getRoute_registered "users" (mkEntry "users" "/users" None) scenario_world eq_refl).
Defined.

(** Routes without a handler all share the one [DefaultRoute] object: the
    services [getRoute] assigns for one are seen through the other. *)
Example getRoute_default_shared :
  let w1 := (getRoute "users" scenario_world).2 in
  (getRoute "users" scenario_world).1 = Ok DefaultRoute ∧
  props w1 !! handler_ref DefaultRoute = Some {[ "router" := 7 ]} ∧
  (getRoute "users.edit" w1).1 = Ok (RouteClass 2 "UsersEditRoute").
Proof. split_and!; reflexivity. Qed.


Lemma transitionDidError_once_witness :
  (transitionDidError (mkTError false 5 None) (mkTState false [])).1 = Ok (Some 5) ∧
  transitionDidError (mkTError false 6 None) (transitionDidError (mkTError false 5 None) (mkTState false [])).2 =
  (Ok None, (transitionDidError (mkTError false 5 None) (mkTState false [])).2).
Proof. split; [reflexivity|]. by apply (transitionDidError_once _ _ _ 5). Defined.

End RouterServiceFacts.
