(* ===== verification/Startup.v ===== *)
(** * Startup (index.ts: [EmberXRouter.start], [EmberXRouter.map])

    [start] and [map] reassign [EmberXRouter.ROUTE_REGISTRY] to fresh
    objects and hand those objects around: [map] returns the very object
    it made [ROUTE_REGISTRY] (and [RouteMapContext.ROUTE_REGISTRY]), and
    [definitionsToRegistry] then writes into it.  Registries are therefore
    objects of a heap, referred to by identity; the registry code of
    [Registry] runs on the object [ROUTE_REGISTRY] refers to when it is
    called.  [RouteMapContext] is not under src/: what [start] needs from
    it is the interface [MapContext]; [Startup.DSL] models it from the
    spec. *)

From Stdlib Require Import Ascii String.
From stdpp Require Import base list gmap strings.
From S2P Require Import Prelude Names Registry Tree RouterService.
Open Scope stdpp_scope.
Open Scope js_scope.

(** ** The interface of the DSL map context

    [routerDefinition.apply(RouteMapContext)] runs the user's callback with
    the context as [this]; its nested [route] calls record entries in
    [RouteMapContext.ROUTE_REGISTRY].  What [start] relies on: the
    recording keeps every entry under its own name and keeps the registry
    prefix-closed. *)
Class MapContext := {
  MapFn : Type;
  apply_map : MapFn → M Registry.Static unit;
  apply_map_inv : ∀ f log, preserves (RegistryFacts.static_inv log) (apply_map f);
  apply_map_closed : ∀ f, preserves RegistryFacts.registry_prefix_closed (apply_map f);
}.

Module Startup.
Import Names Registry Tree RouterService.

(** The process-wide state [start] touches: the registry objects by
    identity, the next fresh identity, [EmberXRouter.ROUTE_REGISTRY],
    [RouteMapContext.ROUTE_REGISTRY], the console, [SERVICES], and
    [EmberXRouter.routerjs] (its identity, its fields and the tree handed
    to [routerjs.map]). *)
Record Global := mkGlobal {
  heap : gmap nat (gmap string Entry);
  next_ref : nat;
  ROUTE_REGISTRY_ref : nat;
  ctx_registry : option nat;
  gconsole : list string;
  gSERVICES : gmap string nat;
  routerjs : option (nat * Router * list RouteNode);
}.

(** The registry object behind a reference. *)
Definition deref (g : Global) (l : nat) : gmap string Entry := default ∅ (heap g !! l).

Definition set_heap (l : nat) (r : gmap string Entry) (g : Global) : Global :=
  mkGlobal (<[l := r]> (heap g)) (next_ref g) (ROUTE_REGISTRY_ref g) (ctx_registry g)
    (gconsole g) (gSERVICES g) (routerjs g).

(** An object literal [{}]: a fresh identity. *)
Definition alloc (r : gmap string Entry) : M Global nat :=
  let* g := get in
  let* _ := put (mkGlobal (<[next_ref g := r]> (heap g)) (S (next_ref g)) (ROUTE_REGISTRY_ref g)
                  (ctx_registry g) (gconsole g) (gSERVICES g) (routerjs g)) in
  ret (next_ref g).

(** [this.ROUTE_REGISTRY = l]. *)
Definition set_ROUTE_REGISTRY (l : nat) : M Global unit :=
  modify (λ g, mkGlobal (heap g) (next_ref g) l (ctx_registry g) (gconsole g) (gSERVICES g) (routerjs g)).

(** [RouteMapContext.ROUTE_REGISTRY = l]. *)
Definition set_ctx_registry (l : nat) : M Global unit :=
  modify (λ g, mkGlobal (heap g) (next_ref g) (ROUTE_REGISTRY_ref g) (Some l) (gconsole g) (gSERVICES g) (routerjs g)).

(** Run registry code on the object [l] (and the console). *)
Definition on_registry {A} (l : nat) (m : M Static A) : M Global A :=
  λ g, let '(o, st) := m (mkStatic (deref g l) (gconsole g)) in
       (o, mkGlobal (<[l := ROUTE_REGISTRY st]> (heap g)) (next_ref g) (ROUTE_REGISTRY_ref g)
             (ctx_registry g) (console st) (gSERVICES g) (routerjs g)).

(** [Object.assign(target, source)] on registries: the source's keys
    overwrite. *)
Definition object_assign (target source : nat) : M Global nat :=
  let* g := get in
  let* _ := put (set_heap target (deref g source ∪ deref g target) g) in
  ret target.

Section WithContext.
Context `{MapContext}.

(** [EmberXRouter.map(routerDefinition)]. *)
Definition map (routerDefinition : MapFn) : M Global nat :=
  let* l := alloc ∅ in
  let* _ := set_ROUTE_REGISTRY l in
  let* _ := set_ctx_registry l in
  let* _ := on_registry l (apply_map routerDefinition) in
  let* g := get in
  ret (ROUTE_REGISTRY_ref g).

(** [this.routerjs = new RouterJSRouter(); this.routerjs.map(..);
    this.SERVICES.router = this.routerjs]: the router is a fresh object
    configured with the tree. *)
Definition install_router (QUnit : bool) (routerJSRouteArray : list RouteNode) : M Global nat :=
  let* g := get in
  let id := next_ref g in
  let* _ := put (mkGlobal (heap g) (S id) (ROUTE_REGISTRY_ref g) (ctx_registry g) (gconsole g)
                  (<["router" := id]> (gSERVICES g))
                  (Some (id, new_RouterJSRouter QUnit, routerJSRouteArray))) in
  ret id.

(** [EmberXRouter.start(arrayOfRouteDefinitions, routeMap)]; [QUnit] is
    the test flag the new router reads. *)
Definition start (QUnit : bool) (arrayOfRouteDefinitions : list RouteDefinition)
    (routeMap : option MapFn) : M Global nat :=
  let* l0 := alloc ∅ in
  let* _ := set_ROUTE_REGISTRY l0 in
  let* routeMapRegistry := match routeMap with Some f => map f | None => alloc ∅ end in
  let* g := get in
  let registry := ROUTE_REGISTRY_ref g in
  let* _ := on_registry registry (definitionsToRegistry arrayOfRouteDefinitions) in
  let* target := object_assign routeMapRegistry registry in
  let* g' := get in
  match convertToRouterJSRouteArray (deref g' target) with
  | Ok routerJSRouteArray => install_router QUnit routerJSRouteArray
  | Throw e => throw e
  end.

End WithContext.

End Startup.

(** ** The DSL map context, from the spec

    [RouteMapContext] is not under src/.  The spec (4.2) says the user's
    callback makes nested [route] calls on the context, which record
    entries with the merge semantics of the registry builder.  A callback
    is modelled by the tree of calls it makes: [route(name, { path,
    route }, nested)] checks in [<prefix>.<name>] (its path defaulting to
    [/<name>]), gives a route with nested calls an index placeholder, and
    runs the nested calls under the new prefix. *)

Module DSL.
Import Names Registry RegistryFacts.

Local Unset Elimination Schemes.
Inductive MapCall :=
| MRoute (name : string) (options_path : option string) (handler : option Handler)
         (nested : list MapCall).
Local Set Elimination Schemes.

Section MapCall_nested_ind.
Variable P : MapCall → Prop.
Hypothesis HMRoute : ∀ name p h cs, Forall P cs → P (MRoute name p h cs).
Fixpoint MapCall_nested_ind (c : MapCall) : P c :=
  match c with
  | MRoute name p h cs =>
      HMRoute name p h cs ((fix go (l : list MapCall) : Forall P l :=
                              match l with
                              | [] => Forall_nil_2 P
                              | x :: l' => Forall_cons_2 P x l' (MapCall_nested_ind x) (go l')
                              end) cs)
  end.
End MapCall_nested_ind.

Fixpoint route_call (prefix : string) (c : MapCall) : M Static unit :=
  match c with
  | MRoute name p h nested =>
      let full := targetSegmentName prefix name in
      let* _ := checkInRouteRegistryOrCreateRoute (mkEntry full (default ("/" +:+ name) p) h) in
      let* st := get in
      let* _ :=
        if bool_decide (nested ≠ []) && bool_decide (ROUTE_REGISTRY st !! (full +:+ ".index") = None)
        then set_entry (full +:+ ".index") (index_entry full None) else ret tt in
      forEachM (route_call full) nested
  end.

(** Route names of the DSL are single, non-empty segments. *)
Fixpoint call_wf (c : MapCall) : bool :=
  match c with
  | MRoute name _ _ nested => truthy name && negb (has_char "." name) && forallb call_wf nested
  end.

Definition Callback : Type := { cs : list MapCall | forallb call_wf cs = true }.

Definition run_callback (f : Callback) : M Static unit := forEachM (route_call "") (proj1_sig f).

Lemma route_call_inv log P c : preserves (static_inv log) (route_call P c).
Proof.
  revert P. induction c as [name p h cs IH] using MapCall_nested_ind; intros P. simpl.
  apply preserves_bind; [apply checkIn_inv|intros _].
  apply preserves_bind; [apply preserves_get|intros st].
  apply preserves_bind; [|intros _; apply preserves_forEachM; intros c Hc; by eapply Forall_forall in IH].
  destruct (_ && _); [|apply preserves_ret]. by apply set_entry_preserves.
Qed.

Definition registered (k : string) (st : Static) : Prop := is_Some (ROUTE_REGISTRY st !! k).

Lemma checkIn_registered k t : preserves (registered k) (checkInRouteRegistryOrCreateRoute t).
Proof.
  intros st Hk. destruct (checkIn_run t st) as [_ Hr]. unfold registered. rewrite Hr.
  apply lookup_insert_is_Some'. by right.
Qed.

Lemma set_entry_registered k k' e : preserves (registered k) (set_entry k' e).
Proof. intros st Hk. unfold registered. simpl. apply lookup_insert_is_Some'. by right. Qed.

Lemma route_call_registered k P c : preserves (registered k) (route_call P c).
Proof.
  revert P. induction c as [name p h cs IH] using MapCall_nested_ind; intros P. simpl.
  apply preserves_bind; [apply checkIn_registered|intros _].
  apply preserves_bind; [apply preserves_get|intros st].
  apply preserves_bind; [|intros _; apply preserves_forEachM; intros c Hc; by eapply Forall_forall in IH].
  destruct (_ && _); [apply set_entry_registered|apply preserves_ret].
Qed.

Lemma route_call_never_throws P c : never_throws (route_call P c).
Proof.
  revert P. induction c as [name p h cs IH] using MapCall_nested_ind; intros P. simpl.
  apply never_throws_bind; [apply checkIn_never_throws|intros _].
  apply never_throws_bind; [apply never_throws_get|intros st].
  apply never_throws_bind; [destruct (_ && _); [apply never_throws_modify|apply never_throws_ret]|].
  intros _. apply never_throws_forEachM. intros c Hc. by eapply Forall_forall in IH.
Qed.

(** A name under a registered prefix (or a root name) keeps the registry
    prefix-closed. *)
Lemma closed_insert_child P name e reg :
  has_char "." name = false → (truthy P = true → is_Some (reg !! P)) → prefix_closed reg →
  prefix_closed (<[targetSegmentName P name := e]> reg).
Proof.
  intros Hn HP Hc. apply prefix_closed_insert; [done|]. intros Hne.
  unfold targetSegmentName in *. destruct (truthy P).
  - rewrite parent_segments_child by done. by apply HP.
  - by rewrite parent_segments_single in Hne.
Qed.

Lemma closed_insert_index full e reg :
  is_Some (reg !! full) → prefix_closed reg → prefix_closed (<[full +:+ ".index" := e]> reg).
Proof.
  intros Hf Hc. apply prefix_closed_insert; [done|]. intros _. by rewrite parent_index.
Qed.

Lemma route_call_closed P c :
  call_wf c = true →
  preserves (λ st, registry_prefix_closed st ∧ (truthy P = true → registered P st)) (route_call P c).
Proof.
  revert P. induction c as [name p h cs IH] using MapCall_nested_ind; intros P Hwf. simpl in Hwf.
  apply andb_true_iff in Hwf as [[Hn Hd]%andb_true_iff Hcs]. apply negb_true_iff in Hd.
  simpl. set (full := targetSegmentName P name).
  set (R st := registry_prefix_closed st ∧ (truthy P = true → registered P st) ∧ registered full st).
  apply (hoare_bind _ _ _ (λ _, R)).
  { intros st [Hc HP]. destruct (checkIn_run (mkEntry full (default ("/" +:+ name) p) h) st) as [-> Hr].
    simpl. unfold R, registry_prefix_closed, registered. rewrite Hr. simpl. split_and!.
    - by apply closed_insert_child.
    - intros Ht. apply lookup_insert_is_Some'. right. by apply HP.
    - apply lookup_insert_is_Some'. by left. }
  intros _. apply (hoare_bind _ _ _ (λ _, R)); [by apply hoare_get|intros st0].
  apply (hoare_bind _ _ _ (λ _, R)).
  { destruct (_ && _); [|by apply hoare_ret]. apply hoare_modify.
    intros st (Hc & HP & Hf). unfold R, registry_prefix_closed, registered. simpl. split_and!.
    - by apply closed_insert_index.
    - intros Ht. apply lookup_insert_is_Some'. right. by apply HP.
    - apply lookup_insert_is_Some'. by right. }
  intros _. apply (hoare_post _ _ (λ _, R)); [intros _ st (? & ? & ?); by split|].
  apply preserves_forEachM. intros c Hc st (Hcl & HP & Hf).
  apply forallb_elem_of with (x := c) in Hcs; [|done].
  assert (IHc : preserves (λ st, registry_prefix_closed st ∧ (truthy full = true → registered full st))
                  (route_call full c)) by (eapply Forall_forall in IH; [apply IH, Hcs|done]).
  destruct (IHc st (conj Hcl (λ _, Hf))) as [Hcl' _]. split_and!; [done| |].
  - intros Ht. apply (route_call_registered P full c st), HP, Ht.
  - apply (route_call_registered full full c st), Hf.
Qed.

Lemma run_callback_inv f log : preserves (static_inv log) (run_callback f).
Proof. apply preserves_forEachM. intros c _. apply route_call_inv. Qed.

Lemma run_callback_closed f : preserves registry_prefix_closed (run_callback f).
Proof.
  destruct f as [cs Hcs]. unfold run_callback. simpl. apply preserves_forEachM. intros c Hc st Hst.
  apply forallb_elem_of with (x := c) in Hcs; [|done].
  assert (Hpre : registry_prefix_closed st ∧ (truthy "" = true → registered "" st))
    by (split; [done|discriminate]).
  by destruct (route_call_closed "" c Hcs st Hpre).
Qed.

#[export] Instance dsl_context : MapContext := {
  MapFn := Callback;
  apply_map := run_callback;
  apply_map_inv := run_callback_inv;
  apply_map_closed := run_callback_closed;
}.

Lemma run_callback_never_throws f : never_throws (run_callback f).
Proof. apply never_throws_forEachM. intros c _. apply route_call_never_throws. Qed.

End DSL.

(** ** Theorems *)

Module StartupFacts.
Import Names Registry RegistryFacts Tree TreeFacts RouterService Startup.

Lemma deref_insert_eq h l r n rr c s sv rj :
  deref (mkGlobal (<[l := r]> h) n rr c s sv rj) l = r.
Proof. unfold deref. simpl. by rewrite lookup_insert_eq. Qed.

(** Lookups in a heap (or map) built by inserts at distinct identities. *)
Ltac heap_simpl :=
  unfold deref, set_heap; simpl; rewrite ?lookup_insert;
  repeat (case_decide; try (exfalso; first [lia | congruence])); simpl.

Section WithContext.
Context `{MapContext}.

(** The registry state before the definitions are registered: keys
    matching names, prefix-closed. *)
Definition good_static (log : list string) (st : Static) : Prop :=
  static_inv log st ∧ registry_prefix_closed st.

Lemma good_static_empty log : good_static log (mkStatic ∅ log).
Proof.
  split; [split; [apply map_Forall_empty|done]|].
  intros k [? Hk]. simpl in Hk. by rewrite lookup_empty in Hk.
Qed.

Lemma apply_map_good f log st : good_static log st → good_static log (apply_map f st).2.
Proof. intros [Hi Hc]. split; [by apply apply_map_inv|by apply apply_map_closed]. Qed.

(** Registering definitions that all have a path and well-formed index
    names from a good state: the registry is returned and stays good. *)
Lemma definitionsToRegistry_good defs log st :
  (∀ d, d ∈ defs → has_path d = true ∧ index_name_ok d) → good_static log st →
  (definitionsToRegistry defs st).1 = Ok (ROUTE_REGISTRY (definitionsToRegistry defs st).2) ∧
  good_static log (definitionsToRegistry defs st).2.
Proof.
  intros Hdefs [Hi Hc]. rewrite definitionsToRegistry_result.
  rewrite (proj2 (forallb_elem_of has_path defs)) by (intros d Hd; apply Hdefs, Hd).
  split; [done|]. split; [by apply definitionsToRegistry_inv|].
  apply (definitionsToRegistry_preserves_closed defs); [intros d Hd; apply Hdefs, Hd|done].
Qed.

Lemma good_static_tree log st :
  good_static log st → ∃ F, convertToRouterJSRouteArray (ROUTE_REGISTRY st) = Ok F ∧
                          tree_ok (ROUTE_REGISTRY st) F.
Proof.
  intros [[Hk _] Hc]. destruct (convert_inv (ROUTE_REGISTRY st) Hk Hc) as (F & HF & Hinv).
  exists F. split; [done|]. by apply tree_inv_tree_ok.
Qed.

(** What [start] does when its definitions and callback are good. *)
Lemma start_run QUnit defs routeMap g :
  (∀ d, d ∈ defs → has_path d = true ∧ index_name_ok d) →
  (∀ f, routeMap = Some f → never_throws (apply_map f)) →
  ∃ id F, (start QUnit defs routeMap g).1 = Ok id ∧
    routerjs (start QUnit defs routeMap g).2 = Some (id, new_RouterJSRouter QUnit, F) ∧
    gSERVICES (start QUnit defs routeMap g).2 !! "router" = Some id ∧
    tree_ok (deref (start QUnit defs routeMap g).2 (ROUTE_REGISTRY_ref (start QUnit defs routeMap g).2)) F.
Proof.
  intros Hdefs Hmap. unfold start, map, alloc, set_ROUTE_REGISTRY, set_ctx_registry, on_registry,
    object_assign, install_router. unfold_M.
  destruct routeMap as [f|]; unfold_M; [rewrite deref_insert_eq|].
  - pose proof (apply_map_good f (gconsole g) _ (good_static_empty (gconsole g))) as Hg1.
    destruct (Hmap f eq_refl (mkStatic ∅ (gconsole g))) as [u Hu].
    destruct (apply_map f (mkStatic ∅ (gconsole g))) as [o1 [r1 c1]] eqn:E1.
    simpl in Hu, Hg1. subst o1. simpl. rewrite deref_insert_eq.
    destruct (definitionsToRegistry_good defs _ _ Hdefs Hg1) as [Ho2 Hg2].
    destruct (definitionsToRegistry defs (mkStatic r1 c1)) as [o2 [r2 c2]] eqn:E2.
    simpl in Ho2, Hg2. subst o2. simpl. unfold set_heap. simpl.
    rewrite !deref_insert_eq, map_union_idemp.
    destruct (good_static_tree _ _ Hg2) as (F & HF & Hok). simpl in HF, Hok. rewrite HF.
    simpl. eexists _, F. split_and!; [done|done|by rewrite lookup_insert_eq|].
    by rewrite deref_insert_eq.
  - heap_simpl.
    destruct (definitionsToRegistry_good defs _ _ Hdefs (good_static_empty (gconsole g))) as [Ho2 Hg2].
    destruct (definitionsToRegistry defs (mkStatic ∅ (gconsole g))) as [o2 [r2 c2]] eqn:E2.
    simpl in Ho2, Hg2. subst o2. heap_simpl. rewrite map_union_empty.
    destruct (good_static_tree _ _ Hg2) as (F & HF & Hok). simpl in HF, Hok. rewrite HF.
    simpl. eexists _, F. split_and!; [done|done|heap_simpl; done|heap_simpl; done].
Qed.

(** C2: Startup is correct: when every definition has a path and an index
    name not starting with a dot, and the DSL callback (if any) does not
    throw, [start] does not throw; it installs a fresh router as
    [EmberXRouter.routerjs] and [SERVICES.router], configured with a tree
    that is exactly the final [ROUTE_REGISTRY] (in the sense of
    [tree_ok]). *)
Theorem start_correct QUnit defs routeMap g :
  (∀ d, d ∈ defs → has_path d = true ∧ index_name_ok d) →
  (∀ f, routeMap = Some f → never_throws (apply_map f)) →
  ∃ id F, (start QUnit defs routeMap g).1 = Ok id ∧
    routerjs (start QUnit defs routeMap g).2 = Some (id, new_RouterJSRouter QUnit, F) ∧
    gSERVICES (start QUnit defs routeMap g).2 !! "router" = Some id ∧
    tree_ok (deref (start QUnit defs routeMap g).2 (ROUTE_REGISTRY_ref (start QUnit defs routeMap g).2)) F.
Proof. apply start_run. Qed.

(** The registry state [definitionsToRegistry] starts from: an empty
    registry, or the one the DSL callback filled. *)
Definition pre_static (routeMap : option MapFn) (log : list string) : Static :=
  match routeMap with
  | None => mkStatic ∅ log
  | Some f => (apply_map f (mkStatic ∅ log)).2
  end.

(** C12: [start] rebuilds the registry: afterwards [ROUTE_REGISTRY] refers to a
    fresh object holding what the definitions add to an empty registry, or
    to the registry the DSL callback filled; the objects that existed
    before are not modified, whatever the outcome. *)
Theorem start_registry QUnit defs routeMap g :
  (∀ f, routeMap = Some f → never_throws (apply_map f)) →
  let g' := (start QUnit defs routeMap g).2 in
  deref g' (ROUTE_REGISTRY_ref g') =
    ROUTE_REGISTRY (definitionsToRegistry defs (pre_static routeMap (gconsole g))).2 ∧
  next_ref g ≤ ROUTE_REGISTRY_ref g' ∧
  (∀ l, l < next_ref g → heap g' !! l = heap g !! l).
Proof.
  intros Hmap. unfold start, map, alloc, set_ROUTE_REGISTRY, set_ctx_registry, on_registry,
    object_assign, install_router, pre_static. unfold_M.
  destruct routeMap as [f|]; unfold_M; heap_simpl.
  - destruct (Hmap f eq_refl (mkStatic ∅ (gconsole g))) as [u Hu].
    destruct (apply_map f (mkStatic ∅ (gconsole g))) as [o1 [r1 c1]] eqn:E1.
    simpl in Hu. subst o1. heap_simpl.
    destruct (definitionsToRegistry defs (mkStatic r1 c1)) as [[r2|e] [r2' c2]] eqn:E2;
      heap_simpl; [|split_and!; [done|lia|intros l Hl; heap_simpl; done]].
    destruct (convertToRouterJSRouteArray _); heap_simpl;
      (split_and!; [by rewrite map_union_idemp|lia|intros l Hl; heap_simpl; done]).
  - destruct (definitionsToRegistry defs (mkStatic ∅ (gconsole g))) as [[r2|e] [r2' c2]] eqn:E2;
      heap_simpl; [|split_and!; [done|lia|intros l Hl; heap_simpl; done]].
    destruct (convertToRouterJSRouteArray _); heap_simpl;
      (split_and!; [done|lia|intros l Hl; heap_simpl; done]).
Qed.

(** C14: A definition without a path makes [start] throw the missing-path
    error before a router is made: [EmberXRouter.routerjs] and
    [SERVICES] keep the previous router, while [ROUTE_REGISTRY] already
    refers to the new, partly built registry. *)
Theorem start_missing_path QUnit defs routeMap g d :
  d ∈ defs → has_path d = false →
  (∀ f, routeMap = Some f → never_throws (apply_map f)) →
  (start QUnit defs routeMap g).1 = Throw (JsError missing_path_message) ∧
  routerjs (start QUnit defs routeMap g).2 = routerjs g ∧
  gSERVICES (start QUnit defs routeMap g).2 = gSERVICES g.
Proof.
  intros Hd Hp Hmap.
  assert (Hf : forallb has_path defs = false) by (apply forallb_false_exists; eauto).
  unfold start, map, alloc, set_ROUTE_REGISTRY, set_ctx_registry, on_registry. unfold_M.
  destruct routeMap as [f|]; unfold_M; heap_simpl.
  - destruct (Hmap f eq_refl (mkStatic ∅ (gconsole g))) as [u Hu].
    destruct (apply_map f (mkStatic ∅ (gconsole g))) as [o1 [r1 c1]] eqn:E1.
    simpl in Hu. subst o1. heap_simpl.
    pose proof (definitionsToRegistry_result defs (mkStatic r1 c1)) as Hr. rewrite Hf in Hr.
    destruct (definitionsToRegistry defs (mkStatic r1 c1)) as [o2 st2]. simpl in Hr. by subst o2.
  - pose proof (definitionsToRegistry_result defs (mkStatic ∅ (gconsole g))) as Hr. rewrite Hf in Hr.
    destruct (definitionsToRegistry defs (mkStatic ∅ (gconsole g))) as [o2 st2]. simpl in Hr. by subst o2.
Qed.

(** C13: [map] resets the shared registry: it makes a fresh object, makes both
    [EmberXRouter.ROUTE_REGISTRY] and [RouteMapContext.ROUTE_REGISTRY]
    refer to it, records the callback's routes in it and returns it;
    earlier objects are untouched. *)
Theorem map_shared_registry f g :
  let g' := (map f g).2 in
  ROUTE_REGISTRY_ref g' = next_ref g ∧ ctx_registry g' = Some (next_ref g) ∧
  deref g' (next_ref g) = ROUTE_REGISTRY (apply_map f (mkStatic ∅ (gconsole g))).2 ∧
  (∀ l, l < next_ref g → heap g' !! l = heap g !! l) ∧
  ((apply_map f (mkStatic ∅ (gconsole g))).1 = Ok tt → (map f g).1 = Ok (next_ref g)).
Proof.
  unfold map, alloc, set_ROUTE_REGISTRY, set_ctx_registry, on_registry. unfold_M. heap_simpl.
  destruct (apply_map f (mkStatic ∅ (gconsole g))) as [[[]|e] [r c]]; heap_simpl;
    (split_and!; [done|done|done|intros l Hl; heap_simpl; done|done]).
Qed.

End WithContext.

(** *** Concrete runs, with the DSL of the spec *)

Import DSL.

(** A callback [this.route('posts', {}, function () { this.route('show',
    { path: '/:id' }) })]. *)
Definition posts_callback : Callback :=
  exist _ [MRoute "posts" None None [MRoute "show" (Some "/:id") None []]] eq_refl.

(** The state before the first [start]. *)
Definition initial_global : Global := mkGlobal ∅ 0 0 None [] ∅ None.

(** [start] with the spec's definitions and the DSL callback: the
    definitions are registered into the very object [map] filled, which
    the tree is built from. *)
Example start_scenario :
  (start false spec_definitions (Some posts_callback) initial_global).1 = Ok 2 ∧
  ROUTE_REGISTRY_ref (start false spec_definitions (Some posts_callback) initial_global).2 = 1 ∧
  ctx_registry (start false spec_definitions (Some posts_callback) initial_global).2 = Some 1 ∧
  dom (deref (start false spec_definitions (Some posts_callback) initial_global).2 1) =
    {[ "posts"; "posts.index"; "posts.show"; "index"; "users"; "users.index"; "users.edit" ]} ∧
  gSERVICES (start false spec_definitions (Some posts_callback) initial_global).2 !! "router" = Some 2 ∧
  (λ r : nat * Router * list RouteNode, node_name <$> r.2) <$>
    routerjs (start false spec_definitions (Some posts_callback) initial_global).2 =
    Some ["index"; "posts"; "users"].
Proof.
  split_and!; [vm_compute; reflexivity|vm_compute; reflexivity|vm_compute; reflexivity| |
                vm_compute; reflexivity|vm_compute; reflexivity].
  apply (bool_decide_unpack _). vm_compute. reflexivity.
Qed.

(** The spec's definitions have paths and well-formed index names, and
    the [posts] callback does not throw. *)
Lemma spec_definitions_good : ∀ d, d ∈ spec_definitions → has_path d = true ∧ index_name_ok d.
Proof.
  intros d Hd. unfold spec_definitions in Hd. split; [|intros p _ [? Hi]].
  - repeat (apply elem_of_cons in Hd as [->|Hd]; [reflexivity|]). by apply not_elem_of_nil in Hd.
  - repeat (apply elem_of_cons in Hd as [->|Hd]; [discriminate|]). by apply not_elem_of_nil in Hd.
Qed.

Lemma posts_callback_never_throws : ∀ f, Some posts_callback = Some f → never_throws (apply_map f).
Proof. intros f [= <-]. apply run_callback_never_throws. Qed.

Lemma start_correct_witness :
  ((∀ d, d ∈ spec_definitions → has_path d = true ∧ index_name_ok d) ∧
   (∀ f, Some posts_callback = Some f → never_throws (apply_map f))) ∧
  ∃ id F, (start false spec_definitions (Some posts_callback) initial_global).1 = Ok id ∧
    routerjs (start false spec_definitions (Some posts_callback) initial_global).2 =
      Some (id, new_RouterJSRouter false, F) ∧
    gSERVICES (start false spec_definitions (Some posts_callback) initial_global).2 !! "router" = Some id ∧
    tree_ok (deref (start false spec_definitions (Some posts_callback) initial_global).2
                   (ROUTE_REGISTRY_ref (start false spec_definitions (Some posts_callback) initial_global).2)) F.
Proof.
  pose proof spec_definitions_good as H1. pose proof posts_callback_never_throws as H2.
  split; [by split|]. exact (start_correct false spec_definitions (Some posts_callback) initial_global H1 H2).
Defined.

Lemma start_registry_witness :
  (∀ f, Some posts_callback = Some f → never_throws (apply_map f)) ∧
  let g' := (start false spec_definitions (Some posts_callback) initial_global).2 in
  deref g' (ROUTE_REGISTRY_ref g') =
    ROUTE_REGISTRY (definitionsToRegistry spec_definitions
                      (pre_static (Some posts_callback) (gconsole initial_global))).2 ∧
  next_ref initial_global ≤ ROUTE_REGISTRY_ref g' ∧
  (∀ l, l < next_ref initial_global → heap g' !! l = heap initial_global !! l).
Proof.
  assert (H2 : ∀ f, Some posts_callback = Some f → never_throws (apply_map f)).
  { intros f [= <-]. apply run_callback_never_throws. }
  split; [done|]. exact (start_registry false spec_definitions (Some posts_callback) initial_global H2).
Defined.

(** A definition without a path. *)
Definition pathless_definition : RouteDefinition :=
  {| def_path := None; def_routeName := Some "about"; def_route := None; def_indexRoute := None |}.

Lemma start_missing_path_witness :
  (pathless_definition ∈ [pathless_definition] ∧ has_path pathless_definition = false ∧
   (∀ f, @None Callback = Some f → never_throws (apply_map f))) ∧
  (start false [pathless_definition] None initial_global).1 = Throw (JsError missing_path_message) ∧
  routerjs (start false [pathless_definition] None initial_global).2 = routerjs initial_global ∧
  gSERVICES (start false [pathless_definition] None initial_global).2 = gSERVICES initial_global.
Proof.
  assert (H1 : pathless_definition ∈ [pathless_definition]) by (apply list_elem_of_singleton; done).
  assert (H3 : ∀ f, @None Callback = Some f → never_throws (apply_map f)) by discriminate.
  split; [done|]. exact (start_missing_path false _ None initial_global _ H1 eq_refl H3).
Defined.

End StartupFacts.
