(* ===== verification/Route.v ===== *)
(** * The route class (route.ts: [Route])

    [Route] is the default handler ([DefaultRoute] of [getRoute]).  Its
    static hooks read the router service ([modelFor]), render into the DOM
    ([setup]) and cast query-parameter values
    ([castCorrectValueFromString], [nilifyStrings], used by
    [events.finalizeQueryParamChange]).  JavaScript numbers are binary64
    values of the Standard Library's [SpecFloat] ([prec = 53],
    [emax = 1024]); [Number(string)] and [parseInt(string, 10)] follow
    the ECMAScript grammar of numeric strings, on 7-bit ASCII.  Module
    [RouteSpec] describes what the query-parameter loop leaves behind, and
    [RouteFacts] proves the hooks against it. *)

From Stdlib Require Import Ascii String ZArith SpecFloat.
From stdpp Require Import base list gmap strings pretty.
From S2P Require Import Prelude Names Registry RouterService.
Open Scope stdpp_scope.
Open Scope js_scope.

(** ** JavaScript numbers from strings *)

Module JsNumber.

Definition number : Type := spec_float.

(** binary64. *)
Definition prec : Z := 53.
Definition emax : Z := 1024.

(** [ToBoolean] of a number: [+0], [-0] and [NaN] are falsy. *)
Definition num_truthy (x : number) : bool :=
  match x with S754_zero _ | S754_nan => false | _ => true end.

(** The white space [String.prototype.trim] and [Number] skip (the
    ASCII part of WhiteSpace and LineTerminator). *)
Definition is_ws (c : ascii) : bool :=
  bool_decide (nat_of_ascii c ∈ [9; 10; 11; 12; 13; 32]%nat).

Fixpoint trim_start (l : list ascii) : list ascii :=
  match l with
  | c :: l' => if is_ws c then trim_start l' else l
  | [] => []
  end.

Definition trim (l : list ascii) : list ascii := reverse (trim_start (reverse (trim_start l))).

(** The value of a digit in base [b] (up to 16). *)
Definition digit_val (b : N) (c : ascii) : option N :=
  let n := N_of_ascii c in
  let v := if (48 <=? n)%N && (n <=? 57)%N then Some (n - 48)%N
           else if (97 <=? n)%N && (n <=? 102)%N then Some (n - 87)%N
           else if (65 <=? n)%N && (n <=? 70)%N then Some (n - 55)%N
           else None in
  match v with Some d => if (d <? b)%N then Some d else None | None => None end.

(** The longest prefix of digits in base [b]: their number, their value
    and the rest. *)
Fixpoint digits (b : N) (l : list ascii) (n : nat) (acc : N) : nat * N * list ascii :=
  match l with
  | c :: l' => match digit_val b c with
               | Some d => digits b l' (S n) (acc * b + d)%N
               | None => (n, acc, l)
               end
  | [] => (n, acc, [])
  end.

(** A numeric literal: [±Infinity], a decimal [±m × 10^k], or a
    non-decimal integer ([0x], [0o], [0b]). *)
Inductive literal :=
| LInfinity (neg : bool)
| LDecimal (neg : bool) (m : N) (k : Z)
| LInteger (n : N).

Definition str_list (s : string) : list ascii := list_ascii_of_string s.

(** The optional exponent part [e±digits] of a decimal literal; the whole
    rest must be consumed. *)
Definition exponent (l : list ascii) : option Z :=
  match l with
  | [] => Some 0%Z
  | c :: l' =>
      if decide (c = "e"%char ∨ c = "E"%char) then
        let '(neg, l'') := match l' with
                           | "+"%char :: r => (false, r)
                           | "-"%char :: r => (true, r)
                           | _ => (false, l')
                           end in
        match digits 10 l'' 0 0 with
        | (S _, v, []) => Some (if neg then - Z.of_N v else Z.of_N v)%Z
        | _ => None
        end
      else None
  end.

(** StrUnsignedDecimalLiteral: [Infinity], [digits[.digits]][exp] or
    [.digits][exp], with at least one digit. *)
Definition unsigned_decimal (neg : bool) (l : list ascii) : option literal :=
  if decide (l = str_list "Infinity") then Some (LInfinity neg) else
  let '(n1, v1, r1) := digits 10 l 0 0 in
  let '(n2, v2, r2) :=
    match r1 with
    | "."%char :: r => digits 10 r 0 v1
    | _ => (0%nat, v1, r1)
    end in
  if decide (n1 + n2 = 0)%nat then None else
  e ← exponent r2; Some (LDecimal neg v2 (e - Z.of_nat n2)%Z).

(** StringNumericLiteral after trimming. *)
Definition numeric_literal (l : list ascii) : option literal :=
  match l with
  | "0"%char :: c :: r =>
      let base := if decide (c = "x"%char ∨ c = "X"%char) then Some 16%N
                  else if decide (c = "o"%char ∨ c = "O"%char) then Some 8%N
                  else if decide (c = "b"%char ∨ c = "B"%char) then Some 2%N
                  else None in
      match base with
      | Some b => match digits b r 0 0 with
                  | (S _, v, []) => Some (LInteger v)
                  | _ => None
                  end
      | None => unsigned_decimal false l
      end
  | "+"%char :: r => unsigned_decimal false r
  | "-"%char :: r => unsigned_decimal true r
  | _ => unsigned_decimal false l
  end.

(** The binary64 value nearest [±m × 10^k] (round to nearest, ties to
    even), by one rounding of the exact quotient for [k < 0]. *)
Definition round_decimal (neg : bool) (m : N) (k : Z) : number :=
  match m with
  | N0 => S754_zero neg
  | Npos p =>
      if (0 <=? k)%Z then binary_normalize prec emax ((if neg then Zneg p else Zpos p) * 10 ^ k)%Z 0 neg
      else
        let '(mz, ez, lz) := SFdiv_core_binary prec emax (Zpos p) 0 (Zpos (10 ^ Z.to_pos (- k))) 0 in
        binary_round_aux prec emax neg mz ez lz
  end.

(** [Number(s)] for a string: [StringToNumber]. *)
Definition Number (s : string) : number :=
  let l := trim (str_list s) in
  if decide (l = []) then S754_zero false else
  match numeric_literal l with
  | Some (LInfinity neg) => S754_infinity neg
  | Some (LDecimal neg m k) => round_decimal neg m k
  | Some (LInteger n) => round_decimal false n 0
  | None => S754_nan
  end.

(** [parseInt(s, 10)]: leading white space, an optional sign, the longest
    prefix of decimal digits ([NaN] when there is none). *)
Definition parseInt (s : string) : number :=
  let l := trim_start (str_list s) in
  let '(neg, l') := match l with
                    | "+"%char :: r => (false, r)
                    | "-"%char :: r => (true, r)
                    | _ => (false, l)
                    end in
  match digits 10 l' 0 0 with
  | (O, _, _) => S754_nan
  | (S _, v, _) => round_decimal neg v 0
  end.

End JsNumber.

(** ** The route class *)

Module Route.
Import Names Registry RouterService JsNumber.

(** A JavaScript value as the route hooks see it: objects and arrays by
    their properties, in creation order. *)
Inductive JsVal :=
| JUndefined
| JNull
| JBool (b : bool)
| JNum (x : number)
| JStr (s : string)
| JArr (elems : list JsVal)
| JObj (props : list (string * JsVal)).

(** [ToBoolean]. *)
Definition js_truthy (v : JsVal) : bool :=
  match v with
  | JUndefined | JNull => false
  | JBool b => b
  | JNum x => num_truthy x
  | JStr s => truthy s
  | JArr _ | JObj _ => true
  end.

(** A query-parameter value as router_js parses it from the URL: a string,
    or an array (for [key[]=..]). *)
Inductive QueryValue :=
| QStr (s : string)
| QArr (elems : list QueryValue).

(** [Object.keys(value).reduce((object, key) => Object.assign(object,
    { [key]: .. }), {})]: the new object has the keys in [Object.keys]
    order. *)
Definition reorder_keys (o : list (string * JsVal)) : list (string * JsVal) :=
  omap (λ k, (λ v, (k, v)) <$> prop_get o k) (object_keys o).

(** [nilifyStrings(value)]: objects (arrays included, whose keys are the
    indices) are rebuilt with their values nilified; [''] becomes [null]. *)
Fixpoint nilifyStrings (value : JsVal) : JsVal :=
  match value with
  | JArr elems =>
      JObj (reorder_keys (zip ((λ i : nat, pretty i) <$> seq 0 (length elems))
                              (map nilifyStrings elems)))
  | JObj props => JObj (reorder_keys (map (λ kv, (kv.1, nilifyStrings kv.2)) props))
  | JStr s => if decide (s = "") then JNull else value
  | _ => value
  end.

(** [castCorrectValueFromString(value)]. *)
Fixpoint castCorrectValueFromString (value : QueryValue) : JsVal :=
  match value with
  | QArr elems => JArr (map castCorrectValueFromString elems)
  | QStr s =>
      if num_truthy (Number s) && num_truthy (parseInt s) then JNum (Number s)
      else if decide (s = "false") then JBool false
      else if decide (s = "true") then JBool true
      else if decide (s ∈ ["null"; "undefined"]) then JNull
      else nilifyStrings (JStr s)
  end.

(** *** [modelFor] *)

(** The fields of the engine's active transition [modelFor] reads. *)
Record ActiveTransition := mkActive {
  resolvedModels : list (string * JsVal);
}.

Definition not_found_message (routeKey : string) : string :=
  "@emberx/router Route: " +:+ routeKey +:+ " not found on current transition!".

Section Hooks.
(** [router.activeTransition] of the router object with a given identity:
    state of the engine. *)
Variable activeTransition : nat → option ActiveTransition.

(** [static modelFor(routeKey)] called on the route class [this]:
    [this.router] is the property [getRoute] assigned from [SERVICES]. *)
Definition modelFor (this : Handler) (routeKey : string) : M World JsVal :=
  let* w := get in
  match props w !! handler_ref this ≫= (.!! "router") with
  | None => throw (undefined_read "activeTransition")
  | Some r =>
      match activeTransition r ≫= λ t, prop_get (resolvedModels t) routeKey with
      | Some m => if js_truthy m then ret m else throw (JsError (not_found_message routeKey))
      | None => throw (JsError (not_found_message routeKey))
      end
  end.

End Hooks.

(** *** The base class's other static hooks *)

(** [static getParams()] and [static getQueryParams()]: a fresh [{}] (the
    code's TODO). *)
Definition getParams : JsVal := JObj [].
Definition getQueryParams : JsVal := JObj [].

(** [static model()]: the model hook of a route class that does not
    override it, a fresh [{}]. *)
Definition model : JsVal := JObj [].

(** The hooks [enter] and [exit] call on [this]: a subclass may override
    [activate] and [deactivate]; the base class's are empty. *)
Record RouteClassHooks (S : Type) := mkRouteClassHooks {
  activate : M S unit;
  deactivate : Transition → M S unit;
}.
Arguments activate {S}. Arguments deactivate {S}.

Definition base_hooks {S} : RouteClassHooks S := mkRouteClassHooks S (ret tt) (λ _, ret tt).

(** [static enter() { this.activate(); }] and
    [static exit(transition) { this.deactivate(transition); }]. *)
Definition enter {S} (this : RouteClassHooks S) : M S unit := activate this.
Definition exit {S} (this : RouteClassHooks S) (transition : Transition) : M S unit :=
  deactivate this transition.

(** The instance getter [get routeName()]: [currentRouteName] of the
    injected router service. *)
Definition routeName_getter (service : Router) : option string := currentRouteName service.

(** *** [setup] *)

(** The part of the DOM [setup] touches: elements by id and what each
    element shows, nothing ([innerHTML = '']) or a rendered route
    component with its [model] argument. *)
Inductive Content :=
| Cleared
| Rendered (component : Handler) (model : JsVal).

Record Document := mkDocument {
  byId : gmap string nat;
  content : gmap nat Content;
}.

Record Page := mkPage {
  document : Document;
  pconsole : list string;
}.

(** The fields of the transition [setup] reads. *)
Record SetupTransition := mkSetupTransition {
  targetName : string;
  st_routeInfos : list RouteInfo;
}.

Definition no_container_message : string :=
  "#app or #ember-testing not found for the @emberx/router to boot/render the application!".

Definition page_log (msg : string) : M Page unit :=
  modify (λ p, mkPage (document p) (pconsole p ++ [msg])).

Definition set_content (el : nat) (c : Content) : M Page unit :=
  modify (λ p, mkPage (mkDocument (byId (document p)) (<[el := c]> (content (document p)))) (pconsole p)).

(** [containerElement.innerHTML = '']. *)
Definition clear (el : nat) : M Page unit := set_content el Cleared.

(** [renderComponent(this, { element, args: { model, .. }, owner })]. *)
Definition renderComponent (this : Handler) (el : nat) (model : JsVal) : M Page unit :=
  set_content el (Rendered this model).

(** [QUnit ? '#ember-testing' : '#app'], the id of the container element. *)
Definition container_id (QUnit : bool) : string := if QUnit then "ember-testing" else "app".

(** [static async setup(model, transition)] on the route class [this];
    [LOG_MODELS] and [QUnit] are the global flags it reads.  The logged
    objects are left out of the console lines. *)
Definition setup (LOG_MODELS QUnit : bool) (this : Handler) (model : JsVal)
    (transition : SetupTransition) : M Page unit :=
  let* _ := if LOG_MODELS then
              let* _ := page_log ("'" +:+ targetName transition +:+ "' Route[model] is") in
              page_log ("'" +:+ targetName transition +:+ "' Route[transition] is")
            else ret tt in
  let* p := get in
  match byId (document p) !! container_id QUnit with
  | None => throw (JsError no_container_message)
  | Some containerElement =>
      let* _ := clear containerElement in
      match last (st_routeInfos transition) with
      | None => throw (undefined_read "_route")
      | Some ri =>
          if decide (ri_route ri = Some this)
          then renderComponent this containerElement (if js_truthy model then model else JObj [])
          else ret tt
      end
  end.

(** *** [events.finalizeQueryParamChange] *)

(** The objects it mutates: [queryParams] (an object, in key order),
    [finalQueryParams] (an array, whose deleted elements become holes)
    and [this.router.queryParams] (absent when the router has no such
    property). *)
Record QPState := mkQPState {
  queryParams : list (string * QueryValue);
  finalQueryParams : list (option (string * JsVal));
  routerQueryParams : option (list (string * JsVal));
  qconsole : list string;
}.

(** [console.log] (the logged objects are left out of the line). *)
Definition qp_log (msg : string) : M QPState unit :=
  modify (λ s, mkQPState (queryParams s) (finalQueryParams s) (routerQueryParams s) (qconsole s ++ [msg])).

(** The TypeError of [delete] or [Object.assign] on [undefined]. *)
Definition undefined_object : exn := JsTypeError "Cannot convert undefined or null to object".

(** [delete o[key]] and [Object.assign(o, { [key]: v })] on an object. *)
Definition obj_delete {A} (key : string) (o : list (string * A)) : list (string * A) :=
  filter (λ kv, kv.1 ≠ key) o.
Definition obj_set {A} (key : string) (v : A) (o : list (string * A)) : list (string * A) :=
  if decide (key ∈ o.*1) then (λ kv, if decide (kv.1 = key) then (key, v) else kv) <$> o
  else o ++ [(key, v)].

(** [delete array[key]] in strict mode (class bodies are strict): a hole
    at an index key, nothing for another key the array does not own, and
    a TypeError for its own non-configurable [length]. *)
Definition delete_length_error : exn := JsTypeError "Cannot delete property 'length' of [object Array]".

Definition arr_delete {A} (key : string) (a : list (option A)) : option (list (option A)) :=
  if decide (key = "length") then None
  else match array_index key with
       | Some i => Some (<[N.to_nat i := None]> a)
       | None => Some a
       end.

(** One iteration of [for (let key in queryParams)]. *)
Definition finalizeStep (key : string) : M QPState unit :=
  let* s := get in
  match prop_get (queryParams s) key with
  | None => ret tt
  | Some raw =>
      let value := castCorrectValueFromString raw in
      match value with
      | JNull =>
          let* _ := put (mkQPState (obj_delete key (queryParams s)) (finalQueryParams s)
                                   (routerQueryParams s) (qconsole s)) in
          match arr_delete key (finalQueryParams s) with
          | None => throw delete_length_error
          | Some final' =>
              let* _ := modify (λ s', mkQPState (queryParams s') final' (routerQueryParams s') (qconsole s')) in
              match routerQueryParams s with
              | None => throw undefined_object
              | Some rq => modify (λ s', mkQPState (queryParams s') (finalQueryParams s')
                                                   (Some (obj_delete key rq)) (qconsole s'))
              end
          end
      | _ =>
          match routerQueryParams s with
          | None => throw undefined_object
          | Some rq => put (mkQPState (queryParams s) (finalQueryParams s ++ [Some (key, value)])
                                      (Some (obj_set key value rq)) (qconsole s))
          end
      end
  end.

(** [finalizeQueryParamChange(queryParams, finalQueryParams)]: three
    console lines, then the loop over the keys [queryParams] has when it
    starts (a deleted key is not visited again). *)
Definition finalizeQueryParamChange : M QPState bool :=
  let* _ := qp_log "finalizeQueryParamChange call" in
  let* _ := qp_log "queryParams:" in
  let* _ := qp_log "finalQueryParams:" in
  let* s := get in
  let* _ := forEachM finalizeStep (object_keys (queryParams s)) in
  ret true.

(** [queryParamsDidChange(changed, all)]. *)
Definition queryParamsDidChange : M QPState bool :=
  let* _ := qp_log "queryParamsDidChange changed: all:" in
  ret true.

End Route.

(** ** What the hooks leave behind

    Reference descriptions of the effects of [setup] and of the loop of
    [finalizeQueryParamChange], in terms of the input alone. *)

Module RouteSpec.
Import RouterService JsNumber Route.

(** The console lines of [setup]. *)
Definition setup_log (LOG_MODELS : bool) (tr : SetupTransition) : list string :=
  if LOG_MODELS then ["'" +:+ targetName tr +:+ "' Route[model] is";
                      "'" +:+ targetName tr +:+ "' Route[transition] is"] else [].

(** [value === null] for a cast value. *)
Definition is_null (v : JsVal) : bool := match v with JNull => true | _ => false end.

(** A query parameter the loop keeps: its cast value is not [null]. *)
Definition kept (kv : string * QueryValue) : bool := negb (is_null (castCorrectValueFromString kv.2)).

(** The entries [finalQueryParams.push({ key, value })] appends for the
    bindings [l], in order. *)
Definition pushed (l : list (string * QueryValue)) : list (option (string * JsVal)) :=
  (λ kv, Some (kv.1, castCorrectValueFromString kv.2)) <$> filter (λ kv, kept kv = true) l.

(** [this.router.queryParams] after the loop has visited the bindings [l]. *)
Definition router_after (rq : list (string * JsVal)) (l : list (string * QueryValue)) :
    list (string * JsVal) :=
  foldl (λ rq kv, if kept kv then obj_set kv.1 (castCorrectValueFromString kv.2) rq
                  else obj_delete kv.1 rq) rq l.

(** A query parameter whose name is not an array index and, when it is
    deleted, not [length] (whose [delete] on the array throws). *)
Definition plain_param (kv : string * QueryValue) : bool :=
  bool_decide (array_index kv.1 = None) && (bool_decide (kv.1 ≠ "length") || kept kv).

(** The parameter [k] is present and its cast value is [null], so that
    [finalizeQueryParamChange] deletes it. *)
Definition null_param (q : list (string * QueryValue)) (k : string) : bool :=
  match prop_get q k with
  | Some v => is_null (castCorrectValueFromString v)
  | None => false
  end.

Definition finalize_log : list string :=
  ["finalizeQueryParamChange call"; "queryParams:"; "finalQueryParams:"].

End RouteSpec.

(** ** Theorems *)

Module RouteFacts.
Import Names Registry RouterService RouterServiceFacts JsNumber Route RouteSpec.

(** *** Query-parameter casting *)

Lemma Number_keywords :
  Number "false" = S754_nan ∧ Number "true" = S754_nan ∧
  Number "null" = S754_nan ∧ Number "undefined" = S754_nan.
Proof. split_and!; reflexivity. Qed.

Lemma nilify_string s : nilifyStrings (JStr s) = if decide (s = "") then JNull else JStr s.
Proof. done. Qed.

(** C29: A string whose [Number] is zero ([0], [-0], [0.00], [ 0 ], ..) is not
    cast to a number: it stays the same string. *)
Theorem cast_zero_stays_string s b :
  Number s = S754_zero b →
  castCorrectValueFromString (QStr s) = if decide (s = "") then JNull else JStr s.
Proof.
  intros Hs. simpl. rewrite Hs. simpl. pose proof Number_keywords as (H1 & H2 & H3 & H4).
  destruct (decide (s = "false")) as [->|]; [congruence|].
  destruct (decide (s = "true")) as [->|]; [congruence|].
  destruct (decide (s ∈ ["null"; "undefined"])) as [Hin|]; [|done].
  repeat (apply elem_of_cons in Hin as [->|Hin]; [congruence|]). by apply not_elem_of_nil in Hin.
Qed.

(** A decimal fraction [0.<digits>] is not cast to a number either:
    [parseInt] reads its integer part [0]. *)
Theorem cast_fraction_stays_string s l :
  str_list s = "0"%char :: "."%char :: l → castCorrectValueFromString (QStr s) = JStr s.
Proof.
  intros Hs. assert (Hp : parseInt s = S754_zero false) by (unfold parseInt; by rewrite Hs).
  simpl. rewrite Hp, andb_false_r.
  destruct (decide (s = "false")) as [->|]; [discriminate|].
  destruct (decide (s = "true")) as [->|]; [discriminate|].
  destruct (decide (s ∈ ["null"; "undefined"])) as [Hin|].
  { repeat (apply elem_of_cons in Hin as [->|Hin]; [discriminate|]). by apply not_elem_of_nil in Hin. }
  by destruct s.
Qed.

Lemma trim_start_suffix l : suffix (trim_start l) l.
Proof.
  induction l as [|c l IH]; simpl; [done|]. destruct (is_ws c); [|done].
  by apply suffix_cons_r.
Qed.

Lemma digits_no_digit b l n acc :
  (match l with c :: _ => digit_val b c = None | [] => True end) → digits b l n acc = (n, acc, l).
Proof. destruct l as [|c l]; simpl; [done|]. by intros ->. Qed.

(** [parseInt] of a string without decimal digits is [NaN]. *)
Lemma parseInt_no_digit s :
  Forall (λ c, digit_val 10 c = None) (str_list s) → parseInt s = S754_nan.
Proof.
  intros Hs. unfold parseInt.
  assert (Ht : Forall (λ c, digit_val 10 c = None) (trim_start (str_list s))).
  { destruct (trim_start_suffix (str_list s)) as [p Hp]. rewrite Hp in Hs.
    by apply Forall_app in Hs as [_ ?]. }
  destruct (trim_start (str_list s)) as [|c r]; [done|].
  apply Forall_cons in Ht as [Hc Hr].
  assert (Hd : ∀ l, Forall (λ c, digit_val 10 c = None) l →
                    digits 10 l 0 0 = (0%nat, 0%N, l)).
  { intros [|c' l'] Hl; [done|]. apply Forall_cons in Hl as [Hc' _]. by apply digits_no_digit. }
  by destruct c as [[] [] [] [] [] [] [] []]; rewrite ?Hd by (try apply Forall_cons; done).
Qed.

(** A value without decimal digits is passed through: the keywords
    become booleans or [null], [''] becomes [null], any other string is
    kept. *)
Theorem cast_no_digit s :
  Forall (λ c, digit_val 10 c = None) (str_list s) →
  castCorrectValueFromString (QStr s) =
  if decide (s = "false") then JBool false
  else if decide (s = "true") then JBool true
  else if decide (s ∈ ["null"; "undefined"]) then JNull
  else if decide (s = "") then JNull else JStr s.
Proof. intros Hs. simpl. by rewrite parseInt_no_digit, andb_false_r. Qed.

(** *** [modelFor] *)

Section ModelFor.
Variable activeTransition : nat → option ActiveTransition.

(** [modelFor] on a route class that carries the router [r]: the model
    the active transition of [r] resolved for the key, when truthy. *)
Lemma modelFor_router this key w r :
  props w !! handler_ref this ≫= (.!! "router") = Some r →
  modelFor activeTransition this key w =
  (match activeTransition r ≫= λ t, prop_get (resolvedModels t) key with
   | Some m => if js_truthy m then Ok m else Throw (JsError (not_found_message key))
   | None => Throw (JsError (not_found_message key))
   end, w).
Proof.
  intros Hr. unfold modelFor. unfold_M. rewrite Hr.
  destruct (activeTransition r ≫= _) as [m|]; [|done]. by destruct (js_truthy m).
Qed.

(** C28: A model that resolved to a falsy value ([0], [''], [false], [null])
    is reported as not found: [modelFor] throws although the transition
    holds it. *)
Theorem modelFor_falsy_model this key w r t m :
  props w !! handler_ref this ≫= (.!! "router") = Some r → activeTransition r = Some t →
  prop_get (resolvedModels t) key = Some m → js_truthy m = false →
  modelFor activeTransition this key w = (Throw (JsError (not_found_message key)), w).
Proof. intros Hr Ht Hm Hf. rewrite (modelFor_router _ _ _ r Hr), Ht. simpl. by rewrite Hm, Hf. Qed.


(** C27: After [getRoute(name)], the handler it returned reads the models of
    the active transition of [SERVICES.router]. *)
Theorem modelFor_after_getRoute name e w r t key m :
  ROUTE_REGISTRY (wstatic w) !! name = Some e → SERVICES w !! "router" = Some r →
  activeTransition r = Some t → prop_get (resolvedModels t) key = Some m → js_truthy m = true →
  let w' := (getRoute name w).2 in
  modelFor activeTransition (default DefaultRoute (route e)) key w' = (Ok m, w').
Proof.
  intros He Hr Ht Hm Hmt w'. destruct (getRoute_assigns name e w He) as [_ Hw].
  rewrite (modelFor_router _ _ _ r (Hw _ _ Hr)), Ht. simpl. by rewrite Hm, Hmt.
Qed.

End ModelFor.

(** *** [setup] *)

(** Reduces the monad and the page's projections, leaving map lookups and
    string literals alone. *)
Ltac page_simpl := unfold bind, ret, get, modify, throw; cbn [document pconsole byId content].

(** The state [setup] leaves when the container exists. *)
Lemma setup_run LOG_MODELS QUnit this model tr p el ri :
  byId (document p) !! container_id QUnit = Some el → last (st_routeInfos tr) = Some ri →
  setup LOG_MODELS QUnit this model tr p =
  (Ok tt, mkPage (mkDocument (byId (document p))
                    (<[el := if decide (ri_route ri = Some this)
                             then Rendered this (if js_truthy model then model else JObj [])
                             else Cleared]> (content (document p))))
                 (pconsole p ++ setup_log LOG_MODELS tr)).
Proof.
  intros Hel Hri. unfold setup, setup_log, page_log, clear, renderComponent, set_content.
  destruct LOG_MODELS; page_simpl; rewrite Hel; page_simpl; rewrite Hri; case_decide; page_simpl.
  - rewrite (insert_insert_eq (content (document p))), <-app_assoc; reflexivity.
  - rewrite <-app_assoc; reflexivity.
  - rewrite (insert_insert_eq (content (document p))), app_nil_r; reflexivity.
  - rewrite app_nil_r; reflexivity.
Qed.

(** C26: [setup] of the leaf route renders it into the container, with [{}]
    for a falsy model; [setup] of any other route of the transition
    empties the container and renders nothing.  No other element
    changes, and the console gets the two model lines under
    [LOG_MODELS]. *)
Theorem setup_spec LOG_MODELS QUnit this model tr p el ri :
  byId (document p) !! container_id QUnit = Some el → last (st_routeInfos tr) = Some ri →
  (setup LOG_MODELS QUnit this model tr p).1 = Ok tt ∧
  byId (document (setup LOG_MODELS QUnit this model tr p).2) = byId (document p) ∧
  content (document (setup LOG_MODELS QUnit this model tr p).2) =
    <[el := if decide (ri_route ri = Some this)
            then Rendered this (if js_truthy model then model else JObj [])
            else Cleared]> (content (document p)) ∧
  pconsole (setup LOG_MODELS QUnit this model tr p).2 = pconsole p ++ setup_log LOG_MODELS tr.
Proof. intros Hel Hri. by rewrite (setup_run _ _ _ _ _ _ el ri). Qed.

(** Without its container element, [setup] rejects with the boot
    error after the log lines. *)
Theorem setup_no_container LOG_MODELS QUnit this model tr p :
  byId (document p) !! container_id QUnit = None →
  (setup LOG_MODELS QUnit this model tr p).1 = Throw (JsError no_container_message).
Proof.
  intros Hel. unfold setup, page_log.
  by destruct LOG_MODELS; page_simpl; rewrite Hel.
Qed.

(** *** [events.finalizeQueryParamChange] *)

Lemma prop_get_None {A} (o : list (string * A)) k : prop_get o k = None ↔ k ∉ o.*1.
Proof.
  induction o as [|[k' v] o IH]; simpl; [set_solver|].
  case_decide; simplify_eq/=; [set_solver|]. rewrite IH. set_solver.
Qed.

Lemma prop_get_app {A} (o1 o2 : list (string * A)) k :
  prop_get (o1 ++ o2) k = match prop_get o1 k with Some v => Some v | None => prop_get o2 k end.
Proof. induction o1 as [|[k' v] o1 IH]; simpl; [done|]. by case_decide. Qed.

Lemma prop_get_obj_delete {A} (o : list (string * A)) k k' :
  prop_get (obj_delete k o) k' = if decide (k = k') then None else prop_get o k'.
Proof.
  unfold obj_delete in *. induction o as [|[k'' v] o IH]; [by case_decide|].
  destruct (decide (k'' = k)) as [->|Hk].
  - rewrite filter_cons_False by (simpl; tauto). rewrite IH. simpl. by repeat case_decide.
  - rewrite filter_cons_True by done. simpl. rewrite IH. by repeat case_decide; subst.
Qed.

Lemma prop_get_obj_set {A} (o : list (string * A)) k v k' :
  prop_get (obj_set k v o) k' = if decide (k = k') then Some v else prop_get o k'.
Proof.
  unfold obj_set. case_decide as Hin.
  - assert (Hs : is_Some (prop_get o k)).
    { apply not_eq_None_Some. intros Hn. by apply prop_get_None in Hn. }
    assert (Hr : ∀ o' : list (string * A),
      prop_get ((λ kv, if decide (kv.1 = k) then (k, v) else kv) <$> o') k' =
      if decide (k = k') then (λ _, v) <$> prop_get o' k else prop_get o' k').
    { induction o' as [|[k'' w] o' IH]; [by case_decide|].
      rewrite fmap_cons. cbn [prop_get fst snd]. rewrite IH.
      destruct (decide (k'' = k)) as [->|Hne]; cbn [fst snd]; by repeat case_decide; subst. }
    rewrite Hr. case_decide; [|done]. by destruct Hs as [? ->].
  - rewrite prop_get_app. destruct (prop_get o k') eqn:Hg.
    + case_decide; [|done]. subst. apply prop_get_None in Hin. congruence.
    + simpl. by repeat case_decide.
Qed.

Lemma obj_delete_app_notin {A} (o1 o2 : list (string * A)) k v :
  k ∉ o1.*1 → k ∉ o2.*1 → obj_delete k (o1 ++ (k, v) :: o2) = o1 ++ o2.
Proof.
  intros H1 H2. unfold obj_delete. rewrite filter_app, filter_cons_False by (simpl; tauto).
  assert (Hid : ∀ o : list (string * A), k ∉ o.*1 → filter (λ kv, kv.1 ≠ k) o = o).
  { induction o as [|[k' w] o IH]; intros Ho; [done|]. simpl in Ho.
    rewrite filter_cons_True by (simpl; set_solver). f_equal. apply IH. set_solver. }
  by rewrite !Hid.
Qed.

Lemma arr_delete_not_index {A} k (a : list (option A)) :
  k ≠ "length" → array_index k = None → arr_delete k a = Some a.
Proof. unfold arr_delete. intros Hl Hk. by rewrite decide_False, Hk. Qed.

Lemma plain_param_spec kv :
  plain_param kv = true ↔ array_index kv.1 = None ∧ (kept kv = false → kv.1 ≠ "length").
Proof.
  unfold plain_param. rewrite andb_true_iff, orb_true_iff, !bool_decide_eq_true.
  destruct (kept kv); naive_solver.
Qed.

(** One iteration on a key [k] that is not an array index, with
    [this.router.queryParams] present: the binding of [k] is kept and
    pushed, or deleted; [this.router.queryParams] follows. *)
Lemma finalizeStep_spec k v pre l s rq :
  queryParams s = pre ++ (k, v) :: l → k ∉ pre.*1 → k ∉ l.*1 → plain_param (k, v) = true →
  routerQueryParams s = Some rq →
  finalizeStep k s =
  (Ok tt, mkQPState (pre ++ filter (λ kv, kept kv = true) [(k, v)] ++ l)
                    (finalQueryParams s ++ pushed [(k, v)])
                    (Some (router_after rq [(k, v)])) (qconsole s)).
Proof.
  intros Hq Hpre Hl Hk Hr. unfold finalizeStep, pushed, router_after, kept.
  unfold bind, get, put, modify, ret. rewrite Hq, prop_get_app.
  rewrite (proj2 (prop_get_None pre k) Hpre). cbn [prop_get fst snd foldl]. rewrite decide_True by done.
  rewrite (filter_singleton _ (k, v) []). cbn [fst snd].
  destruct (castCorrectValueFromString v) eqn:Hc; cbn [is_null negb];
    rewrite ?decide_True, ?decide_False by done; cbn [fmap list_fmap fst snd];
    rewrite ?Hc, ?Hr, ?app_nil_r; try reflexivity.
  apply plain_param_spec in Hk as [Hk Hlen]. unfold kept in Hlen. cbn [fst snd] in Hlen, Hk. rewrite Hc in Hlen.
  cbn [is_null negb] in Hlen.
  rewrite arr_delete_not_index by auto.
  cbn [queryParams finalQueryParams routerQueryParams qconsole].
  by rewrite obj_delete_app_notin, app_nil_l by done.
Qed.

Lemma pushed_cons kv l : pushed (kv :: l) = pushed [kv] ++ pushed l.
Proof. unfold pushed. by rewrite <-fmap_app, <-filter_app. Qed.

(** The loop over bindings [l] that follow the bindings [pre] already
    visited and kept. *)
Lemma finalize_loop l pre s rq :
  queryParams s = pre ++ l → NoDup (pre ++ l).*1 → Forall (λ kv, plain_param kv = true) l →
  routerQueryParams s = Some rq →
  forEachM finalizeStep l.*1 s =
  (Ok tt, mkQPState (pre ++ filter (λ kv, kept kv = true) l) (finalQueryParams s ++ pushed l)
                    (Some (router_after rq l)) (qconsole s)).
Proof.
  revert pre s rq. induction l as [|[k v] l IH]; intros pre s rq Hq Hnd Hf Hr.
  - destruct s as [q f r c]; simpl in *; subst. unfold ret. by rewrite !app_nil_r.
  - apply Forall_cons in Hf as [Hk Hf]. rewrite fmap_app in Hnd. cbn [fmap list_fmap fst] in Hnd.
    apply NoDup_app in Hnd as (Hpre & Hdisj & Hkl). apply NoDup_cons in Hkl as [Hkl Hl].
    assert (Hkpre : k ∉ pre.*1) by (intros Hin; by apply (Hdisj k Hin), list_elem_of_here).
    cbn [fmap list_fmap fst forEachM]. unfold bind.
    rewrite (finalizeStep_spec k v pre l s rq) by done.
    rewrite (IH (pre ++ filter (λ kv, kept kv = true) [(k, v)]) _ (router_after rq [(k, v)]));
      cbn [queryParams finalQueryParams routerQueryParams qconsole]; [|by rewrite app_assoc| |done|done].
    + rewrite <-(app_assoc pre), <-(app_assoc (finalQueryParams s)), <-filter_app, <-pushed_cons.
      reflexivity.
    + rewrite (filter_singleton _ (k, v) []), !fmap_app, <-app_assoc. apply NoDup_app.
      split_and!; [done| |].
      * intros x Hx1 Hx2. apply (Hdisj x Hx1). case_decide; [exact Hx2|by apply list_elem_of_further].
      * case_decide; cbn; [by apply NoDup_cons|done].
Qed.

Lemma router_after_get rq l k :
  NoDup l.*1 →
  prop_get (router_after rq l) k =
  match prop_get l k with
  | Some v => if kept (k, v) then Some (castCorrectValueFromString v) else None
  | None => prop_get rq k
  end.
Proof.
  revert rq. induction l as [|[k' v] l IH]; intros rq Hnd; [done|].
  cbn [fmap list_fmap fst] in Hnd. apply NoDup_cons in Hnd as [Hk' Hnd].
  unfold router_after. cbn [foldl prop_get fst snd]. fold (router_after (if kept (k', v) then
    obj_set k' (castCorrectValueFromString v) rq else obj_delete k' rq) l).
  rewrite IH by done. case_decide as Hk; subst.
  - rewrite (proj2 (prop_get_None l k) Hk').
    destruct (kept (k, v)); [rewrite prop_get_obj_set|rewrite prop_get_obj_delete]; by case_decide.
  - destruct (prop_get l k); [done|].
    destruct (kept (k', v)); [rewrite prop_get_obj_set|rewrite prop_get_obj_delete]; by case_decide.
Qed.

(** The three console lines, then the loop in creation order. *)
Lemma finalizeQueryParamChange_run s rq :
  routerQueryParams s = Some rq → NoDup (queryParams s).*1 →
  Forall (λ kv, plain_param kv = true) (queryParams s) →
  finalizeQueryParamChange s =
  (Ok true, mkQPState (filter (λ kv, kept kv = true) (queryParams s))
                      (finalQueryParams s ++ pushed (queryParams s))
                      (Some (router_after rq (queryParams s))) (qconsole s ++ finalize_log)).
Proof.
  intros Hr Hnd Hf. unfold finalizeQueryParamChange, qp_log. unfold bind, get, modify.
  cbn [queryParams finalQueryParams routerQueryParams qconsole].
  rewrite object_keys_plain
    by (eapply Forall_impl; [exact Hf|]; intros kv Hkv; by apply plain_param_spec in Hkv as [? _]).
  rewrite (finalize_loop (queryParams s) [] _ rq) by done.
  cbn [queryParams finalQueryParams routerQueryParams qconsole app]. unfold ret.
  by rewrite <-!app_assoc.
Qed.

(** With [this.router.queryParams] present, an iteration throws only on
    the key [length] cast to [null] ([delete] of an array's [length]);
    otherwise it leaves [this.router.queryParams] present and does not
    change whether [length] is a parameter cast to [null]. *)
Lemma finalizeStep_router k s rq :
  routerQueryParams s = Some rq →
  if bool_decide (k = "length") && null_param (queryParams s) k
  then (finalizeStep k s).1 = Throw delete_length_error
  else (finalizeStep k s).1 = Ok tt ∧ is_Some (routerQueryParams (finalizeStep k s).2) ∧
       null_param (queryParams (finalizeStep k s).2) "length" = null_param (queryParams s) "length".
Proof.
  intros Hr. unfold finalizeStep, null_param. unfold bind, get, put, modify, ret.
  destruct (prop_get (queryParams s) k) as [v|] eqn:Hg; [|by rewrite andb_false_r].
  destruct (castCorrectValueFromString v) eqn:Hc; cbn [is_null]; rewrite ?andb_false_r, ?andb_true_r;
    try (rewrite Hr; cbn; split_and!; [done|by eexists|done]).
  unfold arr_delete. case_bool_decide as Hk; [subst; by rewrite decide_True|].
  rewrite decide_False by done. cbn [queryParams routerQueryParams finalQueryParams qconsole].
  split_and!; [by destruct (array_index k); rewrite Hr|by destruct (array_index k); rewrite Hr; eexists|].
  destruct (array_index k); rewrite Hr; cbn; by rewrite prop_get_obj_delete, decide_False.
Qed.

(** With [this.router.queryParams] present, the loop over [ks] throws
    exactly when it visits [length] and that parameter is cast to [null]. *)
Lemma forEachM_finalizeStep_router ks s :
  is_Some (routerQueryParams s) →
  (forEachM finalizeStep ks s).1 =
  if bool_decide ("length" ∈ ks) && null_param (queryParams s) "length"
  then Throw delete_length_error else Ok tt.
Proof.
  revert s. induction ks as [|k ks IH]; intros s [rq Hr]; [done|]. cbn [forEachM]. unfold bind.
  pose proof (finalizeStep_router k s rq Hr) as Hk.
  destruct (finalizeStep k s) as [o s']. cbn [fst snd] in Hk |- *.
  case_bool_decide as Hl; cbn [andb] in Hk.
  - subst k. destruct (null_param (queryParams s) "length"); [by rewrite Hk, bool_decide_true by set_solver|].
    destruct Hk as (-> & Hs & Hn). rewrite (IH s' Hs), Hn. by rewrite andb_false_r.
  - destruct Hk as (-> & Hs & Hn). rewrite (IH s' Hs), Hn.
    by rewrite (bool_decide_ext ("length" ∈ k :: ks) ("length" ∈ ks)) by set_solver.
Qed.

(** Without [this.router.queryParams], the first iteration throws: on
    [delete finalQueryParams.length] when the key is [length] cast to
    [null], on reading the missing object otherwise. *)
Lemma finalizeStep_router_None k s :
  routerQueryParams s = None → k ∈ (queryParams s).*1 →
  (finalizeStep k s).1 =
  if bool_decide (k = "length") && null_param (queryParams s) k
  then Throw delete_length_error else Throw undefined_object.
Proof.
  intros Hr Hk. unfold finalizeStep, null_param. unfold bind, get, put, modify.
  destruct (prop_get (queryParams s) k) eqn:Hg; [|by apply prop_get_None in Hg].
  destruct (castCorrectValueFromString _); cbn [is_null]; rewrite ?andb_false_r, ?Hr; try done.
  unfold arr_delete. case_bool_decide as Hl; [by rewrite decide_True|].
  rewrite decide_False by done. by destruct (array_index k).
Qed.

(** C24: [finalizeQueryParamChange] on query parameters with distinct
    non-index names answers [true], keeps in [queryParams] exactly the
    parameters whose cast value is not [null], appends an entry
    [{ key, value }] to [finalQueryParams] for each of them in order (an
    existing entry is never removed), and logs three lines. *)
Theorem finalizeQueryParamChange_spec s rq :
  routerQueryParams s = Some rq → NoDup (queryParams s).*1 →
  Forall (λ kv, plain_param kv = true) (queryParams s) →
  (finalizeQueryParamChange s).1 = Ok true ∧
  queryParams (finalizeQueryParamChange s).2 = filter (λ kv, kept kv = true) (queryParams s) ∧
  finalQueryParams (finalizeQueryParamChange s).2 = finalQueryParams s ++ pushed (queryParams s) ∧
  qconsole (finalizeQueryParamChange s).2 = qconsole s ++ finalize_log.
Proof. intros Hr Hnd Hf. by rewrite (finalizeQueryParamChange_run s rq). Qed.


(** C25: [finalizeQueryParamChange] answers [true] unless it throws, and
    it throws a TypeError in exactly two cases: a parameter named [length]
    is cast to [null] (the loop reaches [delete finalQueryParams.length],
    which strict mode refuses), or the router has no [queryParams] object
    and there is a parameter to visit (then the first key visited decides
    which of the two errors is raised). *)
Theorem finalizeQueryParamChange_outcome s :
  (finalizeQueryParamChange s).1 =
  match routerQueryParams s, object_keys (queryParams s) with
  | _, [] => Ok true
  | Some _, _ => if null_param (queryParams s) "length" then Throw delete_length_error else Ok true
  | None, k :: _ =>
      if bool_decide (k = "length") && null_param (queryParams s) k
      then Throw delete_length_error else Throw undefined_object
  end.
Proof.
  unfold finalizeQueryParamChange, qp_log. unfold bind, get, modify.
  cbn [queryParams finalQueryParams routerQueryParams qconsole].
  set (s1 := mkQPState _ _ _ _).
  destruct (routerQueryParams s) as [rq|] eqn:Hr.
  - pose proof (forEachM_finalizeStep_router (object_keys (queryParams s)) s1) as Hl.
    specialize (Hl ltac:(unfold s1; cbn; rewrite ?Hr; by eexists)).
    change (queryParams s1) with (queryParams s) in Hl.
    destruct (forEachM _ _ s1) as [o s']. cbn [fst] in Hl |- *. subst o.
    destruct (null_param (queryParams s) "length") eqn:Hn.
    + assert (Hin : "length" ∈ object_keys (queryParams s)).
      { rewrite (object_keys_Permutation (queryParams s)). unfold null_param in Hn.
        destruct (prop_get (queryParams s) "length") eqn:Hg; [|done].
        destruct (decide ("length" ∈ (queryParams s).*1)) as [|Hn']; [done|].
        apply prop_get_None in Hn'. congruence. }
      rewrite bool_decide_true by done. destruct (object_keys (queryParams s)); [set_solver|done].
    + rewrite andb_false_r. by destruct (object_keys (queryParams s)).
  - destruct (object_keys (queryParams s)) as [|k ks] eqn:Hks; [done|].
    assert (Hk : k ∈ (queryParams s1).*1).
    { unfold s1. cbn. rewrite <-(object_keys_Permutation (queryParams s)), Hks. apply list_elem_of_here. }
    cbn [forEachM]. unfold bind. rewrite (surjective_pairing (finalizeStep k s1)).
    rewrite (finalizeStep_router_None k s1) by (unfold s1; cbn; by rewrite ?Hr).
    unfold s1; cbn [queryParams]. by destruct (bool_decide _ && _).
Qed.

(** *** Casting: shape, precision, examples *)

(** C30: The cast of a query-parameter string is a number that is neither
    zero nor [NaN], a boolean, [null], or the same non-empty string; the
    cast of an array is an array of the same length. *)
Theorem castCorrectValueFromString_shape v :
  match v with
  | QStr s =>
      (∃ x, castCorrectValueFromString v = JNum x ∧ num_truthy x = true) ∨
      castCorrectValueFromString v = JBool false ∨ castCorrectValueFromString v = JBool true ∨
      castCorrectValueFromString v = JNull ∨ (castCorrectValueFromString v = JStr s ∧ s ≠ "")
  | QArr es => ∃ xs, castCorrectValueFromString v = JArr xs ∧ length xs = length es
  end.
Proof.
  destruct v as [s|es]; simpl; [|eexists; split; [done|apply length_map]].
  destruct (num_truthy (Number s)) eqn:Hn; simpl.
  - destruct (num_truthy (parseInt s)); simpl; [left; by eexists|].
    repeat case_decide; auto 10.
  - repeat case_decide; auto 10.
Qed.

(** Casting examples: an integer, a decimal with exponent, a
    fraction below one, a keyword, the empty string, an array, and two
    integers beyond [2^53] that lose their precision to the same number. *)
Example cast_examples :
  castCorrectValueFromString (QStr "9007199254740993") = JNum (S754_finite false 4503599627370496 1) ∧
  castCorrectValueFromString (QStr "9007199254740992") = JNum (S754_finite false 4503599627370496 1) ∧
  castCorrectValueFromString (QStr "12") = JNum (S754_finite false 6755399441055744 (-49)) ∧
  castCorrectValueFromString (QStr "1.5e1") = JNum (S754_finite false 8444249301319680 (-49)) ∧
  castCorrectValueFromString (QStr "0.5") = JStr "0.5" ∧
  castCorrectValueFromString (QStr "undefined") = JNull ∧
  castCorrectValueFromString (QStr "") = JNull ∧
  castCorrectValueFromString (QArr [QStr "true"; QStr "abc"]) = JArr [JBool true; JStr "abc"].
Proof. split_and!; vm_compute; reflexivity. Qed.

(** C37: [delete finalQueryParams[key]] indexes the array by the
    parameter's name: when a parameter whose name is the array index [i]
    is cast to [null] (and [this.router.queryParams] is present), the
    iteration deletes the parameter from [queryParams] and from
    [this.router.queryParams] and empties slot [i] of [finalQueryParams],
    whatever parameter that slot belongs to (and nothing when [i] is past
    the end). *)
Theorem finalizeStep_index_key k i v s rq :
  prop_get (queryParams s) k = Some v → castCorrectValueFromString v = JNull →
  array_index k = Some i → routerQueryParams s = Some rq →
  finalizeStep k s =
  (Ok tt, mkQPState (obj_delete k (queryParams s)) (<[N.to_nat i := None]> (finalQueryParams s))
                    (Some (obj_delete k rq)) (qconsole s)).
Proof.
  intros Hg Hc Hi Hr. unfold finalizeStep, arr_delete. unfold bind, get, put, modify.
  rewrite Hg, Hc, decide_False by (intros ->; discriminate Hi). by rewrite Hi, Hr.
Qed.

(** *** Witnesses *)

Definition scenario_active (r : nat) : option ActiveTransition :=
  if decide (r = 7) then Some (mkActive [("users", JNull); ("users.edit", JObj [("id", JStr "42")])])
  else None.

Definition users_edit : Handler := RouteClass 2 "UsersEditRoute".

Lemma cast_zero_stays_string_witness :
  Number "0" = S754_zero false ∧ castCorrectValueFromString (QStr "0") = JStr "0".
Proof. split; [reflexivity|]. apply (cast_zero_stays_string "0" false). reflexivity. Defined.

Lemma cast_fraction_stays_string_witness :
  str_list "0.25" = "0"%char :: "."%char :: str_list "25" ∧
  castCorrectValueFromString (QStr "0.25") = JStr "0.25".
Proof. split; [reflexivity|]. apply (cast_fraction_stays_string "0.25" (str_list "25")). reflexivity. Defined.

Lemma cast_no_digit_witness :
  Forall (λ c, digit_val 10 c = None) (str_list "yes") ∧
  castCorrectValueFromString (QStr "yes") = JStr "yes".
Proof.
  assert (H : Forall (λ c, digit_val 10 c = None) (str_list "yes")) by (repeat constructor).
  split; [exact H|]. rewrite (cast_no_digit "yes" H). reflexivity.
Defined.

Lemma modelFor_falsy_model_witness :
  props (getRoute "users.edit" scenario_world).2 !! handler_ref users_edit ≫= (.!! "router") = Some 7 ∧
  scenario_active 7 = Some (mkActive [("users", JNull); ("users.edit", JObj [("id", JStr "42")])]) ∧
  prop_get [("users", JNull); ("users.edit", JObj [("id", JStr "42")])] "users" = Some JNull ∧
  js_truthy JNull = false ∧
  modelFor scenario_active users_edit "users" (getRoute "users.edit" scenario_world).2 =
  (Throw (JsError (not_found_message "users")), (getRoute "users.edit" scenario_world).2).
Proof.
  split_and!; [reflexivity..|]. apply (modelFor_falsy_model _ _ _ _ 7 (mkActive
    [("users", JNull); ("users.edit", JObj [("id", JStr "42")])]) JNull); reflexivity.
Defined.


Lemma modelFor_after_getRoute_witness :
  ROUTE_REGISTRY (wstatic scenario_world) !! "users.edit" = Some (mkEntry "users.edit" "/:id" (Some users_edit)) ∧
  SERVICES scenario_world !! "router" = Some 7 ∧
  modelFor scenario_active users_edit "users.edit" (getRoute "users.edit" scenario_world).2 =
  (Ok (JObj [("id", JStr "42")]), (getRoute "users.edit" scenario_world).2).
Proof.
  split_and!; [reflexivity..|].
  apply (modelFor_after_getRoute scenario_active "users.edit" (mkEntry "users.edit" "/:id" (Some users_edit))
           scenario_world 7 (mkActive [("users", JNull); ("users.edit", JObj [("id", JStr "42")])]));
    reflexivity.
Defined.

Definition users_route : Handler := RouteClass 1 "UsersRoute".
Definition edit_info : RouteInfo := mkRouteInfo "users.edit" (Some users_edit) ThisRouter.
Definition edit_transition : SetupTransition :=
  mkSetupTransition "users.edit" [mkRouteInfo "users" (Some users_route) ThisRouter; edit_info].
Definition app_page : Page := mkPage (mkDocument {[ "app" := 1 ]} ∅) [].

Lemma setup_spec_witness :
  byId (document app_page) !! container_id false = Some 1 ∧
  last (st_routeInfos edit_transition) = Some edit_info ∧
  content (document (setup true false users_edit JNull edit_transition app_page).2) !! 1 =
  Some (Rendered users_edit (JObj [])).
Proof.
  split_and!; [reflexivity|reflexivity|].
  destruct (setup_spec true false users_edit JNull edit_transition app_page 1 edit_info)
    as (_ & _ & Hc & _); [reflexivity|reflexivity|].
  rewrite Hc. reflexivity.
Defined.

Lemma setup_no_container_witness :
  byId (document app_page) !! container_id true = None ∧
  (setup false true users_edit JNull edit_transition app_page).1 = Throw (JsError no_container_message).
Proof. split; [reflexivity|]. apply setup_no_container. reflexivity. Defined.

Definition qp_scenario : QPState :=
  mkQPState [("page", QStr "2"); ("q", QStr ""); ("flag", QStr "true")] []
            (Some [("q", JStr "old"); ("lang", JStr "en")]) [].

Lemma finalizeQueryParamChange_spec_witness :
  routerQueryParams qp_scenario = Some [("q", JStr "old"); ("lang", JStr "en")] ∧
  NoDup (queryParams qp_scenario).*1 ∧
  Forall (λ kv, plain_param kv = true) (queryParams qp_scenario) ∧
  queryParams (finalizeQueryParamChange qp_scenario).2 =
  filter (λ kv, kept kv = true) (queryParams qp_scenario).
Proof.
  assert (Hnd : NoDup (queryParams qp_scenario).*1) by (apply (bool_decide_unpack _); vm_compute; reflexivity).
  assert (Hf : Forall (λ kv, plain_param kv = true) (queryParams qp_scenario))
    by (apply (bool_decide_unpack _); vm_compute; reflexivity).
  split_and!; [reflexivity|exact Hnd|exact Hf|].
  apply (finalizeQueryParamChange_spec qp_scenario [("q", JStr "old"); ("lang", JStr "en")]);
    [reflexivity|exact Hnd|exact Hf].
Defined.


Lemma finalizeStep_index_key_witness :
  let s := mkQPState [("0", QStr "")] [Some ("sort", JStr "asc")] (Some []) [] in
  (prop_get (queryParams s) "0" = Some (QStr "") ∧ castCorrectValueFromString (QStr "") = JNull ∧
   array_index "0" = Some 0%N ∧ routerQueryParams s = Some []) ∧
  finalizeStep "0" s = (Ok tt, mkQPState [] [None] (Some []) []).
Proof.
  intros s. split; [split_and!; reflexivity|].
  apply (finalizeStep_index_key "0" 0%N (QStr "") s []); reflexivity.
Defined.

End RouteFacts.
