(* ===== verification/Lifecycle.v ===== *)
(** * From startup to the route hooks

    How the components meet at run time: [EmberXRouter.start] (index.ts)
    installs a [RouterJSRouter] as [routerjs] and [SERVICES.router] and
    configures it with the route tree; the engine then resolves the names
    of that tree through the adapter's [getRoute] (router-service.ts),
    which copies [SERVICES] onto the route class, and the class's
    [modelFor] (route.ts) reads the [activeTransition] of the router it
    was given.  The adapter's [World] is a view of the process state
    [Startup.Global] that [start] leaves: the registry [ROUTE_REGISTRY]
    refers to, the console, [SERVICES] and the installed router's fields. *)

From stdpp Require Import base list gmap strings.
From S2P Require Import Prelude Names Registry Tree RouterService Startup Route.
Open Scope stdpp_scope.
Open Scope js_scope.

Module Lifecycle.
Import Registry Tree RouterService Startup Route.

(** The adapter's state as [start] leaves it, once a router is installed;
    [LOG_ROUTES] and the properties already copied onto handler objects
    are not touched by [start]. *)
Definition adapter_world (g : Global) (LOG_ROUTES : bool) (props : gmap nat (gmap string nat))
    : option World :=
  match routerjs g with
  | Some (_, r, _) =>
      Some (mkWorld (mkStatic (deref g (ROUTE_REGISTRY_ref g)) (gconsole g)) (gSERVICES g)
                    LOG_ROUTES props r)
  | None => None
  end.

End Lifecycle.

Module LifecycleFacts.
Import Registry RegistryFacts Tree TreeFacts RouterService RouterServiceFacts Startup StartupFacts Route RouteFacts
  Lifecycle.

Section WithContext.
Context `{MapContext}.

(** C23: After a successful [start], every route of the tree the engine
    was configured with resolves through [getRoute] to its registered
    handler (or [DefaultRoute]), and that handler's [modelFor] reads the
    active transition of the very router [start] installed. *)
Theorem start_routes_resolve QUnit defs routeMap g LOG props activeTransition key :
  (∀ d, d ∈ defs → has_path d = true ∧ index_name_ok d) →
  (∀ f, routeMap = Some f → never_throws (apply_map f)) →
  ∃ id F w, (start QUnit defs routeMap g).1 = Ok id ∧
    routerjs (start QUnit defs routeMap g).2 = Some (id, new_RouterJSRouter QUnit, F) ∧
    adapter_world (start QUnit defs routeMap g).2 LOG props = Some w ∧
    ∀ q e, entry_at F q = Some e →
      (getRoute (routeName e) w).1 = Ok (default DefaultRoute (route e)) ∧
      modelFor activeTransition (default DefaultRoute (route e)) key (getRoute (routeName e) w).2 =
      (match activeTransition id ≫= λ t, prop_get (resolvedModels t) key with
       | Some m => if js_truthy m then Ok m else Throw (JsError (not_found_message key))
       | None => Throw (JsError (not_found_message key))
       end, (getRoute (routeName e) w).2).
Proof.
  intros Hdefs Hmap.
  destruct (start_run QUnit defs routeMap g Hdefs Hmap) as (id & F & Ho & Hr & Hs & Hok).
  exists id, F. unfold adapter_world. rewrite Hr. eexists. split_and!; [done|done|done|].
  intros q e He. destruct Hok as [Hreg _].
  destruct (getRoute_assigns (routeName e) e
              (mkWorld (mkStatic (deref (start QUnit defs routeMap g).2
                                        (ROUTE_REGISTRY_ref (start QUnit defs routeMap g).2))
                                 (gconsole (start QUnit defs routeMap g).2))
                       (gSERVICES (start QUnit defs routeMap g).2) LOG props (new_RouterJSRouter QUnit)))
    as [Hget Hprops]; [by apply (Hreg q)|].
  split; [done|]. by apply modelFor_router, Hprops.
Qed.

End WithContext.

Import DSL.

(** The spec's definitions and [posts] callback, with a transition that
    resolved the model of [users] on router 2, the one [start] installs
    from the initial state. *)
Definition users_transition (r : nat) : option ActiveTransition :=
  if decide (r = 2) then Some (mkActive [("users", JObj [("id", JStr "42")])]) else None.

Lemma start_routes_resolve_witness :
  ((∀ d, d ∈ spec_definitions → has_path d = true ∧ index_name_ok d) ∧
   (∀ f, Some posts_callback = Some f → never_throws (apply_map f))) ∧
  ∃ id F w, (start false spec_definitions (Some posts_callback) initial_global).1 = Ok id ∧
    routerjs (start false spec_definitions (Some posts_callback) initial_global).2 =
      Some (id, new_RouterJSRouter false, F) ∧
    adapter_world (start false spec_definitions (Some posts_callback) initial_global).2 false ∅ = Some w ∧
    ∀ q e, entry_at F q = Some e →
      (getRoute (routeName e) w).1 = Ok (default DefaultRoute (route e)) ∧
      modelFor users_transition (default DefaultRoute (route e)) "users" (getRoute (routeName e) w).2 =
      (match users_transition id ≫= λ t, prop_get (resolvedModels t) "users" with
       | Some m => if js_truthy m then Ok m else Throw (JsError (not_found_message "users"))
       | None => Throw (JsError (not_found_message "users"))
       end, (getRoute (routeName e) w).2).
Proof.
  pose proof spec_definitions_good as H1. pose proof posts_callback_never_throws as H2.
  split; [by split|].
  exact (start_routes_resolve false spec_definitions (Some posts_callback) initial_global false ∅
           users_transition "users" H1 H2).
Defined.

End LifecycleFacts.
