(* ===== verification/Protocol.v ===== *)
(** * One transition, as the engine drives the hooks

    A transition is run by the external router_js engine; what the
    repository contributes are the hooks it calls.  This file fixes the
    order router_js calls them in for a transition to a list of route
    infos (root first): [willTransition] when the transition starts (with
    [resolveIndex] 0), [getRoute] for each route info in order (the engine
    stores the result as the info's [_route]), the route classes' [setup]
    in order (root first, with the resolved models), [updateURL] and
    finally [didTransition].  An exception of a hook fails the transition.
    The engine is a phase machine [engine_step] over the adapter's [World]
    and the [Page]; the hooks are those of RouterService.v and Route.v.

    Theorems: the registry, [SERVICES] and the document's elements never
    change along a run; a transition whose names are registered ends with
    the leaf route rendered into the container, the router pointing at
    the leaf and every resolved route carrying the services; a transition
    that reaches an unregistered name fails there with [getRoute]'s
    TypeError, before any [setup].  That the phase machine itself
    terminates ([engine_terminates], [engine_reaches_final]) is a lemma
    about the engine model that fuels [engine_run], not about the hooks. *)

From Stdlib Require Import Wellfounded.
From stdpp Require Import base list gmap strings relations.
From S2P Require Import Prelude Names Registry RouterService Route.
Open Scope stdpp_scope.
Open Scope js_scope.

Module Protocol.
Import Names Registry RouterService Route.

(** What the hooks of a transition act on. *)
Record TState := mkTState {
  tworld : World;
  tpage : Page;
}.

Definition on_world {A} (m : M World A) : M TState A :=
  λ s, let '(o, w) := m (tworld s) in (o, mkTState w (tpage s)).
Definition on_page {A} (m : M Page A) : M TState A :=
  λ s, let '(o, p) := m (tpage s) in (o, mkTState (tworld s) p).

(** The transition the engine runs: the route infos from the root to the
    target, the models it resolved for them, and the URL. *)
Record Plan := mkPlan {
  plan_infos : list RouteInfo;
  plan_models : list JsVal;
  plan_url : string;
}.

(** Where the engine is: the route infos resolved so far carry their
    [_route]. *)
Inductive Phase :=
| PStart
| PResolve (resolved : list RouteInfo)
| PSetup (resolved : list RouteInfo) (k : nat)
| PUpdateURL (resolved : list RouteInfo)
| PDidTransition (resolved : list RouteInfo)
| PDone
| PFailed (e : exn).

Definition final (ph : Phase) : bool :=
  match ph with PDone | PFailed _ => true | _ => false end.

Section Engine.
Variables (LOG_MODELS QUnit : bool) (pl : Plan).

Definition target_name : string := default "" (ri_name <$> last (plan_infos pl)).

(** Run a hook; go to [next] when it returns, fail when it throws. *)
Definition call (m : M TState unit) (next : Phase) (s : TState) : Phase * TState :=
  match m s with
  | (Ok _, s') => (next, s')
  | (Throw e, s') => (PFailed e, s')
  end.

Definition engine_next (c : Phase * TState) : option (Phase * TState) :=
  let '(ph, s) := c in
  match ph with
  | PStart => Some (call (on_world (willTransition (mkTransition (plan_infos pl) 0))) (PResolve []) s)
  | PResolve done =>
      match plan_infos pl !! length done with
      | Some ri =>
          Some (match on_world (getRoute (ri_name ri)) s with
                | (Ok h, s') => (PResolve (done ++ [mkRouteInfo (ri_name ri) (Some h) (ri_router ri)]), s')
                | (Throw e, s') => (PFailed e, s')
                end)
      | None => Some (PSetup done 0, s)
      end
  | PSetup resolved k =>
      match resolved !! k with
      | Some ri =>
          Some (call (on_page (setup LOG_MODELS QUnit (default DefaultRoute (ri_route ri))
                                 (default JUndefined (plan_models pl !! k))
                                 (mkSetupTransition target_name resolved)))
                     (PSetup resolved (S k)) s)
      | None => Some (PUpdateURL resolved, s)
      end
  | PUpdateURL resolved => Some (call (on_world (updateURL (plan_url pl))) (PDidTransition resolved) s)
  | PDidTransition resolved => Some (call (on_world (didTransition resolved)) PDone s)
  | PDone | PFailed _ => None
  end.

Definition engine_step (c c' : Phase * TState) : Prop := engine_next c = Some c'.

(** The number of steps left at most. *)
Definition measure (ph : Phase) : nat :=
  let n := length (plan_infos pl) in
  match ph with
  | PStart => 2 * n + 5
  | PResolve d => 2 * (n - length d) + length d + 4
  | PSetup r k => length r - k + 3
  | PUpdateURL _ => 2
  | PDidTransition _ => 1
  | PDone | PFailed _ => 0
  end.

(** Run the engine for at most [fuel] steps. *)
Fixpoint engine_run (fuel : nat) (c : Phase * TState) : Phase * TState :=
  match fuel with
  | O => c
  | S fuel' => match engine_next c with Some c' => engine_run fuel' c' | None => c end
  end.

End Engine.

End Protocol.

Module ProtocolFacts.
Import Names Registry RouterService RouterServiceFacts Route RouteFacts Protocol.

Section Engine.
Variables (LOG_MODELS QUnit : bool) (pl : Plan).

Lemma call_cases m next s : (call m next s).1 = next ∨ ∃ e, (call m next s).1 = PFailed e.
Proof. unfold call. destruct (m s) as [[] s']; simpl; eauto. Qed.

Lemma engine_step_measure c c' :
  engine_step LOG_MODELS QUnit pl c c' → measure pl c'.1 < measure pl c.1.
Proof.
  unfold engine_step. destruct c as [ph s]. intros Hs.
  destruct ph as [|d|r k|r|r| |e]; simpl in Hs; try discriminate.
  - injection Hs as <-. destruct (call_cases (on_world (willTransition (mkTransition (plan_infos pl) 0))) (PResolve []) s) as [->|[e ->]]; simpl; lia.
  - destruct (plan_infos pl !! length d) eqn:Hd; injection Hs as <-.
    + apply lookup_lt_Some in Hd.
      destruct (on_world (getRoute (ri_name r)) s) as [[h|e] s']; simpl; [rewrite length_app; simpl|]; lia.
    + apply lookup_ge_None in Hd. simpl. lia.
  - destruct (r !! k) eqn:Hk; injection Hs as <-.
    + apply lookup_lt_Some in Hk.
      match goal with |- context [call ?m ?n s] => destruct (call_cases m n s) as [->|[e ->]] end; simpl; lia.
    + simpl. lia.
  - injection Hs as <-.
    match goal with |- context [call ?m ?n s] => destruct (call_cases m n s) as [->|[e ->]] end; simpl; lia.
  - injection Hs as <-.
    match goal with |- context [call ?m ?n s] => destruct (call_cases m n s) as [->|[e ->]] end; simpl; lia.
Qed.

(** The engine model terminates: there is no infinite sequence of steps
    from any configuration, because each step lowers [measure].  This is
    a property of the phase machine (the hooks it calls return), not of
    the hooks. *)
Theorem engine_terminates : well_founded (λ c' c, engine_step LOG_MODELS QUnit pl c c').
Proof.
  apply (wf_incl _ _ (λ c' c, measure pl c'.1 < measure pl c.1)).
  - intros c' c. apply engine_step_measure.
  - apply (wf_inverse_image _ nat lt (λ c, measure pl c.1)), lt_wf.
Qed.

(** Only the final phases are stuck. *)
Lemma engine_progress c : final c.1 = false → ∃ c', engine_step LOG_MODELS QUnit pl c c'.
Proof.
  destruct c as [ph s]; unfold engine_step; simpl.
  destruct ph; simpl; try discriminate; intros _; repeat case_match; eauto.
Qed.

(** Running for [fuel] steps is a run of the engine. *)
Lemma engine_run_rtc fuel c : rtc (engine_step LOG_MODELS QUnit pl) c (engine_run LOG_MODELS QUnit pl fuel c).
Proof.
  revert c. induction fuel as [|fuel IH]; intros c; simpl; [done|].
  destruct (engine_next LOG_MODELS QUnit pl c) as [c'|] eqn:Hc; [|done].
  eapply rtc_l; [exact Hc|apply IH].
Qed.

(** [measure] steps are enough to reach a final phase. *)
Lemma engine_run_final fuel c : measure pl c.1 ≤ fuel → final (engine_run LOG_MODELS QUnit pl fuel c).1 = true.
Proof.
  revert c. induction fuel as [|fuel IH]; intros c Hf; simpl.
  - destruct c as [[] s]; simpl in *; try lia; done.
  - destruct (engine_next LOG_MODELS QUnit pl c) as [c'|] eqn:Hc.
    + apply IH. pose proof (engine_step_measure c c' Hc). lia.
    + destruct (final c.1) eqn:Hfin; [done|].
      destruct (engine_progress c Hfin) as [c' Hc']. unfold engine_step in Hc'. congruence.
Qed.

(** From any configuration the engine model reaches a final phase (done
    or failed) within [measure] steps. *)
Theorem engine_reaches_final c :
  rtc (engine_step LOG_MODELS QUnit pl) c (engine_run LOG_MODELS QUnit pl (measure pl c.1) c) ∧
  final (engine_run LOG_MODELS QUnit pl (measure pl c.1) c).1 = true.
Proof. split; [apply engine_run_rtc|by apply engine_run_final]. Qed.

End Engine.

(** *** What the hooks never change *)

(** A hook on the adapter leaves the registry, [SERVICES] and
    [LOG_ROUTES] alone, and only extends the location bar, whatever its
    outcome. *)
Definition world_frame {A} (m : M World A) : Prop :=
  ∀ w, ROUTE_REGISTRY (wstatic (m w).2) = ROUTE_REGISTRY (wstatic w) ∧ SERVICES (m w).2 = SERVICES w ∧
       LOG_ROUTES (m w).2 = LOG_ROUTES w ∧ locationBar (router w) `prefix_of` locationBar (router (m w).2).

Lemma willTransition_frame t : world_frame (willTransition t).
Proof. intros w. unfold willTransition, set_router. unfold_M. case_match; cbn; split_and!; try done; reflexivity. Qed.

Lemma didTransition_frame r : world_frame (didTransition r).
Proof. intros w. unfold didTransition, set_router. unfold_M. case_match; cbn; split_and!; try done; reflexivity. Qed.

Lemma updateURL_frame u : world_frame (updateURL u).
Proof.
  intros w. unfold updateURL, set_router. unfold_M.
  destruct (testing (router w)); simpl; split_and!; try done. by exists [u].
Qed.

Lemma getRoute_frame n : world_frame (getRoute n).
Proof.
  intros w. unfold getRoute, log. unfold_M.
  destruct (LOG_ROUTES w) eqn:HL; unfold_M; case_match; cbn; split_and!; try done; try congruence; reflexivity.
Qed.

(** [setup] leaves the elements of the document alone. *)
Lemma setup_byId LOG_MODELS' QUnit' h m tr p :
  byId (document (setup LOG_MODELS' QUnit' h m tr p).2) = byId (document p).
Proof.
  unfold setup, page_log, clear, renderComponent, set_content.
  destruct LOG_MODELS'; page_simpl; (destruct (byId (document p) !! container_id QUnit'); page_simpl;
    [destruct (last _); page_simpl; [case_decide; page_simpl|]|]); reflexivity.
Qed.

(** Two states agree on what the hooks never change, and the location
    bar of the second extends the first's. *)
Definition same_frame (s s' : TState) : Prop :=
  ROUTE_REGISTRY (wstatic (tworld s')) = ROUTE_REGISTRY (wstatic (tworld s)) ∧
  SERVICES (tworld s') = SERVICES (tworld s) ∧ LOG_ROUTES (tworld s') = LOG_ROUTES (tworld s) ∧
  byId (document (tpage s')) = byId (document (tpage s)) ∧
  locationBar (router (tworld s)) `prefix_of` locationBar (router (tworld s')).

#[local] Instance same_frame_preorder : PreOrder same_frame.
Proof.
  split.
  - intros s. by split_and!.
  - intros s1 s2 s3 (?&?&?&?&?) (?&?&?&?&?). split_and!; try congruence. by etrans.
Qed.

Lemma on_world_state {A} (m : M World A) s : (on_world m s).2 = mkTState (m (tworld s)).2 (tpage s).
Proof. unfold on_world. by destruct (m (tworld s)). Qed.
Lemma on_page_state {A} (m : M Page A) s : (on_page m s).2 = mkTState (tworld s) (m (tpage s)).2.
Proof. unfold on_page. by destruct (m (tpage s)). Qed.
Lemma call_state m next s : (call m next s).2 = (m s).2.
Proof. unfold call. by destruct (m s) as [[] ?]. Qed.

Lemma world_frame_same {A} (m : M World A) s : world_frame m → same_frame s (on_world m s).2.
Proof. intros Hm. rewrite on_world_state. destruct (Hm (tworld s)) as (?&?&?&?). by split_and!. Qed.

Lemma setup_same LOG_MODELS' QUnit' h m tr s :
  same_frame s (on_page (setup LOG_MODELS' QUnit' h m tr) s).2.
Proof. rewrite on_page_state. split_and!; [done|done|done|apply setup_byId|reflexivity]. Qed.

Section Engine2.
Variables (LOG_MODELS QUnit : bool) (pl : Plan).

Lemma engine_step_frame c c' : engine_step LOG_MODELS QUnit pl c c' → same_frame c.2 c'.2.
Proof.
  unfold engine_step. destruct c as [ph s]. intros Hs.
  destruct ph as [|d|r k|r|r| |e]; simpl in Hs; try discriminate.
  - injection Hs as <-. rewrite call_state. apply world_frame_same, willTransition_frame.
  - destruct (plan_infos pl !! length d) as [ri|]; injection Hs as <-; [|done].
    pose proof (world_frame_same (getRoute (ri_name ri)) s (getRoute_frame _)) as Hf.
    by destruct (on_world (getRoute (ri_name ri)) s) as [[h|e] s'].
  - destruct (r !! k); injection Hs as <-; [|done]. rewrite call_state. apply setup_same.
  - injection Hs as <-. rewrite call_state. apply world_frame_same, updateURL_frame.
  - injection Hs as <-. rewrite call_state. apply world_frame_same, didTransition_frame.
Qed.

(** C31: Along any run of a transition, the route registry, [SERVICES],
    [LOG_ROUTES] and the document's elements stay as they were, and the
    location bar only grows. *)
Theorem engine_run_frame c c' :
  rtc (engine_step LOG_MODELS QUnit pl) c c' → same_frame c.2 c'.2.
Proof.
  induction 1 as [c|c1 c2 c3 H12 _ IH]; [reflexivity|].
  etrans; [apply (engine_step_frame _ _ H12)|exact IH].
Qed.

End Engine2.

(** *** A transition to registered routes *)

(** A handler object carries every service (as [getRoute] leaves it). *)
Definition carries (w : World) (h : Handler) : Prop :=
  ∀ k v, SERVICES w !! k = Some v → props w !! handler_ref h ≫= (.!! k) = Some v.

(** The handler [getRoute] hands out for a route info, and the route info
    with that [_route]. *)
Definition resolved_handler (reg : gmap string Entry) (ri : RouteInfo) : Handler :=
  default DefaultRoute (reg !! ri_name ri ≫= route).
Definition resolve_info (reg : gmap string Entry) (ri : RouteInfo) : RouteInfo :=
  mkRouteInfo (ri_name ri) (Some (resolved_handler reg ri)) (ri_router ri).

Lemma assign_services_carries h h' w : carries w h' → carries (assign_services h w) h'.
Proof.
  intros Hc k v Hk. unfold assign_services; simpl.
  destruct (decide (handler_ref h = handler_ref h')) as [Heq|Hne].
  - rewrite Heq, lookup_insert_eq. simpl. by apply lookup_union_Some_l.
  - rewrite lookup_insert_ne by done. by apply Hc.
Qed.

Lemma assign_services_carries_self h w : carries (assign_services h w) h.
Proof. intros k v Hk. unfold assign_services; simpl. rewrite lookup_insert_eq. simpl. by apply lookup_union_Some_l. Qed.

(** [getRoute] of a registered name, in full. *)
Lemma getRoute_ok name e w :
  ROUTE_REGISTRY (wstatic w) !! name = Some e →
  ∃ w0, getRoute name w = (Ok (default DefaultRoute (route e)), assign_services (default DefaultRoute (route e)) w0) ∧
    ROUTE_REGISTRY (wstatic w0) = ROUTE_REGISTRY (wstatic w) ∧ SERVICES w0 = SERVICES w ∧
    props w0 = props w ∧ router w0 = router w.
Proof.
  intros He. unfold getRoute, log. unfold_M.
  destruct (LOG_ROUTES w); unfold_M; rewrite He; simpl; eexists; split_and!; reflexivity.
Qed.

(** [getRoute] of an unregistered name, in full: at most a log line. *)
Lemma getRoute_missing name w :
  ROUTE_REGISTRY (wstatic w) !! name = None →
  ∃ w0, getRoute name w = (Throw (undefined_read "route"), w0) ∧
    ROUTE_REGISTRY (wstatic w0) = ROUTE_REGISTRY (wstatic w) ∧ router w0 = router w.
Proof.
  intros Hn. unfold getRoute, log. unfold_M.
  destruct (LOG_ROUTES w); unfold_M; rewrite Hn; simpl; eexists; split_and!; reflexivity.
Qed.

Section Run.
Variables (LOG_MODELS QUnit : bool) (pl : Plan).

Lemma step_resolve d s ri :
  plan_infos pl !! length d = Some ri →
  engine_step LOG_MODELS QUnit pl (PResolve d, s)
    (match on_world (getRoute (ri_name ri)) s with
     | (Ok h, s') => (PResolve (d ++ [mkRouteInfo (ri_name ri) (Some h) (ri_router ri)]), s')
     | (Throw e, s') => (PFailed e, s')
     end).
Proof. intros Hri. unfold engine_step. cbn [engine_next]. by rewrite Hri. Qed.

(** The engine resolves the remaining route infos [l] one by one through
    [getRoute]; the page and the router are untouched and each handler
    handed out carries the services. *)
Lemma resolve_loop l rest pre s :
  plan_infos pl = pre ++ l ++ rest →
  Forall (λ ri, is_Some (ROUTE_REGISTRY (wstatic (tworld s)) !! ri_name ri)) l →
  ∃ s', rtc (engine_step LOG_MODELS QUnit pl)
          (PResolve (resolve_info (ROUTE_REGISTRY (wstatic (tworld s))) <$> pre), s)
          (PResolve (resolve_info (ROUTE_REGISTRY (wstatic (tworld s))) <$> pre ++ l), s') ∧
    tpage s' = tpage s ∧ router (tworld s') = router (tworld s) ∧
    ROUTE_REGISTRY (wstatic (tworld s')) = ROUTE_REGISTRY (wstatic (tworld s)) ∧
    SERVICES (tworld s') = SERVICES (tworld s) ∧
    (∀ h, carries (tworld s) h → carries (tworld s') h) ∧
    (∀ ri, ri ∈ l → carries (tworld s') (default DefaultRoute (ROUTE_REGISTRY (wstatic (tworld s)) !! ri_name ri ≫= route))).
Proof.
  revert pre s. induction l as [|ri l IH]; intros pre s Hpl Hreg.
  - exists s. rewrite app_nil_r. split_and!; [reflexivity|done|done|done|done|by intros|].
    intros ri Hri. by apply elem_of_nil in Hri.
  - apply Forall_cons in Hreg as [[e He] Hreg].
    destruct (getRoute_ok (ri_name ri) e (tworld s) He) as (w0 & Hget & Hr0 & Hs0 & Hp0 & Hro0).
    set (h := default DefaultRoute (route e)).
    set (s1 := mkTState (assign_services h w0) (tpage s)).
    assert (Hstep : engine_step LOG_MODELS QUnit pl
                      (PResolve (resolve_info (ROUTE_REGISTRY (wstatic (tworld s))) <$> pre), s)
                      (PResolve (resolve_info (ROUTE_REGISTRY (wstatic (tworld s))) <$> pre ++ [ri]), s1)).
    { assert (Hlook : plan_infos pl !! length (resolve_info (ROUTE_REGISTRY (wstatic (tworld s))) <$> pre)
                      = Some ri).
      { rewrite length_fmap, Hpl, lookup_app_r, Nat.sub_diag by done. reflexivity. }
      pose proof (step_resolve _ s ri Hlook) as Hs. unfold on_world in Hs. rewrite Hget in Hs.
      cbv beta iota in Hs.
      replace (resolve_info (ROUTE_REGISTRY (wstatic (tworld s))) <$> pre ++ [ri]) with
        ((resolve_info (ROUTE_REGISTRY (wstatic (tworld s))) <$> pre) ++ [mkRouteInfo (ri_name ri) (Some h) (ri_router ri)]);
        [exact Hs|].
      rewrite fmap_app. f_equal. cbn [fmap list_fmap]. unfold resolve_info, resolved_handler. by rewrite He. }
    destruct (IH (pre ++ [ri]) s1) as (s' & Hrun & Hpg & Hro & Hrg & Hsv & Hcar & Hnew).
    { by rewrite <-app_assoc. }
    { simpl. by rewrite Hr0. }
    assert (Hreg1 : ROUTE_REGISTRY (wstatic (tworld s1)) = ROUTE_REGISTRY (wstatic (tworld s))) by exact Hr0.
    rewrite Hreg1 in Hrg, Hnew, Hrun. rewrite <-app_assoc in Hrun.
    exists s'. split_and!.
    + eapply rtc_l; [exact Hstep|exact Hrun].
    + done.
    + by rewrite Hro.
    + done.
    + by rewrite Hsv.
    + intros h' Hh. apply Hcar. apply assign_services_carries. unfold carries. by rewrite Hs0, Hp0.
    + intros ri' Hri'. apply elem_of_cons in Hri' as [->|Hri']; [|by apply Hnew].
      apply Hcar. rewrite He. apply assign_services_carries_self.
Qed.

(** What the container shows after the [setup] of route info [ri] with
    model [m]. *)
Definition setup_content (this : Handler) (ri : RouteInfo) (m : JsVal) : Content :=
  if decide (ri_route ri = Some this) then Rendered this (if js_truthy m then m else JObj []) else Cleared.

Lemma step_setup r k s ri :
  r !! k = Some ri →
  engine_step LOG_MODELS QUnit pl (PSetup r k, s)
    (call (on_page (setup LOG_MODELS QUnit (default DefaultRoute (ri_route ri))
                      (default JUndefined (plan_models pl !! k)) (mkSetupTransition (target_name pl) r)))
          (PSetup r (S k)) s).
Proof. intros Hri. unfold engine_step. cbn [engine_next]. by rewrite Hri. Qed.

(** The engine runs the [setup] of the route infos [k..] in order; the
    last one decides what the container shows. *)
Lemma setup_loop j r k s el rl :
  length r = k + j → byId (document (tpage s)) !! container_id QUnit = Some el → last r = Some rl →
  ∃ s', rtc (engine_step LOG_MODELS QUnit pl) (PSetup r k, s) (PSetup r (length r), s') ∧
    tworld s' = tworld s ∧ byId (document (tpage s')) = byId (document (tpage s)) ∧ (j = 0 → s' = s) ∧
    (0 < j → content (document (tpage s')) !! el =
               Some (setup_content (default DefaultRoute (ri_route rl)) rl
                       (default JUndefined (plan_models pl !! pred (length r))))).
Proof.
  revert k s. induction j as [|j IH]; intros k s Hlen Hel Hrl.
  - exists s. rewrite Hlen, Nat.add_0_r. split_and!; [reflexivity|done|done|done|lia].
  - destruct (r !! k) as [ri|] eqn:Hri; [|apply lookup_ge_None in Hri; lia].
    pose proof (setup_run LOG_MODELS QUnit (default DefaultRoute (ri_route ri))
                (default JUndefined (plan_models pl !! k)) (mkSetupTransition (target_name pl) r)
                (tpage s) el rl Hel Hrl) as Hs.
    set (p1 := mkPage _ _) in Hs.
    set (s1 := mkTState (tworld s) p1).
    assert (Hstep : engine_step LOG_MODELS QUnit pl (PSetup r k, s) (PSetup r (S k), s1)).
    { pose proof (step_setup r k s ri Hri) as Hst. unfold call, on_page in Hst. by rewrite Hs in Hst. }
    destruct (IH (S k) s1) as (s' & Hrun & Hw & Hb & H0 & Hc); [lia|exact Hel|exact Hrl|].
    exists s'. split_and!.
    + eapply rtc_l; [exact Hstep|exact Hrun].
    + exact Hw.
    + exact Hb.
    + lia.
    + intros _. destruct j as [|j].
      * assert (Hk : k = pred (length r)) by lia.
        assert (ri = rl) as ->.
        { rewrite last_lookup, <-Hk in Hrl. congruence. }
        rewrite (H0 eq_refl). unfold s1, p1. cbn. rewrite lookup_insert_eq. by rewrite <-Hk.
      * apply Hc. lia.
Qed.

Lemma step_resolve_done d s :
  plan_infos pl !! length d = None → engine_step LOG_MODELS QUnit pl (PResolve d, s) (PSetup d 0, s).
Proof. intros Hd. unfold engine_step. cbn [engine_next]. by rewrite Hd. Qed.

Lemma step_setup_done r s : engine_step LOG_MODELS QUnit pl (PSetup r (length r), s) (PUpdateURL r, s).
Proof. unfold engine_step. cbn [engine_next]. by rewrite lookup_ge_None_2. Qed.

Lemma step_call m next ph s s' :
  engine_next LOG_MODELS QUnit pl (ph, s) = Some (call m next s) → m s = (Ok tt, s') →
  engine_step LOG_MODELS QUnit pl (ph, s) (next, s').
Proof. unfold engine_step, call. intros -> ->. reflexivity. Qed.

Lemma carries_same w w' h : carries w h → SERVICES w' = SERVICES w → props w' = props w → carries w' h.
Proof. intros Hc Hs Hp k v. rewrite Hs, Hp. apply Hc. Qed.

Lemma last_resolve reg l ri : last l = Some ri → last (resolve_info reg <$> l) = Some (resolve_info reg ri).
Proof. intros Hl. by rewrite last_lookup, length_fmap, list_lookup_fmap, <-last_lookup, Hl. Qed.

Lemma step_start s ri0 :
  plan_infos pl !! 0 = Some ri0 →
  engine_step LOG_MODELS QUnit pl (PStart, s)
    (PResolve [], mkTState (mkWorld (wstatic (tworld s)) (SERVICES (tworld s)) (LOG_ROUTES (tworld s))
                              (props (tworld s)) (set_current ri0 (router (tworld s)))) (tpage s)).
Proof.
  intros H0. eapply step_call; [reflexivity|]. unfold on_world, willTransition, set_router. unfold_M.
  by rewrite H0.
Qed.

(** The end of a transition: [updateURL], then [didTransition] on the
    resolved route infos. *)
Lemma finish_run r s rl :
  last r = Some rl → ri_router rl = ThisRouter →
  ∃ s', rtc (engine_step LOG_MODELS QUnit pl) (PSetup r (length r), s) (PDone, s') ∧
    tpage s' = tpage s ∧ SERVICES (tworld s') = SERVICES (tworld s) ∧ props (tworld s') = props (tworld s) ∧
    currentRouteName (router (tworld s')) = Some (ri_name rl) ∧
    currentRoute (router (tworld s')) = ri_route rl ∧ currentURL (router (tworld s')) = Some (plan_url pl).
Proof.
  intros Hrl Hthis.
  set (w1 := mkWorld (wstatic (tworld s)) (SERVICES (tworld s)) (LOG_ROUTES (tworld s)) (props (tworld s))
               (mkRouter (testing (router (tworld s))) (if testing (router (tworld s)) then locationBar (router (tworld s))
                                                else locationBar (router (tworld s)) ++ [plan_url pl])
                  (Some (plan_url pl)) (currentRoute (router (tworld s))) (currentRouteName (router (tworld s)))
                  (currentURL (router (tworld s))))).
  set (w2 := mkWorld (wstatic w1) (SERVICES w1) (LOG_ROUTES w1) (props w1) (set_current rl (router w1))).
  assert (Hu : engine_step LOG_MODELS QUnit pl (PUpdateURL r, s) (PDidTransition r, mkTState w1 (tpage s))).
  { eapply step_call; [reflexivity|]. unfold on_world, updateURL, set_router, w1. unfold_M.
    by destruct (testing (router (tworld s))). }
  assert (Hd : engine_step LOG_MODELS QUnit pl (PDidTransition r, mkTState w1 (tpage s)) (PDone, mkTState w2 (tpage s))).
  { eapply step_call; [reflexivity|]. unfold on_world, didTransition, set_router. unfold_M. by rewrite Hrl. }
  exists (mkTState w2 (tpage s)). split_and!; try done.
  - eapply rtc_l; [apply step_setup_done|]. eapply rtc_l; [exact Hu|]. by apply rtc_once.
  - unfold w2, set_current; simpl. by rewrite Hthis.
Qed.

(** C11: A transition to route infos whose names are all registered, with
    the container element present, runs to its end: afterwards the
    router's current route, name and URL are the target's, the container
    shows the target's handler (with [{}] for a falsy model), and every
    handler of the transition carries the services. *)
Theorem transition_completes s el ri_last :
  last (plan_infos pl) = Some ri_last → ri_router ri_last = ThisRouter →
  Forall (λ ri, is_Some (ROUTE_REGISTRY (wstatic (tworld s)) !! ri_name ri)) (plan_infos pl) →
  byId (document (tpage s)) !! container_id QUnit = Some el →
  ∃ s', rtc (engine_step LOG_MODELS QUnit pl) (PStart, s) (PDone, s') ∧
    currentRouteName (router (tworld s')) = Some (ri_name ri_last) ∧
    currentRoute (router (tworld s')) = Some (resolved_handler (ROUTE_REGISTRY (wstatic (tworld s))) ri_last) ∧
    currentURL (router (tworld s')) = Some (plan_url pl) ∧
    content (document (tpage s')) !! el =
      Some (Rendered (resolved_handler (ROUTE_REGISTRY (wstatic (tworld s))) ri_last)
              (let m := default JUndefined (plan_models pl !! pred (length (plan_infos pl))) in
               if js_truthy m then m else JObj [])) ∧
    ∀ ri, ri ∈ plan_infos pl → carries (tworld s') (resolved_handler (ROUTE_REGISTRY (wstatic (tworld s))) ri).
Proof.
  intros Hlast Hthis Hreg Hel.
  destruct (plan_infos pl !! 0) as [ri0|] eqn:H0;
    [|apply lookup_ge_None in H0; rewrite last_lookup in Hlast; destruct (plan_infos pl); simpl in *; [done|lia]].
  pose proof (step_start s ri0 H0) as Hstart. set (s0 := mkTState _ (tpage s)) in Hstart.
  destruct (resolve_loop (plan_infos pl) [] [] s0) as (s1 & Hrun1 & Hp1 & _ & Hr1 & Hs1 & _ & Hcar1);
    [by rewrite app_nil_r|exact Hreg|].
  change (ROUTE_REGISTRY (wstatic (tworld s0))) with (ROUTE_REGISTRY (wstatic (tworld s))) in *.
  set (reg := ROUTE_REGISTRY (wstatic (tworld s))) in *.
  set (R := resolve_info reg <$> plan_infos pl) in *. simpl in Hrun1.
  assert (Hres : engine_step LOG_MODELS QUnit pl (PResolve R, s1) (PSetup R 0, s1)).
  { apply step_resolve_done. unfold R. rewrite length_fmap. by apply lookup_ge_None_2. }
  destruct (setup_loop (length R) R 0 s1 el (resolve_info reg ri_last))
    as (s2 & Hrun2 & Hw2 & _ & _ & Hc2); [done|by rewrite Hp1|by apply last_resolve|].
  destruct (finish_run R s2 (resolve_info reg ri_last)) as (s3 & Hrun3 & Hp3 & Hs3 & Hpr3 & Hn3 & Hr3 & Hu3);
    [by apply last_resolve|done|].
  exists s3. split_and!.
  - eapply rtc_l; [exact Hstart|]. etrans; [exact Hrun1|]. eapply rtc_l; [exact Hres|].
    etrans; [exact Hrun2|exact Hrun3].
  - done.
  - done.
  - done.
  - rewrite Hp3, Hc2 by (unfold R; rewrite length_fmap, last_lookup in *;
                         destruct (plan_infos pl); simpl in *; [done|lia]).
    unfold setup_content, R. rewrite length_fmap. simpl. by rewrite decide_True.
  - intros ri Hri. apply (carries_same (tworld s1)); [by apply Hcar1|by rewrite Hs3, Hw2|by rewrite Hpr3, Hw2].
Qed.

(** C33: A transition whose route infos reach a name that is not
    registered (all names before it registered) fails there: the engine
    ends in the failed phase with the TypeError of reading [route] of
    [undefined]; no route's [setup] has run, so the page is untouched,
    and the router keeps the current route [willTransition] set from the
    first route info. *)
Theorem transition_unregistered_fails s pre ri post :
  plan_infos pl = pre ++ ri :: post →
  Forall (λ ri, is_Some (ROUTE_REGISTRY (wstatic (tworld s)) !! ri_name ri)) pre →
  ROUTE_REGISTRY (wstatic (tworld s)) !! ri_name ri = None →
  ∃ s', rtc (engine_step LOG_MODELS QUnit pl) (PStart, s) (PFailed (undefined_read "route"), s') ∧
    tpage s' = tpage s ∧
    currentRouteName (router (tworld s')) = ri_name <$> head (plan_infos pl).
Proof.
  intros Hpl Hreg Hn.
  destruct (plan_infos pl !! 0) as [ri0|] eqn:H0; [|apply lookup_ge_None in H0; rewrite Hpl, length_app in H0; simpl in H0; lia].
  pose proof (step_start s ri0 H0) as Hstart. set (s0 := mkTState _ (tpage s)) in Hstart.
  destruct (resolve_loop pre (ri :: post) [] s0) as (s1 & Hrun1 & Hp1 & Hro1 & Hr1 & _ & _ & _); [done|exact Hreg|].
  change (ROUTE_REGISTRY (wstatic (tworld s0))) with (ROUTE_REGISTRY (wstatic (tworld s))) in *.
  destruct (getRoute_missing (ri_name ri) (tworld s1)) as (w2 & Hget & _ & Hro2); [by rewrite Hr1|].
  assert (Hfail : engine_step LOG_MODELS QUnit pl
                    (PResolve (resolve_info (ROUTE_REGISTRY (wstatic (tworld s))) <$> pre), s1)
                    (PFailed (undefined_read "route"), mkTState w2 (tpage s1))).
  { pose proof (step_resolve (resolve_info (ROUTE_REGISTRY (wstatic (tworld s))) <$> pre) s1 ri) as Hs.
    unfold on_world in Hs. rewrite Hget in Hs. apply Hs.
    by rewrite length_fmap, Hpl, lookup_app_r, Nat.sub_diag by done. }
  exists (mkTState w2 (tpage s1)). split_and!.
  - eapply rtc_l; [exact Hstart|]. etrans; [exact Hrun1|]. by apply rtc_once.
  - done.
  - cbn [tworld]. rewrite Hro2, Hro1. by rewrite head_lookup, H0.
Qed.

End Run.

(** *** Witnesses: a transition to [users.edit] *)

Definition scenario_plan : Plan :=
  mkPlan two_infos [JObj []; JObj [("id", JStr "42")]] "/users/42".
Definition scenario_state : TState := mkTState scenario_world app_page.

(** The transition to [/users/42] of the spec's scenario: the engine
    finishes in [measure] steps, renders [UsersEditRoute] with its model
    and points the router at [users.edit] and the URL. *)
Example scenario_transition :
  (engine_run false false scenario_plan (measure scenario_plan PStart) (PStart, scenario_state)).1 = PDone ∧
  content (document (tpage (engine_run false false scenario_plan (measure scenario_plan PStart)
                              (PStart, scenario_state)).2)) !! 1 =
    Some (Rendered users_edit (JObj [("id", JStr "42")])) ∧
  currentRouteName (router (tworld (engine_run false false scenario_plan (measure scenario_plan PStart)
                                     (PStart, scenario_state)).2)) = Some "users.edit".
Proof. split_and!; vm_compute; reflexivity. Qed.

Lemma transition_completes_witness :
  last (plan_infos scenario_plan) = Some (mkRouteInfo "users.edit" None ThisRouter) ∧
  ri_router (mkRouteInfo "users.edit" None ThisRouter) = ThisRouter ∧
  Forall (λ ri, is_Some (ROUTE_REGISTRY (wstatic (tworld scenario_state)) !! ri_name ri)) (plan_infos scenario_plan) ∧
  byId (document (tpage scenario_state)) !! container_id false = Some 1 ∧
  ∃ s', rtc (engine_step false false scenario_plan) (PStart, scenario_state) (PDone, s') ∧
    currentRouteName (router (tworld s')) = Some "users.edit" ∧
    content (document (tpage s')) !! 1 = Some (Rendered users_edit (JObj [("id", JStr "42")])).
Proof.
  assert (Hreg : Forall (λ ri, is_Some (ROUTE_REGISTRY (wstatic (tworld scenario_state)) !! ri_name ri))
                   (plan_infos scenario_plan)) by (repeat constructor; eexists; reflexivity).
  split_and!; [reflexivity|reflexivity|exact Hreg|reflexivity|].
  destruct (transition_completes false false scenario_plan scenario_state 1 (mkRouteInfo "users.edit" None ThisRouter))
    as (s' & Hrun & Hn & _ & _ & Hc & _); [reflexivity|reflexivity|exact Hreg|reflexivity|].
  exists s'. split_and!; [exact Hrun|exact Hn|rewrite Hc; reflexivity].
Defined.

Lemma engine_run_frame_witness :
  rtc (engine_step false false scenario_plan) (PStart, scenario_state)
      (engine_run false false scenario_plan 10 (PStart, scenario_state)) ∧
  same_frame scenario_state (engine_run false false scenario_plan 10 (PStart, scenario_state)).2.
Proof.
  pose proof (engine_run_rtc false false scenario_plan 10 (PStart, scenario_state)) as Hr.
  split; [exact Hr|]. exact (engine_run_frame false false scenario_plan _ _ Hr).
Defined.

(** A transition to a route the registry does not know. *)
Definition unknown_plan : Plan :=
  mkPlan [mkRouteInfo "users" None ThisRouter; mkRouteInfo "posts" None ThisRouter] [] "/posts".

Lemma transition_unregistered_fails_witness :
  (plan_infos unknown_plan = [mkRouteInfo "users" None ThisRouter] ++ mkRouteInfo "posts" None ThisRouter :: [] ∧
   Forall (λ ri, is_Some (ROUTE_REGISTRY (wstatic (tworld scenario_state)) !! ri_name ri))
     [mkRouteInfo "users" None ThisRouter] ∧
   ROUTE_REGISTRY (wstatic (tworld scenario_state)) !! "posts" = None) ∧
  ∃ s', rtc (engine_step false false unknown_plan) (PStart, scenario_state) (PFailed (undefined_read "route"), s') ∧
    tpage s' = app_page ∧ currentRouteName (router (tworld s')) = Some "users".
Proof.
  assert (Hreg : Forall (λ ri, is_Some (ROUTE_REGISTRY (wstatic (tworld scenario_state)) !! ri_name ri))
                   [mkRouteInfo "users" None ThisRouter]) by (repeat constructor; eexists; reflexivity).
  split; [split_and!; [reflexivity|exact Hreg|reflexivity]|].
  destruct (transition_unregistered_fails false false unknown_plan scenario_state
              [mkRouteInfo "users" None ThisRouter] (mkRouteInfo "posts" None ThisRouter) [])
    as (s' & Hrun & Hp & Hn); [reflexivity|exact Hreg|reflexivity|].
  exists s'. split_and!; [exact Hrun|exact Hp|exact Hn].
Defined.

End ProtocolFacts.
