(* ===== verification/TestHelpers.v ===== *)
(** * The test helpers

    [triggerKeyEvent] (test-helpers/lib/input/trigger-key-event.ts) and
    [setupTest] (router/test/helpers/index.ts) forward to libraries that
    are not part of the repository (qunit-action, qunit-dom and the
    upstream test helpers).  The libraries' entry points are section
    variables, computations of the state-and-exception monad over any
    state; what the helpers add is the default modifiers and the order of
    the calls. *)

From stdpp Require Import base list strings.
From S2P Require Import Prelude Route.
Open Scope stdpp_scope.
Open Scope js_scope.

Module TestHelpers.
Import JsNumber.

(** [interface KeyModifiers]: four optional flags. *)
Record KeyModifiers := mkKeyModifiers {
  ctrlKey : option bool;
  altKey : option bool;
  shiftKey : option bool;
  metaKey : option bool;
}.

(** [DEFAULT_MODIFIERS = Object.freeze({ .. all false .. })]: a value
    that no call can change. *)
Definition DEFAULT_MODIFIERS : KeyModifiers := mkKeyModifiers (Some false) (Some false) (Some false) (Some false).

(** [key: number | string]. *)
Inductive Key :=
| KeyNumber (n : number)
| KeyString (s : string).

Section Helpers.
Context {S Target KeyboardEventType Hooks StartFn : Type}.

(** [actions.triggerKeyEvent] of qunit-action. *)
Variable actions_triggerKeyEvent : Target → KeyboardEventType → Key → KeyModifiers → M S unit.

(** [triggerKeyEvent(target, eventType, key, modifiers = DEFAULT_MODIFIERS)]:
    an omitted (or [undefined]) [modifiers] takes the default; the result
    is the library's. *)
Definition triggerKeyEvent (target : Target) (eventType : KeyboardEventType) (key : Key)
    (modifiers : option KeyModifiers) : M S unit :=
  actions_triggerKeyEvent target eventType key (default DEFAULT_MODIFIERS modifiers).

(** qunit-dom's [setup(QUnit.assert)] and the upstream
    [setupRenderingTest(hooks, startRouterFunc)]. *)
Variable qunit_dom_setup : M S unit.
Variable upstreamSetupApplicationTest : Hooks → StartFn → M S unit.

(** [setupTest(hooks, startRouterFunc)]. *)
Definition setupTest (hooks : Hooks) (startRouterFunc : StartFn) : M S unit :=
  let* _ := qunit_dom_setup in
  upstreamSetupApplicationTest hooks startRouterFunc.

End Helpers.

End TestHelpers.

Module TestHelpersFacts.
Import TestHelpers.

Section Facts.
Context {S Target KeyboardEventType Hooks StartFn : Type}.
Variable actions_triggerKeyEvent : Target → KeyboardEventType → Key → KeyModifiers → M S unit.
Variable qunit_dom_setup : M S unit.
Variable upstreamSetupApplicationTest : Hooks → StartFn → M S unit.

(** Omitting the modifiers is the same as passing the defaults; given
    modifiers are passed as they are, flags left out staying [undefined]
    (they are not merged with the defaults). *)
Lemma triggerKeyEvent_modifiers t ev k mods :
  triggerKeyEvent actions_triggerKeyEvent t ev k None = triggerKeyEvent actions_triggerKeyEvent t ev k (Some DEFAULT_MODIFIERS) ∧
  triggerKeyEvent actions_triggerKeyEvent t ev k (Some mods) = actions_triggerKeyEvent t ev k mods.
Proof. done. Qed.

(** [setupTest] runs qunit-dom's setup first; when it throws, the
    upstream setup is not run. *)
Lemma setupTest_order hooks start s e s' :
  qunit_dom_setup s = (Throw e, s') →
  setupTest qunit_dom_setup upstreamSetupApplicationTest hooks start s = (Throw e, s').
Proof. intros H. unfold setupTest, bind. by rewrite H. Qed.

End Facts.

End TestHelpersFacts.
